(** * lsky-uploader: image references, the Lsky client and reconciliation

    A shallow embedding of the plugin's core (the Lsky client, the upload
    and download features, the cleanup of unused images) and the
    properties of its specification.

    Strings are JavaScript strings: sequences of UTF-16 code units, here
    [list N].  Regular expressions are kept as syntax trees that mirror
    the literals of the source and are run by a backtracking matcher with
    the priority order of ECMAScript (first alternative first, greedy and
    lazy quantifiers). *)

From Stdlib Require Import List NArith Ascii String Bool Arith Lia Permutation.
Import ListNotations.


(* ================================================================== *)
(** ** JavaScript strings *)
(* ================================================================== *)

Module JsString.

Definition jsstring := list N.

(** A source literal, written as a Rocq string of ASCII characters. *)
Definition js (s : string) : jsstring :=
  List.map N_of_ascii (list_ascii_of_string s).

Arguments js s%_string.

Fixpoint eqb (a b : jsstring) : bool :=
  match a, b with
  | [], [] => true
  | x :: a', y :: b' => N.eqb x y && eqb a' b'
  | _, _ => false
  end.

(** A string is truthy when it is not empty. *)
Definition truthy (s : jsstring) : bool :=
  match s with [] => false | _ :: _ => true end.

(** [s.startsWith(p)] *)
Fixpoint startsWith (p s : jsstring) : bool :=
  match p, s with
  | [], _ => true
  | x :: p', y :: s' => N.eqb x y && startsWith p' s'
  | _ :: _, [] => false
  end.

(** [s.includes(p)] *)
Fixpoint includes (p s : jsstring) : bool :=
  startsWith p s ||
  match s with
  | [] => false
  | _ :: s' => includes p s'
  end.

(** [s.replace(p, '')] with a string pattern: the first occurrence of
    [p] is removed. *)
Fixpoint removeFirst (p s : jsstring) : jsstring :=
  if startsWith p s then skipn (List.length p) s
  else match s with
       | [] => []
       | c :: s' => c :: removeFirst p s'
       end.

(** [s.substring(1)] *)
Definition substring1 (s : jsstring) : jsstring := tl s.

(** LineTerminator: LF, CR, LS, PS. *)
Definition isLineTerminator (c : N) : bool :=
  (c =? 10)%N || (c =? 13)%N || (c =? 8232)%N || (c =? 8233)%N.

(** WhiteSpace: TAB, VT, FF, SP, NBSP, ZWNBSP and the space separators. *)
Definition isWhiteSpace (c : N) : bool :=
  (c =? 9)%N || (c =? 11)%N || (c =? 12)%N || (c =? 32)%N || (c =? 160)%N
  || (c =? 5760)%N || ((8192 <=? c)%N && (c <=? 8202)%N)
  || (c =? 8239)%N || (c =? 8287)%N || (c =? 12288)%N || (c =? 65279)%N.

(** What [\s] matches and what [trim] strips. *)
Definition isSpace (c : N) : bool := isWhiteSpace c || isLineTerminator c.

Fixpoint trimStart (s : jsstring) : jsstring :=
  match s with
  | c :: s' => if isSpace c then trimStart s' else s
  | [] => []
  end.

Definition trimEnd (s : jsstring) : jsstring :=
  rev (trimStart (rev s)).

(** [s.trim()] *)
Definition trim (s : jsstring) : jsstring := trimEnd (trimStart s).

(** [s.split(sep).pop()] for a one-unit separator: what follows the
    last separator, the whole string when there is none. *)
Fixpoint lastSegment (sep : N) (s : jsstring) : jsstring :=
  match s with
  | [] => []
  | c :: s' =>
      if existsb (N.eqb sep) s' then lastSegment sep s'
      else if N.eqb c sep then s' else s
  end.

(** [s.toLowerCase()] on the ASCII letters. *)
Definition lowerAscii (c : N) : N :=
  if (65 <=? c)%N && (c <=? 90)%N then (c + 32)%N else c.

(** A set of strings in insertion order, as [Set<string>] keeps it:
    [add] of a member changes nothing. *)
Definition mem (x : jsstring) (l : list jsstring) : bool :=
  existsb (eqb x) l.

Definition add (l : list jsstring) (x : jsstring) : list jsstring :=
  if mem x l then l else l ++ [x].

Definition addAll (l xs : list jsstring) : list jsstring :=
  fold_left add xs l.

(** [new Set(xs)] then [Array.from]. *)
Definition setOf (xs : list jsstring) : list jsstring := addAll [] xs.

End JsString.

Export JsString.

(* ================================================================== *)
(** ** Regular expressions *)
(* ================================================================== *)

Module Regex.

(** One-character matchers. *)
Inductive cset : Type :=
| Ch (c : N)                  (* a pattern character *)
| ChI (c : N)                 (* an ASCII pattern character under /i *)
| Dot                         (* . *)
| OneOf (l : list N)          (* [abc] *)
| NoneOf (l : list N)         (* [^abc] *)
| NoneOfSpace (l : list N)    (* [^\sabc] *)
| NoneOfWord (l : list N).    (* [^\wabc] *)

(** Canonicalize of the /i flag (no /u), on what can equal an ASCII
    pattern character: a code unit of 128 or more never folds into the
    ASCII range. *)
Definition canonicalize (c : N) : N :=
  if (97 <=? c)%N && (c <=? 122)%N then (c - 32)%N else c.

(** What [\w] matches. *)
Definition isWord (c : N) : bool :=
  ((65 <=? c)%N && (c <=? 90)%N) || ((97 <=? c)%N && (c <=? 122)%N)
  || ((48 <=? c)%N && (c <=? 57)%N) || (c =? 95)%N.

Definition cmatch (cs : cset) (c : N) : bool :=
  match cs with
  | Ch x => N.eqb x c
  | ChI x => N.eqb (canonicalize x) (canonicalize c)
  | Dot => negb (isLineTerminator c)
  | OneOf l => existsb (N.eqb c) l
  | NoneOf l => negb (existsb (N.eqb c) l)
  | NoneOfSpace l => negb (isSpace c || existsb (N.eqb c) l)
| NoneOfWord l => negb (isWord c || existsb (N.eqb c) l)
  end.

(** The fragment of the pattern language that the source uses; the
    quantifiers apply to one-character matchers, and there is at most
    one capture group. *)
Inductive regex : Type :=
| Eps
| One (cs : cset)
| Seq (a b : regex)
| Alt (a b : regex)
| Star (cs : cset)            (* x*  greedy *)
| LazyStar (cs : cset)        (* x*? *)
| Group (a : regex)           (* ( ) *)
| Bol                         (* ^ *)
| Eol.                        (* $ *)

Definition Plus (cs : cset) : regex := Seq (One cs) (Star cs).
Definition Opt (a : regex) : regex := Alt a Eps.

Fixpoint Lit (s : jsstring) : regex :=
  match s with
  | [] => Eps
  | c :: s' => Seq (One (Ch c)) (Lit s')
  end.

Fixpoint LitI (s : jsstring) : regex :=
  match s with
  | [] => Eps
  | c :: s' => Seq (One (ChI c)) (LitI s')
  end.

(** The result of a match: the end index and capture 1. *)
Definition result : Type := nat * option jsstring.

(** A continuation: index, remaining input, capture 1 so far. *)
Definition cont : Type := nat -> jsstring -> option jsstring -> option result.

Fixpoint greedyStar (p : N -> bool) (k : nat -> jsstring -> option result)
         (i : nat) (s : jsstring) : option result :=
  match s with
  | c :: s' =>
      if p c then
        match greedyStar p k (S i) s' with
        | Some r => Some r
        | None => k i s
        end
      else k i s
  | [] => k i s
  end.

Fixpoint lazyStar (p : N -> bool) (k : nat -> jsstring -> option result)
         (i : nat) (s : jsstring) : option result :=
  match k i s with
  | Some r => Some r
  | None =>
      match s with
      | c :: s' => if p c then lazyStar p k (S i) s' else None
      | [] => None
      end
  end.

(** The backtracking matcher: [m r k i s cp] matches [r] at index [i],
    where [s] is the input from [i] on, and then runs [k]. *)
Fixpoint m (r : regex) (k : cont) (i : nat) (s : jsstring)
         (cp : option jsstring) : option result :=
  match r with
  | Eps => k i s cp
  | One cs =>
      match s with
      | c :: s' => if cmatch cs c then k (S i) s' cp else None
      | [] => None
      end
  | Seq a b => m a (m b k) i s cp
  | Alt a b =>
      match m a k i s cp with
      | Some x => Some x
      | None => m b k i s cp
      end
  | Star cs => greedyStar (cmatch cs) (fun i' s' => k i' s' cp) i s
  | LazyStar cs => lazyStar (cmatch cs) (fun i' s' => k i' s' cp) i s
  | Group a => m a (fun i' s' _ => k i' s' (Some (firstn (i' - i) s))) i s cp
  | Bol => match i with O => k i s cp | S _ => None end
  | Eol => match s with [] => k i s cp | _ :: _ => None end
  end.

Definition accept : cont := fun i _ cp => Some (i, cp).

(** A match of [r] that starts at index [i], [s] being the input from
    [i] on: its length and capture 1. *)
Definition matchAt (r : regex) (i : nat) (s : jsstring) : option result :=
  match m r accept i s None with
  | Some (e, cp) => Some (e - i, cp)
  | None => None
  end.

(** The input cut by the successive matches of a /g regex: the code
    units outside the matches, and the matches. *)
Inductive piece : Type :=
| Keep (c : N)
| Hit (index : nat) (matched : jsstring) (capture : option jsstring).

(** [scan r i s skip]: [s] is the input from index [i] on and [skip]
    counts the code units still inside the previous match.  After an
    empty match the search goes on one unit further. *)
Fixpoint scan (r : regex) (i : nat) (s : jsstring) (skip : nat) : list piece :=
  match s with
  | [] =>
      match skip with
      | O =>
          match matchAt r i [] with
          | Some (_, cp) => [Hit i [] cp]
          | None => []
          end
      | S _ => []
      end
  | c :: s' =>
      match skip with
      | S n => scan r (S i) s' n
      | O =>
          match matchAt r i s with
          | Some (len, cp) =>
              Hit i (firstn len s) cp ::
              match len with
              | O => Keep c :: scan r (S i) s' 0
              | S n => scan r (S i) s' n
              end
          | None => Keep c :: scan r (S i) s' 0
          end
      end
  end.

(** The first match from index [i] on. *)
Fixpoint search (r : regex) (i : nat) (s : jsstring)
  : option (nat * jsstring * option jsstring) :=
  match matchAt r i s with
  | Some (len, cp) => Some (i, firstn len s, cp)
  | None =>
      match s with
      | [] => None
      | _ :: s' => search r (S i) s'
      end
  end.

(** [r.test(s)] for a regex without /g. *)
Definition test (r : regex) (s : jsstring) : bool :=
  match search r 0 s with Some _ => true | None => false end.

(** The matches of a /g regex in order, as the loop on [r.exec(s)] and
    [s.match(r)] see them: matched text and capture 1. *)
Fixpoint hits (ps : list piece) : list (jsstring * option jsstring) :=
  match ps with
  | [] => []
  | Keep _ :: ps' => hits ps'
  | Hit _ mt cp :: ps' => (mt, cp) :: hits ps'
  end.

Definition matchAll (r : regex) (s : jsstring) : list (jsstring * option jsstring) :=
  hits (scan r 0 s 0).

(** GetSubstitution for a regex without capture groups: [$$], [$&],
    [$`] and [$'] are replaced, every other [$] stands for itself. *)
Fixpoint getSubstitution (matched before after template : jsstring) : jsstring :=
  match template with
  | [] => []
  | 36%N :: t =>
      match t with
      | 36%N :: t' => 36%N :: getSubstitution matched before after t'
      | 38%N :: t' => matched ++ getSubstitution matched before after t'
      | 96%N :: t' => before ++ getSubstitution matched before after t'
      | 39%N :: t' => after ++ getSubstitution matched before after t'
      | _ => 36%N :: getSubstitution matched before after t
      end
  | c :: t => c :: getSubstitution matched before after t
  end.

Fixpoint rebuild (str template : jsstring) (ps : list piece) : jsstring :=
  match ps with
  | [] => []
  | Keep c :: ps' => c :: rebuild str template ps'
  | Hit i mt _ :: ps' =>
      getSubstitution mt (firstn i str) (skipn (i + List.length mt) str) template
        ++ rebuild str template ps'
  end.

(** [s.replace(r, template)] for a /g regex without capture groups. *)
Definition replaceAll (r : regex) (template s : jsstring) : jsstring :=
  rebuild s template (scan r 0 s 0).

(** [s.replace(r, template)] for a regex without /g and without
    capture groups: the first match only. *)
Definition replaceFirst (r : regex) (template s : jsstring) : jsstring :=
  match search r 0 s with
  | Some (i, mt, _) =>
      firstn i s
        ++ getSubstitution mt (firstn i s) (skipn (i + List.length mt) s) template
        ++ skipn (i + List.length mt) s
  | None => s
  end.

End Regex.

Export Regex.

Declare Scope regex_scope.
Delimit Scope regex_scope with re.
Infix ">>" := Seq (at level 61, right associativity) : regex_scope.
Local Open Scope regex_scope.

(* ================================================================== *)
(** ** decodeURIComponent *)
(* ================================================================== *)

Module Uri.

Definition hexDigit (c : N) : option N :=
  if (48 <=? c)%N && (c <=? 57)%N then Some (c - 48)%N
  else if (65 <=? c)%N && (c <=? 70)%N then Some (c - 55)%N
  else if (97 <=? c)%N && (c <=? 102)%N then Some (c - 87)%N
  else None.

(** The input with every [%XX] read as an octet. *)
Inductive token : Type :=
| Unit (c : N)
| Octet (b : N).

Fixpoint tokens (s : jsstring) : option (list token) :=
  match s with
  | [] => Some []
  | 37%N :: rest =>
      match rest with
      | a :: b :: t =>
          match hexDigit a, hexDigit b, tokens t with
          | Some x, Some y, Some ts => Some (Octet (16 * x + y)%N :: ts)
          | _, _, _ => None
          end
      | _ => None
      end
  | c :: t =>
      match tokens t with
      | Some ts => Some (Unit c :: ts)
      | None => None
      end
  end.

Definition isContinuation (b : N) : bool := (128 <=? b)%N && (b <=? 191)%N.

(** A code point as UTF-16 code units. *)
Definition utf16 (v : N) : jsstring :=
  if (v <? 65536)%N then [v]
  else [(55296 + (v - 65536) / 1024)%N; (56320 + (v - 65536) mod 1024)%N].

Definition scalar (lo v : N) : option jsstring :=
  if (lo <=? v)%N && (v <=? 1114111)%N && negb ((55296 <=? v)%N && (v <=? 57343)%N)
  then Some (utf16 v) else None.

(** The octets must be a well-formed UTF-8 sequence. *)
Fixpoint utf8 (ts : list token) : option jsstring :=
  match ts with
  | [] => Some []
  | Unit c :: t =>
      match utf8 t with Some r => Some (c :: r) | None => None end
  | Octet b :: t =>
      if (b <? 128)%N then
        match utf8 t with Some r => Some (b :: r) | None => None end
      else if (192 <=? b)%N && (b <=? 223)%N then
        match t with
        | Octet b1 :: t1 =>
            if isContinuation b1 then
              match scalar 128 ((b - 192) * 64 + (b1 - 128))%N, utf8 t1 with
              | Some u, Some r => Some (u ++ r)
              | _, _ => None
              end
            else None
        | _ => None
        end
      else if (224 <=? b)%N && (b <=? 239)%N then
        match t with
        | Octet b1 :: Octet b2 :: t2 =>
            if isContinuation b1 && isContinuation b2 then
              match scalar 2048 ((b - 224) * 4096 + (b1 - 128) * 64 + (b2 - 128))%N,
                    utf8 t2 with
              | Some u, Some r => Some (u ++ r)
              | _, _ => None
              end
            else None
        | _ => None
        end
      else if (240 <=? b)%N && (b <=? 247)%N then
        match t with
        | Octet b1 :: Octet b2 :: Octet b3 :: t3 =>
            if isContinuation b1 && isContinuation b2 && isContinuation b3 then
              match scalar 65536 ((b - 240) * 262144 + (b1 - 128) * 4096
                                  + (b2 - 128) * 64 + (b3 - 128))%N,
                    utf8 t3 with
              | Some u, Some r => Some (u ++ r)
              | _, _ => None
              end
            else None
        | _ => None
        end
      else None
  end.

(** [decodeURIComponent(s)]; [None] is the URIError. *)
Definition decodeURIComponent (s : jsstring) : option jsstring :=
  match tokens s with
  | Some ts => utf8 ts
  | None => None
  end.

End Uri.

Export Uri.

(* ================================================================== *)
(** ** The vault, as the features see it *)
(* ================================================================== *)

Module Vault.

(** A [TFile]: the fields that the source reads.  [parent] is the path
    of the parent folder when there is one. *)
Record TFile : Type := {
  path : jsstring;
  name : jsstring;
  basename : jsstring;
  extension : jsstring;
  parent : option jsstring
}.

(** A [TAbstractFile] is a file with its content or a folder. *)
Inductive entry : Type :=
| File (f : TFile) (content : jsstring)
| Folder (p : jsstring).

Definition entryPath (e : entry) : jsstring :=
  match e with
  | File f _ => path f
  | Folder p => p
  end.

(** The vault lists its entries in the order of [getFiles]. *)
Definition vault : Type := list entry.

(** [vault.getAbstractFileByPath(p)] *)
Definition getAbstractFileByPath (v : vault) (p : jsstring) : option entry :=
  find (fun e => JsString.eqb (entryPath e) p) v.

(** [vault.getFiles()] *)
Fixpoint getFiles (v : vault) : list (TFile * jsstring) :=
  match v with
  | [] => []
  | File f c :: v' => (f, c) :: getFiles v'
  | Folder _ :: v' => getFiles v'
  end.

(** [vault.modify(file, data)]: the content of the file at that path. *)
Fixpoint modify (v : vault) (f : TFile) (data : jsstring) : vault :=
  match v with
  | [] => []
  | File g c :: v' =>
      if JsString.eqb (path g) (path f) then File g data :: v'
      else File g c :: modify v' f data
  | Folder p :: v' => Folder p :: modify v' f data
  end.

End Vault.

Export Vault.

(* ================================================================== *)
(** ** features/upload.ts: the pure part of CustomUploader *)
(* ================================================================== *)

Module Upload.

(** [m[1]] of a match. *)
Definition group1 (h : jsstring * option jsstring) : jsstring :=
  match snd h with Some c => c | None => [] end.

(** [/[.*+?^${}()|[\]\\]/g] *)
Definition syntaxCharacters : list N :=
  js ".*+?^${}()|[]\".

(** [oldPath.replace(/[.*+?^${}()|[\]\\]/g, '\\$&')] *)
Definition escapeRegExp (s : jsstring) : jsstring :=
  replaceAll (One (OneOf syntaxCharacters)) (js "\$&") s.

(** The pattern that [new RegExp] reads in an escaped string: a
    backslash makes the next unit a pattern character, every other unit
    is one. *)
Fixpoint escapedPattern (s : jsstring) : regex :=
  match s with
  | [] => Eps
  | 92%N :: rest =>
      match rest with
      | c :: t => One (Ch c) >> escapedPattern t
      | [] => One (Ch 92%N)
      end
  | c :: t => One (Ch c) >> escapedPattern t
  end.

(** The double quote. *)
Definition dq : N := 34%N.

Definition replaceImageLink (content oldPath newUrl : jsstring) : jsstring :=
  let escapedPath := escapedPattern (escapeRegExp oldPath) in
  let content :=
    replaceAll (Lit (js "![") >> LazyStar Dot >> Lit (js "](") >> escapedPath >> Lit (js ")"))
               (js "![](" ++ newUrl ++ js ")") content in
  let content :=
    replaceAll (Lit (js "<img") >> Plus (NoneOf (js ">")) >> Lit (js "src=" ++ [dq])
                  >> escapedPath >> Lit [dq])
               (js "<img src=" ++ [dq] ++ newUrl ++ [dq]) content in
  let content :=
    replaceAll (Lit (js "![[") >> escapedPath >> Lit (js "]]"))
               (js "![](" ++ newUrl ++ js ")") content in
  content.

Definition isLocalPath (path : jsstring) : bool :=
  if negb (truthy path) then false
  else
    let isHttp := test (Bol >> LitI (js "http") >> Opt (LitI (js "s")) >> LitI (js "://")) path in
    let isProtocolRelative := test (Bol >> Lit (js "//")) path in
    let isData := test (Bol >> Lit (js "data:")) path in
    negb isHttp && negb isProtocolRelative && negb isData.

Definition markdownRegex : regex :=
  Lit (js "![") >> LazyStar Dot >> Lit (js "](") >> Group (Plus (NoneOf (js ")"))) >> Lit (js ")").

Definition htmlRegex : regex :=
  Lit (js "<img") >> Plus (NoneOf (js ">")) >> Lit (js "src=" ++ [dq])
    >> Group (Plus (NoneOf (dq :: js ">"))) >> Lit [dq].

Definition wikiRegex : regex :=
  Lit (js "![[") >> Group (Plus (NoneOf (js "]"))) >> Lit (js "]]").

(** One [while ((m = re.exec(content)) !== null)] loop. *)
Definition addLocal (paths : list jsstring) (h : jsstring * option jsstring) : list jsstring :=
  let p := trim (group1 h) in
  if isLocalPath p then add paths p else paths.

Definition extractLocalImagePaths (content : jsstring) : list jsstring :=
  let paths := [] in
  let paths := fold_left addLocal (matchAll markdownRegex content) paths in
  let paths := fold_left addLocal (matchAll htmlRegex content) paths in
  let paths := fold_left addLocal (matchAll wikiRegex content) paths in
  paths.

(** The chain of replacements shared by [resolveImagePath] and
    [getAlternativePaths]. *)
Definition cleanPathOf (imagePath : jsstring) : jsstring :=
  let normalized := replaceAll (One (Ch 92%N)) (js "/") imagePath in
  trim
    (replaceFirst (Bol >> Lit (js "./")) []
       (replaceAll (Alt (Bol >> Lit (js "[[")) (Lit (js "]]") >> Eol)) []
          (replaceAll (Lit (js "%20")) (js " ") normalized))).

Definition resolveImagePath (imagePath : jsstring) (noteFile : TFile) : jsstring :=
  let cleanPath := cleanPathOf imagePath in
  if startsWith (js "/") cleanPath then substring1 cleanPath
  else
    let noteDir := match parent noteFile with Some p => p | None => [] end in
    if truthy noteDir then noteDir ++ js "/" ++ cleanPath else cleanPath.

(** The candidates pushed for one variant, in the order of the loop
    body. *)
Definition candidatesOf (v : jsstring) (noteFile : TFile) : list jsstring :=
  [resolveImagePath v noteFile]
    ++ (if includes (js "attachments/") v then [removeFirst (js "attachments/") v] else [])
    ++ [v]
    ++ (if negb (startsWith (js "attachments/") v) then [js "attachments/" ++ v] else [])
    ++ (match parent noteFile with
        | Some p => if negb (JsString.eqb p []) then [p ++ js "/" ++ v] else []
        | None => []
        end)
    ++ [js "Attachments/" ++ v]
    ++ (let baseNameOnly := lastSegment 47%N v in
        if truthy baseNameOnly then
          [(match parent noteFile with Some p => p ++ js "/" | None => [] end)
             ++ basename noteFile ++ js "/" ++ baseNameOnly]
        else []).

Definition variantsOf (imagePath : jsstring) : list jsstring :=
  let raw := cleanPathOf imagePath in
  let variants := add [] raw in
  match decodeURIComponent raw with
  | Some d => add variants d
  | None => variants
  end.

Definition getAlternativePaths (imagePath : jsstring) (noteFile : TFile) : list jsstring :=
  let alternatives := flat_map (fun v => candidatesOf v noteFile) (variantsOf imagePath) in
  setOf (filter truthy alternatives).

Definition findFileByBasename (v : vault) (base : jsstring) : option (TFile * jsstring) :=
  let files := getFiles v in
  match find (fun fc => JsString.eqb (name (fst fc)) base) files with
  | Some f => Some f
  | None =>
      match decodeURIComponent base with
      | Some decoded => find (fun fc => JsString.eqb (name (fst fc)) decoded) files
      | None => None
      end
  end.

End Upload.

Export Upload.


(* ================================================================== *)
(** ** Effects: requests, vault writes, notices *)
(* ================================================================== *)

Module Effects.

Definition binary : Type := list N.

Inductive method : Type := GET | POST | DELETE.

(** The [mimeType] that [uploadBinary] is called with: a string, or a
    member that the table of [getImageMimeType] inherits from
    [Object.prototype], named by its key. *)
Inductive mime : Type :=
| MimeString (s : jsstring)
| Inherited (key : jsstring).

Inductive body : Type :=
| NoBody
| Credentials (email password : jsstring)
| FormData (file : binary) (filename : jsstring) (mimeType : mime) (strategy_id : jsstring).

(** A request as [fetch] receives it; [authorization] is the value of the
    Authorization header when the header is set. *)
Record request : Type := {
  r_method : method;
  r_url : jsstring;
  r_authorization : option jsstring;
  r_body : body
}.

Record LskyImageItem : Type := {
  key : jsstring;
  item_name : jsstring;
  origin_name : option jsstring;
  pathname : option jsstring;
  size : option N;
  links_url : jsstring;
  links_thumbnail_url : option jsstring
}.

(** What the client reads in a JSON body: [json?.status] as a truth
    value, [json?.message], [json?.data?.token], [json?.data?.links?.url],
    [json?.data?.data] and [json?.data?.last_page]. *)
Record envelope : Type := {
  e_status : bool;
  e_message : option jsstring;
  e_token : option jsstring;
  e_url : option jsstring;
  e_items : option (list LskyImageItem);
  e_last_page : option N
}.

(** A response: [json] is [None] when [res.json()] rejects, [text] is
    [None] when [res.text()] rejects. *)
Record response : Type := {
  status : N;
  json : option envelope;
  text : option jsstring
}.

(** [res.ok] *)
Definition ok (res : response) : bool :=
  (200 <=? status res)%N && (status res <=? 299)%N.

(** The outcome of [fetch]: a rejection or a response. *)
Inductive reply : Type :=
| Rejected
| Replied (res : response).

Inductive error : Type :=
| Http (st : N) (details : jsstring)     (* 'HTTP ' + status, with details *)
| ServerMessage (msg : jsstring)          (* json.message *)
| NoToken                                 (* 'no token' *)
| UploadFailed                            (* 'upload failed' *)
| InvalidJson                             (* 'Invalid JSON from server' *)
| JsonRejected                            (* res.json() rejected *)
| FetchRejected                           (* fetch rejected *)
| UriError                                (* encodeURIComponent threw *)
| ImageNotFound (absolutePath : jsstring) (* no image file *)
| VaultRejected.                          (* a vault operation rejected *)

Inductive notice : Type :=
| NoActiveNote
| NoLocalImages
| FoundLocalImages (n : nat)
| UploadSucceeded (success total : nat) (file : jsstring)
| UploadFailure (p : jsstring) (e : error)
| UploadFinished (success total : nat)
| InvalidServerUrl
| ScanStarted
| NothingToClean
| CleanupCancelled
| NoRemoteImages
| DownloadFailure (url : jsstring)
| DownloadFinished (n : nat)
| AllDownloadFinished (total : nat).

Inductive progress : Type :=
| POpen
| PSetTotal (n : nat)
| PIncrement (message : jsstring)
| PClose.

Inductive event : Type :=
| Fetch (r : request)
| Sleep (ms : N)
| Show (n : notice)
| Bar (p : progress)
| Modify (f : TFile) (data : jsstring)
| ModifyBinary (f : TFile) (data : binary)
| CreateBinary (p : jsstring) (data : binary)
| CreateFolder (p : jsstring)
| RequestUrl (url : jsstring)
| Confirm (unused : list LskyImageItem) (total : nat)
| CleanupResult (success failed : list jsstring).

Record LskyAuthConfig : Type := {
  serverUrl : jsstring;
  email : jsstring;
  password : jsstring;
  token : option jsstring
}.

(** The state that the operations share: the client's config and flag,
    the vault and the active file, and what has happened so far. *)
Record world : Type := {
  config : LskyAuthConfig;
  isFetchingToken : bool;
  files : vault;
  activeFile : option TFile;
  trace : list event
}.

(** A parsed URL: [protocol], [host] and [pathname]. *)
Record URL : Type := {
  protocol : jsstring;
  host : jsstring;
  url_pathname : jsstring
}.

(** The surroundings: the server behind [fetch] and behind Obsidian's
    [requestUrl], the clock, the user in front of the confirmation
    dialog, each answering from what has happened so far; the URL
    parser of the platform; and the timing of the cleanup: when its scan
    of the notes and its listing of the inventory both fail, whether the
    listing is the first to fail. *)
Record env : Type := {
  net : list event -> reply;
  download : list event -> option binary;
  now : list event -> N;
  confirms : list event -> bool;
  parseUrl : jsstring -> option URL;
  listingFailsFirst : list event -> bool
}.

(** An operation ends with a value, with a thrown error, or does not end
    within the fuel. *)
Inductive outcome (A : Type) : Type :=
| Ok (a : A)
| Throw (e : error)
| Stuck.

Arguments Ok {A} a.
Arguments Throw {A} e.
Arguments Stuck {A}.

Definition M (A : Type) : Type := world -> outcome A * world.

Definition ret {A} (a : A) : M A := fun w => (Ok a, w).

Definition bind {A B} (c : M A) (k : A -> M B) : M B :=
  fun w =>
    match c w with
    | (Ok a, w') => k a w'
    | (Throw e, w') => (Throw e, w')
    | (Stuck, w') => (Stuck, w')
    end.

Definition throw {A} (e : error) : M A := fun w => (Throw e, w).

Definition stuck {A} : M A := fun w => (Stuck, w).

(** [try { c } catch (e) { h e }] *)
Definition tryCatch {A} (c : M A) (h : error -> M A) : M A :=
  fun w =>
    match c w with
    | (Throw e, w') => h e w'
    | r => r
    end.

(** [try { c } finally { f }] where [f] does not throw. *)
Definition tryFinally {A} (c : M A) (f : world -> world) : M A :=
  fun w => let (r, w') := c w in (r, f w').

(** [Promise.all([a, b])], for a computation [a] that leaves no event
    and a computation [b] of the client.  Both are started, and a
    rejection of the one does not stop the other: the requests of [b] go
    on to their end.  The call has both values, or else the error of the
    one that fails; when both fail, it has the error of the one that
    fails first, and [bFirst] tells from what has happened whether that
    is [b]. *)
Definition promiseAll {A B} (bFirst : list event -> bool) (a : M A) (b : M B)
  : M (A * B) :=
  fun w =>
    let (ra, w1) := a w in
    let (rb, w2) := b w1 in
    (match ra, rb with
     | Ok x, Ok y => Ok (x, y)
     | Throw ea, Throw eb => if bFirst (trace w2) then Throw eb else Throw ea
     | Throw ea, _ => Throw ea
     | _, Throw eb => Throw eb
     | _, _ => Stuck
     end, w2).

Definition gets {A} (f : world -> A) : M A := fun w => (Ok (f w), w).

Definition update (f : world -> world) : M unit := fun w => (Ok tt, f w).

Definition record (e : event) (w : world) : world :=
  {| config := config w; isFetchingToken := isFetchingToken w;
     files := files w; activeFile := activeFile w;
     trace := trace w ++ [e] |}.

Definition emit (e : event) : M unit := update (record e).

Definition setFlag (b : bool) (w : world) : world :=
  {| config := config w; isFetchingToken := b;
     files := files w; activeFile := activeFile w; trace := trace w |}.

Definition setToken (t : jsstring) (w : world) : world :=
  {| config := {| serverUrl := serverUrl (config w); email := email (config w);
                  password := password (config w); token := Some t |};
     isFetchingToken := isFetchingToken w;
     files := files w; activeFile := activeFile w; trace := trace w |}.

Definition setFiles (v : vault) (w : world) : world :=
  {| config := config w; isFetchingToken := isFetchingToken w;
     files := v; activeFile := activeFile w; trace := trace w |}.

(** [await new Promise(r => setTimeout(r, ms))] *)
Definition sleep (ms : N) : M unit := emit (Sleep ms).

(** [new Notice(...)] *)
Definition show (n : notice) : M unit := emit (Show n).

Definition truthyOpt (o : option jsstring) : bool :=
  match o with Some s => truthy s | None => false end.

End Effects.

Export Effects.

Declare Scope lsky_scope.
Delimit Scope lsky_scope with lsky.
Notation "x <- c ;; k" := (bind c (fun x => k))
  (at level 62, c at next level, right associativity) : lsky_scope.
Notation "c ;;; k" := (bind c (fun _ => k))
  (at level 62, right associativity) : lsky_scope.
Local Open Scope lsky_scope.

(* ================================================================== *)
(** ** encodeURIComponent and the decimal form of a number *)
(* ================================================================== *)

Module UriEncode.

(** A-Z a-z 0-9 - _ . ! ~ * ' ( ) *)
Definition unreserved (c : N) : bool :=
  ((65 <=? c)%N && (c <=? 90)%N) || ((97 <=? c)%N && (c <=? 122)%N)
  || ((48 <=? c)%N && (c <=? 57)%N)
  || existsb (N.eqb c) (js "-_.!~*'()").

Definition hexChar (d : N) : N :=
  if (d <? 10)%N then (48 + d)%N else (55 + d)%N.

Definition pct (b : N) : jsstring :=
  [37%N; hexChar (b / 16); hexChar (b mod 16)].

Definition utf8Octets (v : N) : list N :=
  if (v <? 128)%N then [v]
  else if (v <? 2048)%N then [(192 + v / 64)%N; (128 + v mod 64)%N]
  else if (v <? 65536)%N then
    [(224 + v / 4096)%N; (128 + (v / 64) mod 64)%N; (128 + v mod 64)%N]
  else
    [(240 + v / 262144)%N; (128 + (v / 4096) mod 64)%N;
     (128 + (v / 64) mod 64)%N; (128 + v mod 64)%N].

Definition isLead (c : N) : bool := (55296 <=? c)%N && (c <=? 56319)%N.
Definition isTrail (c : N) : bool := (56320 <=? c)%N && (c <=? 57343)%N.

Definition escaped (v : N) : jsstring := flat_map pct (utf8Octets v).

(** [encodeURIComponent(s)]; [None] is the URIError of a lone
    surrogate. *)
Fixpoint encodeURIComponent (s : jsstring) : option jsstring :=
  match s with
  | [] => Some []
  | c :: t =>
      if unreserved c then
        match encodeURIComponent t with Some r => Some (c :: r) | None => None end
      else if isLead c then
        match t with
        | d :: t' =>
            if isTrail d then
              match encodeURIComponent t' with
              | Some r => Some (escaped ((c - 55296) * 1024 + (d - 56320) + 65536)%N ++ r)
              | None => None
              end
            else None
        | [] => None
        end
      else if isTrail c then None
      else
        match encodeURIComponent t with
        | Some r => Some (escaped c ++ r)
        | None => None
        end
  end.

Fixpoint digits (d : Decimal.uint) : jsstring :=
  match d with
  | Decimal.Nil => []
  | Decimal.D0 d' => 48%N :: digits d'
  | Decimal.D1 d' => 49%N :: digits d'
  | Decimal.D2 d' => 50%N :: digits d'
  | Decimal.D3 d' => 51%N :: digits d'
  | Decimal.D4 d' => 52%N :: digits d'
  | Decimal.D5 d' => 53%N :: digits d'
  | Decimal.D6 d' => 54%N :: digits d'
  | Decimal.D7 d' => 55%N :: digits d'
  | Decimal.D8 d' => 56%N :: digits d'
  | Decimal.D9 d' => 57%N :: digits d'
  end.

(** A natural number in a template string. *)
Definition decimal (n : N) : jsstring := digits (N.to_uint n).

End UriEncode.

Export UriEncode.

(* ================================================================== *)
(** ** api/lsky.ts: LskyClient *)
(* ================================================================== *)

Module Client.

Record RequestInit : Type := {
  i_method : method;
  i_body : body
}.

(** [this.config.serverUrl.replace(/\/$/, '')] *)
Definition baseUrl (w : world) : jsstring :=
  replaceFirst (Lit (js "/") >> Eol) [] (serverUrl (config w)).

Definition messageOr (j : envelope) (e : error) : error :=
  match e_message j with
  | Some msg => if truthy msg then ServerMessage msg else e
  | None => e
  end.

(** The request of [getToken]: POST {baseUrl}/tokens with the
    credentials. *)
Definition tokenRequest (w : world) : request :=
  {| r_method := POST; r_url := baseUrl w ++ js "/tokens";
     r_authorization := None;
     r_body := Credentials (email (config w)) (password (config w)) |}.

(** The checks of [getToken] on the parsed body. *)
Definition tokenOf (j : envelope) : outcome jsstring :=
  if negb (e_status j) || negb (truthyOpt (e_token j))
  then Throw (messageOr j NoToken)
  else Ok (match e_token j with Some t => t | None => [] end).

Section WithEnv.

Variable E : env.

Definition fetch (r : request) : M response :=
  fun w =>
    let w' := record (Fetch r) w in
    match net E (trace w') with
    | Replied res => (Ok res, w')
    | Rejected => (Throw FetchRejected, w')
    end.

(** [await res.json()] *)
Definition resJson (res : response) : M envelope :=
  match json res with
  | Some j => ret j
  | None => throw JsonRejected
  end.

(** [fetch(`${this.baseUrl}/tokens`, ...)] *)
Definition fetchToken : M response :=
  fun w => fetch (tokenRequest w) w.

(** The body of [getToken] once the flag is seen clear. *)
Definition acquireToken : M jsstring :=
  update (setFlag true) ;;;
  tryFinally
    (res <- fetchToken ;;
     if negb (ok res) then throw (Http (status res) [])
     else
       j <- resJson res ;;
       match tokenOf j with
       | Ok t => update (setToken t) ;;; ret t
       | Throw e => throw e
       | Stuck => stuck
       end)
    (setFlag false).

(** [getToken()]; [polls] bounds the rounds of the wait loop. *)
Fixpoint getToken (polls : nat) : M jsstring :=
  busy <- gets isFetchingToken ;;
  if busy then
    match polls with
    | O => stuck
    | S n => sleep 200 ;;; getToken n
    end
  else acquireToken.

Definition bearer (w : world) : option jsstring :=
  match token (config w) with
  | Some t => if truthy t then Some (js "Bearer " ++ t) else None
  | None => None
  end.

(** [authorizedFetch(input, init, retry401)].  The recursive call passes
    [retry401 = false], so the recursion is two calls deep at most. *)
Fixpoint authorizedFetchRec (depth polls : nat) (input : jsstring) (init : RequestInit)
         (retry401 : bool) : M response :=
  match depth with
  | O => stuck
  | S d =>
      auth <- gets bearer ;;
      res <- fetch {| r_method := i_method init; r_url := input;
                      r_authorization := auth; r_body := i_body init |} ;;
      if (status res =? 401)%N && retry401 then
        getToken polls ;;; authorizedFetchRec d polls input init false
      else ret res
  end.

Definition authorizedFetch (polls : nat) (input : jsstring) (init : RequestInit)
           (retry401 : bool) : M response :=
  authorizedFetchRec 2 polls input init retry401.

Definition uploadBinary (polls : nat) (bin : binary) (filename : jsstring) (mimeType : mime)
           (strategyId : option N) : M jsstring :=
  base <- gets baseUrl ;;
  let strategy := decimal (match strategyId with Some n => n | None => 1%N end) in
  res <- authorizedFetch polls (base ++ js "/upload")
           {| i_method := POST; i_body := FormData bin filename mimeType strategy |} true ;;
  if negb (ok res) then
    let details := match text res with Some t => t | None => [] end in
    throw (Http (status res) details)
  else
    match json res with
    | None => throw InvalidJson
    | Some j =>
        if negb (e_status j) || negb (truthyOpt (e_url j))
        then throw (messageOr j UploadFailed)
        else ret (match e_url j with Some u => u | None => [] end)
    end.

(** The do-while loop of [listAllImages]; [fuel] bounds the number of
    further turns. *)
Fixpoint listPages (fuel polls : nat) (page last : N) (result : list LskyImageItem)
  : M (list LskyImageItem) :=
  base <- gets baseUrl ;;
  res <- authorizedFetch polls (base ++ js "/images?page=" ++ decimal page)
           {| i_method := GET; i_body := NoBody |} true ;;
  if negb (ok res) then throw (Http (status res) [])
  else
    j <- resJson res ;;
    let items := match e_items j with Some l => l | None => [] end in
    let result := result ++ items in
    let last := match e_last_page j with
                | Some l => if (l =? 0)%N then page else l
                | None => page
                end in
    let page := (page + 1)%N in
    sleep 80 ;;;
    if (page <=? last)%N then
      match fuel with
      | O => stuck
      | S n => listPages n polls page last result
      end
    else ret result.

Definition listAllImages (fuel polls : nat) : M (list LskyImageItem) :=
  listPages fuel polls 1%N 1%N [].

Definition deleteImageByKey (polls : nat) (k : jsstring) : M unit :=
  base <- gets baseUrl ;;
  match encodeURIComponent k with
  | None => throw UriError
  | Some ek =>
      res <- authorizedFetch polls (base ++ js "/images/" ++ ek)
               {| i_method := DELETE; i_body := NoBody |} true ;;
      if negb (ok res) then throw (Http (status res) []) else ret tt
  end.

End WithEnv.

(** [getServerOrigin(serverUrl)]: [new URL] throws when the string does
    not parse. *)
Definition getServerOrigin (E : env) (serverUrl : jsstring) : option jsstring :=
  match parseUrl E serverUrl with
  | Some u => Some (protocol u ++ js "//" ++ host u)
  | None => None
  end.

End Client.

Export Client.

(* ================================================================== *)
(** ** The vault operations *)
(* ================================================================== *)

Module VaultOps.

(** What precedes the last [sep], nothing when there is none. *)
Fixpoint beforeLast (sep : N) (s : jsstring) : jsstring :=
  match s with
  | [] => []
  | c :: s' => if existsb (N.eqb sep) s' then c :: beforeLast sep s' else []
  end.

(** The [TFile] that the vault makes for a new path. *)
Definition fileAt (p : jsstring) : TFile :=
  let nm := lastSegment 47%N p in
  let hasDot := existsb (N.eqb 46%N) nm in
  {| path := p;
     name := nm;
     basename := if hasDot then beforeLast 46%N nm else nm;
     extension := if hasDot then lastSegment 46%N nm else [];
     parent := Some (if existsb (N.eqb 47%N) p then beforeLast 47%N p else js "/") |}.

(** [vault.getMarkdownFiles()] *)
Definition getMarkdownFiles (v : vault) : list TFile :=
  List.map fst (filter (fun fc => JsString.eqb (extension (fst fc)) (js "md")) (getFiles v)).

Definition contentOf (v : vault) (f : TFile) : option jsstring :=
  match getAbstractFileByPath v (path f) with
  | Some (File _ c) => Some c
  | _ => None
  end.

(** [await vault.read(f)] and [await vault.readBinary(f)] *)
Definition read (f : TFile) : M jsstring :=
  fun w =>
    match contentOf (files w) f with
    | Some c => (Ok c, w)
    | None => (Throw VaultRejected, w)
    end.

(** [await vault.modify(f, data)] *)
Definition modifyFile (f : TFile) (data : jsstring) : M unit :=
  fun w => (Ok tt, record (Modify f data) (setFiles (modify (files w) f data) w)).

(** [await vault.modifyBinary(f, data)] *)
Definition modifyBinary (f : TFile) (data : binary) : M unit :=
  fun w => (Ok tt, record (ModifyBinary f data) (setFiles (modify (files w) f data) w)).

(** [await vault.createBinary(p, data)]: rejects when the path is taken. *)
Definition createBinary (p : jsstring) (data : binary) : M unit :=
  fun w =>
    match getAbstractFileByPath (files w) p with
    | Some _ => (Throw VaultRejected, w)
    | None => (Ok tt, record (CreateBinary p data)
                        (setFiles (files w ++ [File (fileAt p) data]) w))
    end.

(** [await vault.createFolder(p)] *)
Definition createFolder (p : jsstring) : M unit :=
  fun w =>
    match getAbstractFileByPath (files w) p with
    | Some _ => (Throw VaultRejected, w)
    | None => (Ok tt, record (CreateFolder p) (setFiles (files w ++ [Folder p]) w))
    end.

End VaultOps.

Export VaultOps.

(* ================================================================== *)
(** ** features/upload.ts: the uploads *)
(* ================================================================== *)

Module Uploader.

(** [(originalName.split('.').pop() || 'bin')] *)
Definition extOf (originalName : jsstring) : jsstring :=
  let e := lastSegment 46%N originalName in
  if truthy e then e else js "bin".

(** [generateTimestampFilename(originalName, noteFile)] at the time
    [timestamp] of [Date.now()]. *)
Definition generateTimestampFilename (timestamp : N) (originalName : jsstring)
           (noteFile : option TFile) : jsstring :=
  let baseName := match noteFile with Some f => basename f | None => js "file" end in
  baseName ++ js "-" ++ decimal timestamp ++ js "." ++ extOf originalName.

Definition mimeTable : list (jsstring * jsstring) :=
  [ (js "jpg", js "image/jpeg"); (js "jpeg", js "image/jpeg"); (js "png", js "image/png");
    (js "gif", js "image/gif"); (js "webp", js "image/webp"); (js "bmp", js "image/bmp");
    (js "svg", js "image/svg+xml"); (js "ico", js "image/x-icon"); (js "jfif", js "image/jpeg") ].

(** The names of [Object.prototype] that are in lower case. *)
Definition inheritedKeys : list jsstring := [js "constructor"; js "__proto__"].

(** [getImageMimeType(extension)].  The table is an object literal, so
    a key that is not its own is looked up on [Object.prototype]; what
    is found there is truthy and is returned as it is. *)
Definition getImageMimeType (ext : jsstring) : mime :=
  let k := List.map lowerAscii ext in
  match find (fun kv => JsString.eqb (fst kv) k) mimeTable with
  | Some kv => MimeString (snd kv)
  | None =>
      if mem k inheritedKeys then Inherited k
      else MimeString (js "application/octet-stream")
  end.

(** The [file] variable of [uploadLocalImage] before the final check:
    the primary path, then the alternatives in order, then the search by
    basename. *)
Definition locate (v : vault) (decoded : jsstring) (noteFile : TFile) : option entry :=
  let absolutePath := resolveImagePath decoded noteFile in
  match getAbstractFileByPath v absolutePath with
  | Some file => Some file
  | None =>
      match find (fun alt => match getAbstractFileByPath v alt with Some _ => true | None => false end)
                 (getAlternativePaths decoded noteFile) with
      | Some alt => getAbstractFileByPath v alt
      | None =>
          let seg := lastSegment 47%N (replaceAll (One (Ch 92%N)) (js "/") decoded) in
          let base := replaceAll (Alt (Bol >> Lit (js "[[")) (Lit (js "]]") >> Eol)) [] seg in
          match findFileByBasename v base with
          | Some (f, c) => Some (File f c)
          | None => None
          end
      end
  end.

Definition decodedOf (imagePath : jsstring) : jsstring :=
  match decodeURIComponent imagePath with
  | Some d => d
  | None => imagePath
  end.

(** The label of a failed item in the progress bar. *)
Definition failedLabel : jsstring := [22833%N; 36133%N].

Section WithEnv.

Variable E : env.

Definition uploadLocalImage (polls : nat) (imagePath : jsstring) (noteFile : TFile)
  : M jsstring :=
  let decoded := decodedOf imagePath in
  let absolutePath := resolveImagePath decoded noteFile in
  v <- gets files ;;
  match locate v decoded noteFile with
  | Some (File file _) =>
      bin <- read file ;;
      timestamp <- gets (fun w => now E (trace w)) ;;
      let safeName :=
        generateTimestampFilename timestamp
          (replaceAll (Plus (NoneOfWord (js "-."))) (js "_") (name file)) (Some noteFile) in
      uploadBinary E polls bin safeName (getImageMimeType (extension file)) None
  | _ => throw (ImageNotFound absolutePath)
  end.

(** The body of the [for (const p of localPaths)] loop, on the pair of
    [success] and [updated]. *)
Definition uploadStep (polls total : nat) (noteFile : TFile) (p : jsstring)
           (acc : nat * jsstring) : M (nat * jsstring) :=
  tryCatch
    (url <- uploadLocalImage polls p noteFile ;;
     let updated := replaceImageLink (snd acc) p url in
     let success := S (fst acc) in
     show (UploadSucceeded success total (lastSegment 47%N p)) ;;;
     emit (Bar (PIncrement (lastSegment 47%N p))) ;;;
     ret (success, updated))
    (fun e =>
       show (UploadFailure p e) ;;;
       emit (Bar (PIncrement failedLabel)) ;;;
       ret acc).

Fixpoint uploadLoop (polls total : nat) (noteFile : TFile) (ps : list jsstring)
         (acc : nat * jsstring) : M (nat * jsstring) :=
  match ps with
  | [] => ret acc
  | p :: ps' =>
      acc' <- uploadStep polls total noteFile p acc ;;
      uploadLoop polls total noteFile ps' acc'
  end.

Definition uploadAllLocalImages (polls : nat) : M unit :=
  af <- gets activeFile ;;
  match af with
  | None => show NoActiveNote
  | Some activeFile =>
      content <- read activeFile ;;
      let localPaths := extractLocalImagePaths content in
      match localPaths with
      | [] => show NoLocalImages
      | _ :: _ =>
          let total := List.length localPaths in
          show (FoundLocalImages total) ;;;
          emit (Bar POpen) ;;;
          emit (Bar (PSetTotal total)) ;;;
          acc <- uploadLoop polls total activeFile localPaths (0, content) ;;
          emit (Bar PClose) ;;;
          (if 0 <? fst acc then modifyFile activeFile (snd acc) else ret tt) ;;;
          show (UploadFinished (fst acc) total)
      end
  end.

End WithEnv.

End Uploader.

Export Uploader.

(* ================================================================== *)
(** ** features/download.ts *)
(* ================================================================== *)

Module Download.

(** [https?:\/\/] *)
Definition httpPrefix : regex :=
  Lit (js "http") >> Opt (Lit (js "s")) >> Lit (js "://").

Definition remoteMarkdown : regex :=
  Lit (js "![") >> LazyStar Dot >> Lit (js "](")
    >> Group (httpPrefix >> Plus (NoneOfSpace (js ")"))) >> Lit (js ")").

Definition remoteHtml : regex :=
  Lit (js "<img") >> Plus (NoneOf (js ">")) >> Lit (js "src=" ++ [dq])
    >> Group (httpPrefix >> Plus (NoneOf (dq :: js ">"))) >> Lit [dq].

Definition remoteWiki : regex :=
  Lit (js "![[") >> Group (httpPrefix >> Plus (NoneOf (js "]"))) >> Lit (js "]]").

(** [/!\[.*?\]\(|\)|<img[^>]+src="|"|!\[\[|\]\]/g] *)
Definition wrapping : regex :=
  Alt (Lit (js "![") >> LazyStar Dot >> Lit (js "]("))
   (Alt (Lit (js ")"))
    (Alt (Lit (js "<img") >> Plus (NoneOf (js ">")) >> Lit (js "src=" ++ [dq]))
     (Alt (Lit [dq])
      (Alt (Lit (js "![[")) (Lit (js "]]")))))).

(** The callback of the [forEach]. *)
Definition addRemote (origin : jsstring) (set : list jsstring) (s : jsstring) : list jsstring :=
  let url := replaceAll wrapping [] s in
  if truthy url && startsWith origin url then add set url else set.

(** The matched texts of the three patterns, [md] then [html] then
    [wiki]. *)
Definition remoteMatches (content : jsstring) : list jsstring :=
  let md := List.map fst (matchAll remoteMarkdown content) in
  let html := List.map fst (matchAll remoteHtml content) in
  let wiki := List.map fst (matchAll remoteWiki content) in
  md ++ html ++ wiki.

Definition extractRemoteImageUrls (content origin : jsstring) : list jsstring :=
  fold_left (addRemote origin) (remoteMatches content) [].

Definition replaceUrlWithRelative (content url fileName : jsstring) : jsstring :=
  let escaped := escapedPattern (escapeRegExp url) in
  let embed := js "![[" ++ fileName ++ js "]]" in
  let content :=
    replaceAll (Lit (js "![") >> LazyStar Dot >> Lit (js "](") >> escaped >> Lit (js ")"))
               embed content in
  let content :=
    replaceAll (Lit (js "<img") >> Plus (NoneOf (js ">")) >> Lit (js "src=" ++ [dq])
                  >> escaped >> Lit [dq] >> Star (NoneOf (js ">")) >> Lit (js ">"))
               embed content in
  let content :=
    replaceAll (Lit (js "![[") >> escaped >> Lit (js "]]")) embed content in
  content.

(** The folder of a note's images: [parent.path + '/' + basename]. *)
Definition folderOf (f : TFile) : jsstring :=
  (match parent f with Some p => p ++ js "/" | None => [] end) ++ basename f.

Section WithEnv.

Variable E : env.

Definition fileNameFromUrl (url : jsstring) : jsstring :=
  match parseUrl E url with
  | None => js "image"
  | Some u =>
      let seg := lastSegment 47%N (url_pathname u) in
      let nm := if truthy seg then seg else js "image" in
      match decodeURIComponent nm with
      | Some d => d
      | None => js "image"
      end
  end.

Definition ensureFolder (p : jsstring) : M unit :=
  v <- gets files ;;
  match getAbstractFileByPath v p with
  | Some _ => ret tt
  | None => createFolder p
  end.

(** [requestUrl({url, method: 'GET'})] and its [arrayBuffer]. *)
Definition downloadToBinary (url : jsstring) : M binary :=
  fun w =>
    let w' := record (RequestUrl url) w in
    match download E (trace w') with
    | Some bin => (Ok bin, w')
    | None => (Throw FetchRejected, w')
    end.

(** What both loops do for one URL inside the [try]: fetch, write,
    rewrite. *)
Definition saveOne (folder url : jsstring) (content : jsstring) : M (jsstring * jsstring) :=
  bin <- downloadToBinary url ;;
  let nm := fileNameFromUrl url in
  let target := folder ++ js "/" ++ nm in
  v <- gets files ;;
  match getAbstractFileByPath v target with
  | Some (File f _) => modifyBinary f bin
  | _ => createBinary target bin
  end ;;;
  ret (replaceUrlWithRelative content url nm, nm).

Fixpoint currentLoop (folder : jsstring) (urls : list jsstring) (updated : jsstring)
  : M jsstring :=
  match urls with
  | [] => ret updated
  | url :: urls' =>
      updated' <-
        tryCatch
          (r <- saveOne folder url updated ;;
           emit (Bar (PIncrement (snd r))) ;;;
           ret (fst r))
          (fun _ =>
             show (DownloadFailure url) ;;;
             emit (Bar (PIncrement failedLabel)) ;;;
             ret updated) ;;
      currentLoop folder urls' updated'
  end.

Definition downloadImagesForCurrentNote (serverUrl : jsstring) : M unit :=
  match getServerOrigin E serverUrl with
  | None => show InvalidServerUrl
  | Some origin =>
      af <- gets activeFile ;;
      match af with
      | None => show NoActiveNote
      | Some file =>
          content <- read file ;;
          let urls := extractRemoteImageUrls content origin in
          match urls with
          | [] => show NoRemoteImages
          | _ :: _ =>
              let folder := folderOf file in
              ensureFolder folder ;;;
              emit (Bar POpen) ;;;
              emit (Bar (PSetTotal (List.length urls))) ;;;
              updated <- currentLoop folder urls content ;;
              emit (Bar PClose) ;;;
              modifyFile file updated ;;;
              show (DownloadFinished (List.length urls))
          end
      end
  end.

Fixpoint allLoop (folder : jsstring) (urls : list jsstring) (acc : jsstring * nat)
  : M (jsstring * nat) :=
  match urls with
  | [] => ret acc
  | url :: urls' =>
      acc' <-
        tryCatch
          (r <- saveOne folder url (fst acc) ;;
           ret (fst r, S (snd acc)))
          (fun _ => ret acc) ;;
      allLoop folder urls' acc'
  end.

Fixpoint notesLoop (origin : jsstring) (fs : list TFile) (total : nat) : M nat :=
  match fs with
  | [] => ret total
  | f :: fs' =>
      content <- read f ;;
      let urls := extractRemoteImageUrls content origin in
      match urls with
      | [] => notesLoop origin fs' total
      | _ :: _ =>
          let folder := folderOf f in
          ensureFolder folder ;;;
          acc <- allLoop folder urls (content, total) ;;
          modifyFile f (fst acc) ;;;
          emit (Bar (PIncrement (basename f))) ;;;
          notesLoop origin fs' (snd acc)
      end
  end.

Definition downloadImagesForAllNotes (serverUrl : jsstring) : M unit :=
  match getServerOrigin E serverUrl with
  | None => show InvalidServerUrl
  | Some origin =>
      fs <- gets (fun w => getMarkdownFiles (files w)) ;;
      emit (Bar POpen) ;;;
      emit (Bar (PSetTotal (List.length fs))) ;;;
      total <- notesLoop origin fs 0 ;;
      emit (Bar PClose) ;;;
      show (AllDownloadFinished total)
  end.

End WithEnv.

End Download.

Export Download.

(* ================================================================== *)
(** ** features/cleanup.ts *)
(* ================================================================== *)

Module Cleanup.

(** The loop of [collectUsedImageUrls] over the markdown files. *)
Fixpoint collectLoop (serverOrigin : jsstring) (fs : list TFile) (set : list jsstring)
  : M (list jsstring) :=
  match fs with
  | [] => ret set
  | f :: fs' =>
      content <- read f ;;
      collectLoop serverOrigin fs'
        (fold_left (addRemote serverOrigin) (remoteMatches content) set)
  end.

Definition collectUsedImageUrls (serverOrigin : jsstring) : M (list jsstring) :=
  fs <- gets (fun w => getMarkdownFiles (files w)) ;;
  collectLoop serverOrigin fs [].

(** [all.filter(img => !used.includes(img.links.url))] *)
Definition unusedOf (used : list jsstring) (all : list LskyImageItem) : list LskyImageItem :=
  filter (fun img => negb (mem (links_url img) used)) all.

Section WithEnv.

Variable E : env.

(** The confirmation dialog and the user's answer. *)
Definition confirmCleanup (unused : list LskyImageItem) (total : nat) : M bool :=
  emit (Confirm unused total) ;;;
  gets (fun w => confirms E (trace w)).

Definition showCleanupResult (success failed : list jsstring) : M unit :=
  emit (CleanupResult success failed).

(** The deletion loop, on the pair of [success] and [failed]. *)
Fixpoint deleteLoop (polls : nat) (toDelete : list LskyImageItem)
         (acc : list jsstring * list jsstring) : M (list jsstring * list jsstring) :=
  match toDelete with
  | [] => ret acc
  | img :: rest =>
      acc' <-
        tryCatch
          (deleteImageByKey E polls (key img) ;;;
           ret (fst acc ++ [links_url img], snd acc))
          (fun _ => ret (fst acc, snd acc ++ [links_url img])) ;;
      emit (Bar (PIncrement (if truthy (item_name img) then item_name img
                             else links_url img))) ;;;
      sleep 150 ;;;
      deleteLoop polls rest acc'
  end.

(** [cleanupUnusedImages(app, client, serverUrl)] *)
Definition cleanupUnusedImages (fuel polls : nat) (serverUrl : jsstring) : M unit :=
  match getServerOrigin E serverUrl with
  | None => show InvalidServerUrl
  | Some origin =>
      show ScanStarted ;;;
      both <- promiseAll (listingFailsFirst E)
                         (collectUsedImageUrls origin) (listAllImages E fuel polls) ;;
      let used := fst both in
      let all := snd both in
      let toDelete := unusedOf used all in
      match toDelete with
      | [] => show NothingToClean
      | _ :: _ =>
          confirmed <- confirmCleanup toDelete (List.length all) ;;
          if negb confirmed then show CleanupCancelled
          else
            emit (Bar POpen) ;;;
            emit (Bar (PSetTotal (List.length toDelete))) ;;;
            acc <- deleteLoop polls toDelete ([], []) ;;
            emit (Bar PClose) ;;;
            showCleanupResult (fst acc) (snd acc)
      end
  end.

End WithEnv.

End Cleanup.

Export Cleanup.

(* ================================================================== *)
(** ** Concurrent calls of getToken *)
(* ================================================================== *)

Module TokenRace.

(** Where a call of [getToken] is suspended: at the timer of the wait
    loop, at the [fetch], at [res.json()]; or it has settled. *)
Inductive task : Type :=
| Polling
| Fetching
| Parsing (res : response)
| Done (r : outcome jsstring).

(** What resumes a suspended call: the timer or the parsed body, or the
    outcome of the [fetch]. *)
Inductive input : Type :=
| Wake
| Answer (r : reply).

(** A call of [getToken] from its entry to its first suspension. *)
Definition enter (w : world) : task * world :=
  if isFetchingToken w then (Polling, record (Sleep 200) w)
  else (Fetching, record (Fetch (tokenRequest w)) (setFlag true w)).

(** A suspended call from its resumption to its next suspension; the
    [finally] clears the flag on every way out of the [try]. *)
Definition resume (t : task) (i : input) (w : world) : option (task * world) :=
  match t, i with
  | Polling, Wake => Some (enter w)
  | Fetching, Answer Rejected => Some (Done (Throw FetchRejected), setFlag false w)
  | Fetching, Answer (Replied res) =>
      if negb (ok res) then Some (Done (Throw (Http (status res) [])), setFlag false w)
      else Some (Parsing res, w)
  | Parsing res, Wake =>
      match json res with
      | None => Some (Done (Throw JsonRejected), setFlag false w)
      | Some j =>
          match tokenOf j with
          | Ok t => Some (Done (Ok t), setFlag false (setToken t w))
          | Throw e => Some (Done (Throw e), setFlag false w)
          | Stuck => None
          end
      end
  | _, _ => None
  end.

(** The event loop: the client's state and the calls of [getToken]. *)
Record system : Type := {
  client : world;
  tasks : list task
}.

Fixpoint replace (n : nat) (t : task) (l : list task) : list task :=
  match l, n with
  | [], _ => []
  | _ :: l', O => t :: l'
  | x :: l', S n' => x :: replace n' t l'
  end.

(** One turn of the event loop: call [n] is resumed with [i]. *)
Definition step (s : system) (e : nat * input) : option system :=
  match nth_error (tasks s) (fst e) with
  | Some t =>
      match resume t (snd e) (client s) with
      | Some (t', w') => Some {| client := w'; tasks := replace (fst e) t' (tasks s) |}
      | None => None
      end
  | None => None
  end.

Fixpoint run (s : system) (es : list (nat * input)) : option system :=
  match es with
  | [] => Some s
  | e :: es' =>
      match step s e with
      | Some s' => run s' es'
      | None => None
      end
  end.

(** One more call of [getToken]. *)
Definition call (s : system) : system :=
  let (t, w) := enter (client s) in
  {| client := w; tasks := tasks s ++ [t] |}.

Fixpoint calls (n : nat) (s : system) : system :=
  match n with
  | O => s
  | S n' => calls n' (call s)
  end.

Definition idle (w : world) : system := {| client := w; tasks := [] |}.

(** [s.endsWith(p)] *)
Definition endsWith (p s : jsstring) : bool :=
  startsWith (rev p) (rev s).

(** An authentication request: a POST to a URL that ends in /tokens. *)
Definition isTokenPost (e : event) : bool :=
  match e with
  | Fetch r =>
      match r_method r with
      | POST => endsWith (js "/tokens") (r_url r)
      | _ => false
      end
  | _ => false
  end.

(** The authentication requests that have reached the network. *)
Definition posts (s : system) : nat :=
  List.length (filter isTokenPost (trace (client s))).

Definition inFlight (t : task) : bool :=
  match t with
  | Fetching | Parsing _ => true
  | _ => false
  end.

Definition settled (t : task) : bool :=
  match t with
  | Done _ => true
  | _ => false
  end.

Definition started (t : task) : bool :=
  match t with
  | Polling => false
  | _ => true
  end.

End TokenRace.

Export TokenRace.

(* ================================================================== *)
(** ** main.ts: the plugin and its client *)
(* ================================================================== *)

Module Plugin.







End Plugin.

Export Plugin.

(* ================================================================== *)
(** ** The statements of the specification *)
(* ================================================================== *)

Module Spec.

(** [p] starts with [prefix], letters compared without case. *)
Definition startsWithNoCase (prefix p : jsstring) : bool :=
  startsWith prefix (List.map lowerAscii (firstn (List.length prefix) p)).

(** A raw path is local when it does not start with http:// or https://
    (in any case), is not protocol-relative and is not a data: URI. *)
Definition isLocal (p : jsstring) : bool :=
  negb (startsWithNoCase (js "http://") p)
  && negb (startsWithNoCase (js "https://") p)
  && negb (startsWith (js "//") p)
  && negb (startsWith (js "data:") p).

(** [p] starts with [prefix] under the /i flag. *)
Fixpoint startsWithFold (p s : jsstring) : bool :=
  match p, s with
  | [], _ => true
  | x :: p', y :: s' => N.eqb (canonicalize x) (canonicalize y) && startsWithFold p' s'
  | _ :: _, [] => false
  end.

(** The request that [authorizedFetch] sends for [input] and [init]. *)
Definition requestOf (init : RequestInit) (input : jsstring) (auth : option jsstring)
  : request :=
  {| r_method := i_method init; r_url := input;
     r_authorization := auth; r_body := i_body init |}.

(** What [getToken] makes of the outcome of its [fetch]. *)
Definition tokenOutcome (rep : reply) : outcome jsstring :=
  match rep with
  | Rejected => Throw FetchRejected
  | Replied res =>
      if negb (ok res) then Throw (Http (status res) [])
      else match json res with
           | None => Throw JsonRejected
           | Some j => tokenOf j
           end
  end.

(** What a caller of [fetch] gets for a reply. *)
Definition fetched (rep : reply) : outcome response :=
  match rep with
  | Rejected => Throw FetchRejected
  | Replied res => Ok res
  end.

(** How many times a request with the URL [input] was sent. *)
Definition issued (input : jsstring) (tr : list event) : nat :=
  List.length
    (filter (fun e => match e with
                      | Fetch r => JsString.eqb (r_url r) input
                      | _ => false
                      end) tr).

(** How many authentication requests were sent. *)
Definition refreshes (tr : list event) : nat :=
  List.length (filter isTokenPost tr).

(** The request of [listAllImages] for page [k]. *)
Definition pageRequest (w : world) (k : N) : request :=
  requestOf {| i_method := GET; i_body := NoBody |}
            (baseUrl w ++ js "/images?page=" ++ decimal k) (bearer w).

(** The pages 1 to [n]. *)
Definition pagesUpTo (n : nat) : list N := List.map N.of_nat (seq 1 n).

(** The server lists [n] pages: whatever happened before, the request
    for a page [k] from 1 to [n] is answered with a success status and a
    body that holds the items of the page and [n] as the last page. *)
Definition servesPages (E : env) (w : world) (n : nat) (items : N -> list LskyImageItem)
  : Prop :=
  forall (tr : list event) (k : nat),
    1 <= k <= n ->
    exists res j,
      net E (tr ++ [Fetch (pageRequest w (N.of_nat k))]) = Replied res /\
      ok res = true /\
      json res = Some j /\
      e_items j = Some (items (N.of_nat k)) /\
      e_last_page j = Some (N.of_nat n).

(** The world after the events [es]. *)
Definition records (es : list event) (w : world) : world :=
  fold_left (fun w e => record e w) es w.

(** [c] only adds events that satisfy [P] to the trace and leaves the
    vault and the active file as they are. *)
Definition Emits {A} (P : event -> Prop) (c : M A) : Prop :=
  forall (w : world) (r : outcome A) (w' : world),
    c w = (r, w') ->
    files w' = files w /\
    activeFile w' = activeFile w /\
    exists evs, trace w' = trace w ++ evs /\ Forall P evs.

(** Started with no token acquisition under way, [c] comes to an end and
    leaves none under way. *)
Definition Settles {A} (c : M A) : Prop :=
  forall (w : world),
    isFetchingToken w = false ->
    fst (c w) <> Stuck /\ isFetchingToken (snd (c w)) = false.

Definition isDelete (e : event) : bool :=
  match e with
  | Fetch r => match r_method r with DELETE => true | _ => false end
  | _ => false
  end.

(** The deletion requests of a trace. *)
Definition deletions (tr : list event) : list event := filter isDelete tr.

Definition isWrite (e : event) : bool :=
  match e with
  | Modify _ _ | ModifyBinary _ _ | CreateBinary _ _ | CreateFolder _ => true
  | _ => false
  end.

(** The vault writes of a trace. *)
Definition writes (tr : list event) : list event := filter isWrite tr.

(** An event of the client or of the user interface: anything but a
    vault write. *)
Definition quiet (e : event) : Prop := isWrite e = false.

(** A quiet event that is not a deletion request either. *)
Definition harmless (e : event) : Prop := isWrite e = false /\ isDelete e = false.

(** The operation [c] stops on the notice of an invalid server address:
    it returns with that notice as its only event. *)
Definition stopsOnInvalidServer (c : M unit) (w : world) : Prop :=
  exists w',
    c w = (Ok tt, w') /\
    trace w' = trace w ++ [Show InvalidServerUrl] /\
    files w' = files w /\
    config w' = config w /\
    isFetchingToken w' = isFetchingToken w.

(** How many of the calls satisfy [p]. *)
Definition countIf (p : task -> bool) (l : list task) : nat :=
  List.length (filter p l).

Definition flagCount (w : world) : nat := if isFetchingToken w then 1 else 0.

(** What every turn of the event loop keeps: the flag is set exactly
    while one call is between its request and its outcome, and every
    call that has left the wait loop has sent one authentication request;
    [base] counts the requests sent before the calls. *)
Definition serialized (base : nat) (s : system) : Prop :=
  countIf inFlight (tasks s) = flagCount (client s) /\
  posts s = base + countIf started (tasks s).

(** The prefix of the attachments folder. *)
Definition attachmentsPrefix : jsstring := js "attachments/".

(** The seven candidates of a variant [v], as the specification lists
    them: the primary resolution, [v] without its attachments/ prefix if
    it has one, [v] itself, [v] with the prefix added if it has none, [v]
    in the folder of the document, [v] under Attachments/, and the final
    segment of [v] in the folder named after the document. *)
Definition listedCandidates (noteFile : TFile) (v : jsstring) : list jsstring :=
  let folder := match parent noteFile with Some d => d | None => [] end in
  [resolveImagePath v noteFile]
    ++ (if startsWith attachmentsPrefix v
        then [skipn (List.length attachmentsPrefix) v] else [])
    ++ [v]
    ++ (if startsWith attachmentsPrefix v then [] else [attachmentsPrefix ++ v])
    ++ [folder ++ js "/" ++ v]
    ++ [js "Attachments/" ++ v]
    ++ [folder ++ js "/" ++ basename noteFile ++ js "/" ++ lastSegment 47%N v].

(** The list of the specification for a raw path, read with empty
    strings and repeated candidates dropped. *)
Definition listedAlternatives (imagePath : jsstring) (noteFile : TFile) : list jsstring :=
  setOf (filter truthy (flat_map (listedCandidates noteFile) (variantsOf imagePath))).

(** [s] without the first occurrence of [mark], when [mark] occurs in
    it. *)
Fixpoint cutFirst (mark s : jsstring) : option jsstring :=
  if startsWith mark s then Some (skipn (List.length mark) s)
  else match s with
       | [] => None
       | c :: s' => option_map (cons c) (cutFirst mark s')
       end.

(** The folder of a document: the path of its parent, empty at the root
    of the store. *)
Definition documentFolder (noteFile : TFile) : jsstring :=
  match parent noteFile with Some d => d | None => [] end.

(** The primary resolution of a path: the normalized path without its
    leading slash when it has one, and else joined to the folder of the
    document. *)
Definition primary (imagePath : jsstring) (noteFile : TFile) : jsstring :=
  let clean := cleanPathOf imagePath in
  let joined := match documentFolder noteFile with
                | [] => clean
                | d => d ++ js "/" ++ clean
                end in
  match clean with
  | c :: rest => if (c =? 47)%N then rest else joined
  | [] => joined
  end.

(** The variants of a path: the normalized path, then its
    percent-decoded form when it decodes to something else. *)
Definition variants (imagePath : jsstring) : list jsstring :=
  let raw := cleanPathOf imagePath in
  raw :: match decodeURIComponent raw with
         | Some d => if JsString.eqb d raw then [] else [d]
         | None => []
         end.

(** The candidates of a variant [v], in order: its primary resolution;
    [v] without the first attachments/ that it holds; [v]; [v] under
    attachments/ unless it begins so; [v] in the folder of the document
    unless the document is at the root; [v] under Attachments/; the
    final segment of [v] in the folder named after the document, unless
    the segment is empty. *)
Definition candidates (noteFile : TFile) (v : jsstring) : list jsstring :=
  let d := documentFolder noteFile in
  [primary v noteFile]
    ++ match cutFirst attachmentsPrefix v with Some x => [x] | None => [] end
    ++ [v]
    ++ (if startsWith attachmentsPrefix v then [] else [attachmentsPrefix ++ v])
    ++ match d with [] => [] | _ => [d ++ js "/" ++ v] end
    ++ [js "Attachments/" ++ v]
    ++ match lastSegment 47%N v with
       | [] => []
       | seg =>
           [match parent noteFile with Some _ => d ++ js "/" | None => [] end
              ++ basename noteFile ++ js "/" ++ seg]
       end.

(** A list without the entries that repeat an earlier one. *)
Fixpoint firstOccurrences (l : list jsstring) : list jsstring :=
  match l with
  | [] => []
  | x :: l' => x :: filter (fun y => negb (JsString.eqb y x)) (firstOccurrences l')
  end.

(** The alternatives of a path: the candidates of its variants, empty
    strings and repetitions dropped. *)
Definition alternatives (imagePath : jsstring) (noteFile : TFile) : list jsstring :=
  firstOccurrences (filter truthy (flat_map (candidates noteFile) (variants imagePath))).

(** The final segment that the search by basename looks for. *)
Definition searchedName (decoded : jsstring) : jsstring :=
  replaceAll (Alt (Bol >> Lit (js "[[")) (Lit (js "]]") >> Eol)) []
    (lastSegment 47%N (replaceAll (One (Ch 92%N)) (js "/") decoded)).

(** The paths that the resolution tries, the primary one first. *)
Definition triedPaths (decoded : jsstring) (noteFile : TFile) : list jsstring :=
  resolveImagePath decoded noteFile :: getAlternativePaths decoded noteFile.

(** The paths that the resolution tries: the primary resolution, then
    the alternatives. *)
Definition tried (decoded : jsstring) (noteFile : TFile) : list jsstring :=
  primary decoded noteFile :: alternatives decoded noteFile.

(** No file of the store is named [seg], as written or
    percent-decoded. *)
Definition noFileNamed (v : vault) (seg : jsstring) : Prop :=
  forall f c, In (f, c) (getFiles v) ->
    name f <> seg /\ decodeURIComponent seg <> Some (name f).

(** The resolution reports that the image was not found: the first
    tried path that names something names a folder, or no tried path
    names anything and no file of the whole store has the name of the
    final segment. *)
Definition notFound (v : vault) (decoded : jsstring) (noteFile : TFile) : Prop :=
  (exists pre c post q,
      tried decoded noteFile = pre ++ c :: post /\
      (forall x, In x pre -> getAbstractFileByPath v x = None) /\
      getAbstractFileByPath v c = Some (Folder q))
  \/ ((forall c, In c (tried decoded noteFile) -> getAbstractFileByPath v c = None) /\
      noFileNamed v (searchedName decoded)).

(** [c] throws only errors that satisfy [P]. *)
Definition Raises {A} (P : error -> Prop) (c : M A) : Prop :=
  forall (w : world) (e : error) (w' : world), c w = (Throw e, w') -> P e.

(** An error other than that of an image that was not found. *)
Definition otherError (e : error) : Prop :=
  match e with ImageNotFound _ => False | _ => True end.

Definition isFolder (o : option entry) : bool :=
  match o with
  | Some (Folder _) => true
  | _ => false
  end.

(** The file that the resolution ends on, if any. *)
Definition resolvedFile (v : vault) (decoded : jsstring) (noteFile : TFile) : option TFile :=
  match locate v decoded noteFile with
  | Some (File f _) => Some f
  | _ => None
  end.

(** A line of a document: a reference in one of the three forms, or
    prose. *)
Inductive item : Type :=
| Markdown (alt path : jsstring)
| Html (path : jsstring)
| Wiki (path : jsstring)
| Prose (t : jsstring).

(** [![alt](path)], [<img src="path">], [![[path]]]. *)
Definition render (x : item) : jsstring :=
  match x with
  | Markdown a p => js "![" ++ a ++ js "](" ++ p ++ js ")"
  | Html p => js "<img src=" ++ [dq] ++ p ++ [dq] ++ js ">"
  | Wiki p => js "![[" ++ p ++ js "]]"
  | Prose t => t
  end.

(** The characters that delimit references, and the two that matter in
    a replacement and in a path: the brackets, the exclamation mark, the
    double quote, the dollar sign and the backslash. *)
Definition special : list N := js "![]()<>" ++ [dq; 36%N; 92%N].

(** A character of an alternative text or of prose. *)
Definition altChar (c : N) : bool :=
  negb (existsb (N.eqb c) special) && negb (isLineTerminator c).

(** A character of a path or URL. *)
Definition pathChar (c : N) : bool :=
  negb (existsb (N.eqb c) special) && negb (isSpace c).

Definition wellFormedPath (p : jsstring) : bool := truthy p && forallb pathChar p.

(** A text in which no reference begins: it holds neither ![ nor
    <img. *)
Definition markFree (t : jsstring) : bool :=
  negb (includes (js "![") t) && negb (includes (js "<img") t).

(** A line is well formed when it is a reference whose alternative
    text holds no special character and no line terminator and whose
    path is not empty and holds no special character and no white
    space, or when it is any text in which no reference begins. *)
Definition wellFormed (x : item) : bool :=
  match x with
  | Markdown a p => forallb altChar a && wellFormedPath p
  | Html p | Wiki p => wellFormedPath p
  | Prose t => markFree t
  end.

(** The text of a document, one item on each line. *)
Definition document (xs : list item) : jsstring :=
  flat_map (fun x => render x ++ [10%N]) xs.

Definition markdownPath (x : item) : list jsstring :=
  match x with Markdown _ p => [p] | _ => [] end.

Definition htmlPath (x : item) : list jsstring :=
  match x with Html p => [p] | _ => [] end.

Definition wikiPath (x : item) : list jsstring :=
  match x with Wiki p => [p] | _ => [] end.


(** The raw paths by form: markdown, then HTML, then wiki. *)
Definition rawPathsByForm (xs : list item) : list jsstring :=
  flat_map markdownPath xs ++ flat_map htmlPath xs ++ flat_map wikiPath xs.

(** A character that can begin a reference: ! or <. *)
Definition opener (c : N) : bool := (c =? 33)%N || (c =? 60)%N.

(** A regex whose matches begin on an opener and are never empty at the
    end of the input. *)
Definition startsOnOpener (r : regex) : Prop :=
  (forall i c s, opener c = false -> matchAt r i (c :: s) = None) /\
  (forall i, matchAt r i [] = None).

(** A regex whose matches begin with ![ or with <img. *)
Definition startsOnMark (r : regex) : Prop :=
  forall i s,
    startsWith (js "![") s = false -> startsWith (js "<img") s = false ->
    matchAt r i s = None.

(** No reference begins within [a] when [rest] follows it. *)
Fixpoint still (a rest : jsstring) : bool :=
  match a with
  | [] => true
  | _ :: a' =>
      negb (startsWith (js "![") (a ++ rest))
      && negb (startsWith (js "<img") (a ++ rest))
      && still a' rest
  end.





(** The three shapes that the patterns of the source share: what comes
    before the path in a markdown image, in a wiki embed and in an img
    tag; [r] is the pattern of the path and of what follows it. *)
Definition mdShape (r : regex) : regex :=
  Lit (js "![") >> LazyStar Dot >> Lit (js "](") >> r.

Definition wikiShape (r : regex) : regex :=
  Lit (js "![[") >> r.

Definition htmlShape (r : regex) : regex :=
  Lit (js "<img") >> Plus (NoneOf (js ">")) >> Lit (js "src=" ++ [dq]) >> r.

(** What [matchAt] makes of the result of the matcher. *)
Definition matched (i : nat) (o : option result) : option result :=
  match o with
  | Some (e, cp) => Some (e - i, cp)
  | None => None
  end.

(** The match of a shape at the start of a line, from what the pattern
    of the path makes of the path: [res p] is the number of characters
    that it takes, closing delimiter included, and its capture. *)
Definition hitMd (res : jsstring -> option (nat * option jsstring)) (x : item)
  : option (nat * option jsstring) :=
  match x with
  | Markdown a p =>
      match res p with
      | Some (n, cp) => Some (List.length a + 4 + n, cp)
      | None => None
      end
  | _ => None
  end.

Definition hitWk (res : jsstring -> option (nat * option jsstring)) (x : item)
  : option (nat * option jsstring) :=
  match x with
  | Wiki p =>
      match res p with
      | Some (n, cp) => Some (3 + n, cp)
      | None => None
      end
  | _ => None
  end.

Definition hitHt (res : jsstring -> option (nat * option jsstring)) (x : item)
  : option (nat * option jsstring) :=
  match x with
  | Html p =>
      match res p with
      | Some (n, cp) => Some (10 + n, cp)
      | None => None
      end
  | _ => None
  end.

(** What the pattern of the path makes of a path that [closer] follows. *)
Definition decides (r : regex) (closer : jsstring)
           (res : jsstring -> option (nat * option jsstring)) : Prop :=
  forall (p : jsstring) (j : nat) (s : jsstring),
    wellFormedPath p = true ->
    m r accept j (p ++ closer ++ s) None =
    match res p with
    | Some (n, cp) => Some (j + n, cp)
    | None => None
    end.







(** [p] starts with [l] and goes on after it. *)
Fixpoint longer (l p : jsstring) : bool :=
  match l, p with
  | [], _ :: _ => true
  | x :: l', c :: p' => N.eqb x c && longer l' p'
  | _, _ => false
  end.

(** A path that the patterns of the download take for a URL: http://
    or https://, in lower case, and at least one more character. *)
Definition remoteUrl (p : jsstring) : bool :=
  longer (js "http://") p || longer (js "https://") p.

(** What the pattern of a URL makes of a path that a closing delimiter
    of [n] characters follows. *)
Definition remote (n : nat) (p : jsstring) : option (nat * option jsstring) :=
  if remoteUrl p then Some (List.length p + n, Some p) else None.

(** The text that the patterns of the download match in a reference:
    all of it, but for the end of the img tag. *)
Definition matchedText (x : item) : jsstring :=
  match x with
  | Html p => js "<img src=" ++ [dq] ++ p ++ [dq]
  | _ => render x
  end.

(** The references of a document to remote images, by form, as the
    texts that the patterns match. *)
Definition remoteBy (form : item -> list jsstring) (x : item) : list jsstring :=
  match form x with
  | [p] => if remoteUrl p then [matchedText x] else []
  | _ => []
  end.

(** The URLs that the download looks for: remote, and of the server. *)
Definition served (origin p : jsstring) : bool :=
  remoteUrl p && startsWith origin p.

(** Kinds of events: a write of a note, a download, a request to the
    image server, a step of the progress bar. *)
Definition isNoteWrite (e : event) : bool :=
  match e with Modify _ _ => true | _ => false end.

Definition isDownload (e : event) : bool :=
  match e with RequestUrl _ => true | _ => false end.

Definition isFetch (e : event) : bool :=
  match e with Fetch _ => true | _ => false end.

Definition isStep (e : event) : bool :=
  match e with Bar (PIncrement _) => true | _ => false end.

(** The URLs that were saved, among the attempts of a download. *)
Definition saved (rs : list (jsstring * bool)) : list jsstring :=
  List.map fst (filter snd rs).

(** The text with the saved URLs replaced by embeds of the file names,
    one after the other. *)
Definition relinked (E : env) (content : jsstring) (done : list jsstring) : jsstring :=
  fold_left (fun t url => replaceUrlWithRelative t url (fileNameFromUrl E url)) done content.

(** The deletion request for the encoded key [ek], [base] being the
    address of the server. *)
Definition deletionRequest (base ek : jsstring) (auth : option jsstring) : request :=
  {| r_method := DELETE; r_url := base ++ js "/images/" ++ ek;
     r_authorization := auth; r_body := NoBody |}.

(** What [deleteImageByKey] makes of the reply to its request. *)
Definition deleted (rep : reply) : outcome unit :=
  match rep with
  | Rejected => Throw FetchRejected
  | Replied res => if ok res then Ok tt else Throw (Http (status res) [])
  end.

(** A turn of the deletion loop: the image, whether its deletion
    succeeded, and the requests that were sent for it. *)
Definition turn : Type := (LskyImageItem * bool * list event)%type.

(** The label of an image in the progress bar: [img.name || img.links.url]. *)
Definition labelOf (img : LskyImageItem) : jsstring :=
  if truthy (item_name img) then item_name img else links_url img.

(** What a turn adds to the trace: its requests, a step of the progress
    bar and the wait of 150 ms. *)
Definition turnEvents (t : turn) : list event :=
  snd t ++ [Bar (PIncrement (labelOf (fst (fst t)))); Sleep 150].

(** The URLs of the images that were deleted, and of those that were
    not, in the order of the turns. *)
Definition removed (ts : list turn) : list jsstring :=
  List.map (fun t => links_url (fst (fst t))) (filter (fun t => snd (fst t)) ts).

Definition spared (ts : list turn) : list jsstring :=
  List.map (fun t => links_url (fst (fst t))) (filter (fun t => negb (snd (fst t))) ts).

(** What a deletion may send: DELETE requests, and the POST requests
    and the waits of a refreshed token. *)
Definition removal (e : event) : Prop :=
  match e with
  | Fetch r => r_method r = DELETE \/ r_method r = POST
  | Sleep _ => True
  | _ => False
  end.

(** What a turn of the deletion loop has done, [before] being the
    trace at its start and [base] the address of the server.  For a key
    that cannot be encoded nothing is sent and the deletion fails.
    Otherwise the first request of the turn is the deletion request for
    the key, and the deletion succeeds exactly when the last request of
    the turn is that deletion request and its answer has a success
    status. *)
Definition turnDone (E : env) (base : jsstring) (before : list event) (t : turn) : Prop :=
  let img := fst (fst t) in
  let success := snd (fst t) in
  let evs := snd t in
  match encodeURIComponent (key img) with
  | None => evs = [] /\ success = false
  | Some ek =>
      (exists auth rest, evs = Fetch (deletionRequest base ek auth) :: rest) /\
      Forall removal evs /\
      (success = true <->
       exists pre auth res,
         evs = pre ++ [Fetch (deletionRequest base ek auth)] /\
         net E (before ++ evs) = Replied res /\ ok res = true)
  end.

(** The turns of a loop that starts after [before]. *)
Fixpoint turnsDone (E : env) (base : jsstring) (before : list event) (ts : list turn)
  : Prop :=
  match ts with
  | [] => True
  | t :: ts' => turnDone E base before t /\ turnsDone E base (before ++ turnEvents t) ts'
  end.

(** A line with two markdown images, [sep] between them. *)
Definition twoOnALine (a p sep b u : jsstring) : jsstring :=
  render (Markdown a p) ++ sep ++ render (Markdown b u) ++ [10%N].

End Spec.


(* ================================================================== *)
(** ** A sample installation *)
(* ================================================================== *)

Module Samples.

Definition address : jsstring := js "https://lsky.example.com/api/v1".

Definition origin : jsstring := js "https://lsky.example.com".

Definition item (k : jsstring) : LskyImageItem :=
  {| key := k; item_name := k ++ js ".png"; origin_name := None; pathname := None;
     size := None; links_url := origin ++ js "/i/" ++ k ++ js ".png";
     links_thumbnail_url := None |}.

Definition itemA : LskyImageItem := item (js "A").
Definition itemB : LskyImageItem := item (js "B").
Definition itemC : LskyImageItem := item (js "C").

Definition blank : envelope :=
  {| e_status := true; e_message := None; e_token := None; e_url := None;
     e_items := None; e_last_page := None |}.

Definition bare (st : N) : reply :=
  Replied {| status := st; json := None; text := None |}.

Definition success (j : envelope) : reply :=
  Replied {| status := 200; json := Some j; text := None |}.

(** The inventory, one item on each of three pages. *)
Definition pageItems (k : N) : list LskyImageItem :=
  if (k =? 1)%N then [itemA]
  else if (k =? 2)%N then [itemB]
  else if (k =? 3)%N then [itemC]
  else [].

Definition page (k : N) : reply :=
  success {| e_status := true; e_message := None; e_token := None; e_url := None;
             e_items := Some (pageItems k); e_last_page := Some 3%N |}.

Definition listing (url : jsstring) : reply :=
  if JsString.eqb url (address ++ js "/images?page=1") then page 1
  else if JsString.eqb url (address ++ js "/images?page=2") then page 2
  else if JsString.eqb url (address ++ js "/images?page=3") then page 3
  else bare 404.

(** The server: it knows the token "new", hands it out when [grant] is
    set and answers 500 to the credentials otherwise; it answers 401 to
    any other request that does not carry the token. *)
Definition respond (grant : bool) (r : request) : reply :=
  if isTokenPost (Fetch r) then
    if grant then
      success {| e_status := true; e_message := None; e_token := Some (js "new");
                 e_url := None; e_items := None; e_last_page := None |}
    else bare 500
  else
    match r_authorization r with
    | Some a =>
        if JsString.eqb a (js "Bearer new") then
          match r_method r with
          | GET => listing (r_url r)
          | POST =>
              success {| e_status := true; e_message := None; e_token := None;
                         e_url := Some (origin ++ js "/i/D.png");
                         e_items := None; e_last_page := None |}
          | DELETE => bare 204
          end
        else bare 401
    | None => bare 401
    end.

Definition server (grant : bool) (tr : list event) : reply :=
  match last tr (Sleep 0) with
  | Fetch r => respond grant r
  | _ => Rejected
  end.

(** The URL parser, on the address of the sample. *)
Definition parse (s : jsstring) : option URL :=
  if JsString.eqb s address then
    Some {| protocol := js "https:"; host := js "lsky.example.com";
            url_pathname := js "/api/v1" |}
  else None.

(** The surroundings: the server, a clock, and a user who declines. *)
Definition surroundings (grant : bool) : env :=
  {| net := server grant;
     download := fun _ => None;
     now := fun _ => 1700000000000%N;
     confirms := fun _ => false;
     parseUrl := parse;
     listingFailsFirst := fun _ => false |}.

Definition note : TFile :=
  {| path := js "notes/Trip.md"; name := js "Trip.md"; basename := js "Trip";
     extension := js "md"; parent := Some (js "notes") |}.

Definition photo : TFile :=
  {| path := js "notes/img/a.png"; name := js "a.png"; basename := js "a";
     extension := js "png"; parent := Some (js "notes/img") |}.

(** A note with a local image that exists, one that does not, and a
    link to item B of the inventory, on three lines. *)
Definition noteText : jsstring :=
  js "![a](img/a.png)" ++ [10%N] ++ js "![[img/gone.png]]" ++ [10%N]
    ++ js "![b](https://lsky.example.com/i/B.png)".

Definition vault0 : vault :=
  [Folder (js "notes"); Folder (js "notes/img"); File note noteText;
   File photo [137%N; 80%N; 78%N; 71%N]].

Definition installed (t : option jsstring) : world :=
  {| config := {| serverUrl := address; email := js "me@example.com";
                  password := js "secret"; token := t |};
     isFetchingToken := false;
     files := vault0;
     activeFile := Some note;
     trace := [] |}.

(** A client with a stale token and one with the current token. *)
Definition stale : world := installed (Some (js "old")).
Definition fresh : world := installed (Some (js "new")).

Definition getPage : RequestInit := {| i_method := GET; i_body := NoBody |}.

(** The answer of the server to the credentials. *)
Definition granted : reply :=
  success {| e_status := true; e_message := None; e_token := Some (js "new");
             e_url := None; e_items := None; e_last_page := None |}.

(** Surroundings whose server hands out the token "new" and answers
    401 to every other request, with the token or without. *)
Definition deaf : env :=
  {| net := fun tr => match last tr (Sleep 0) with
                      | Fetch r => if isTokenPost (Fetch r) then granted else bare 401
                      | _ => Rejected
                      end;
     download := fun _ => None;
     now := fun _ => 1700000000000%N;
     confirms := fun _ => false;
     parseUrl := parse;
     listingFailsFirst := fun _ => false |}.

(** The same server, whose refusal of a listing comes before a note
    fails to be read. *)
Definition hasty : env :=
  {| net := net deaf;
     download := fun _ => None;
     now := fun _ => 1700000000000%N;
     confirms := fun _ => false;
     parseUrl := parse;
     listingFailsFirst := fun _ => true |}.

(** Two calls of [getToken]: the first is answered; the second wakes
    while the first still parses, and waits again; the first settles;
    the second wakes again, sends its own request and settles. *)
Definition schedule : list (nat * input) :=
  [(0, Answer granted); (1, Wake); (0, Wake); (1, Wake); (1, Answer granted); (1, Wake)].



(** Surroundings with a user who confirms and images that download. *)
Definition eager : env :=
  {| net := server true;
     download := fun _ => Some [137%N; 80%N; 78%N; 71%N];
     now := fun _ => 1700000000000%N;
     confirms := fun _ => true;
     parseUrl := parse;
     listingFailsFirst := fun _ => false |}.

(** A server that answers every request with one item and no last
    page. *)
Definition lonely : env :=
  {| net := fun _ => success {| e_status := true; e_message := None; e_token := None;
                               e_url := None; e_items := Some [itemA];
                               e_last_page := None |};
     download := fun _ => None;
     now := fun _ => 1700000000000%N;
     confirms := fun _ => false;
     parseUrl := parse;
     listingFailsFirst := fun _ => false |}.

(** An installation whose only note holds no image. *)
Definition emptyHanded : world :=
  {| config := {| serverUrl := address; email := js "me@example.com";
                  password := js "secret"; token := Some (js "new") |};
     isFetchingToken := false;
     files := [Folder (js "notes"); File note (js "Nothing here.")];
     activeFile := Some note;
     trace := [] |}.

(** An installation in which a folder has taken the path of the note,
    so that the note cannot be read. *)
Definition shadowed : world :=
  {| config := {| serverUrl := address; email := js "me@example.com";
                  password := js "secret"; token := Some (js "new") |};
     isFetchingToken := false;
     files := [Folder (js "notes/Trip.md"); File note noteText];
     activeFile := Some note;
     trace := [] |}.

(** A note with two images on one line, both in the vault beside the
    note. *)
Definition pairNote : TFile :=
  {| path := js "notes/Pair.md"; name := js "Pair.md"; basename := js "Pair";
     extension := js "md"; parent := Some (js "notes") |}.

Definition pairText : jsstring := js "![a](x.png) ![b](y.png)".

Definition beside (nm : string) : TFile :=
  {| path := js "notes/" ++ js nm ++ js ".png"; name := js nm ++ js ".png";
     basename := js nm; extension := js "png"; parent := Some (js "notes") |}.

Definition pairWorld : world :=
  {| config := {| serverUrl := address; email := js "me@example.com";
                  password := js "secret"; token := Some (js "new") |};
     isFetchingToken := false;
     files := [Folder (js "notes"); File pairNote pairText;
               File (beside "x") [1%N]; File (beside "y") [2%N]];
     activeFile := Some pairNote;
     trace := [] |}.

Definition isUpload (e : event) : bool :=
  match e with
  | Fetch r => match r_body r with FormData _ _ _ _ => true | _ => false end
  | _ => false
  end.

(** The URL that the server gives to its [k]th upload. *)
Definition numbered (k : nat) : jsstring :=
  origin ++ js "/i/U" ++ decimal (N.of_nat k) ++ js ".png".

(** Surroundings whose server accepts every upload and answers with a
    URL of its own for each. *)
Definition numbering : env :=
  {| net := fun tr =>
              success {| e_status := true; e_message := None; e_token := None;
                         e_url := Some (numbered (List.length (filter isUpload tr)));
                         e_items := None; e_last_page := None |};
     download := fun _ => None;
     now := fun _ => 1700000000000%N;
     confirms := fun _ => false;
     parseUrl := parse;
     listingFailsFirst := fun _ => false |}.

(** The upload request for the content [bin] of an image of that note. *)
Definition uploadOf (bin : binary) : request :=
  {| r_method := POST; r_url := address ++ js "/upload";
     r_authorization := Some (js "Bearer new");
     r_body := FormData bin (js "Pair-1700000000000.png") (MimeString (js "image/png"))
                        (js "1") |}.

(** A name with a space, a slash, a letter outside ASCII and a
    surrogate pair. *)
Definition caption : jsstring :=
  js "a b/" ++ [252%N; 55357%N; 56832%N] ++ js ".png".


End Samples.
(* ================================================================== *)
(** * Properties *)
(* ================================================================== *)

(** ** Strings *)

Lemma jseqb_refl (a : jsstring) : JsString.eqb a a = true.
Proof.
  induction a as [|x a IH]; simpl; [reflexivity|].
  now rewrite N.eqb_refl, IH.
Qed.

Lemma jseqb_eq (a b : jsstring) : JsString.eqb a b = true <-> a = b.
Proof.
  split.
  - revert b; induction a as [|x a IH]; intros [|y b]; simpl; try discriminate; auto.
    intros H. apply andb_true_iff in H as [H1 H2].
    apply N.eqb_eq in H1. apply IH in H2. now subst.
  - intros ->. apply jseqb_refl.
Qed.

Lemma jseqb_neq (a b : jsstring) : JsString.eqb a b = false <-> a <> b.
Proof.
  split.
  - intros H E. apply jseqb_eq in E. congruence.
  - intros H. destruct (JsString.eqb a b) eqn:E; [|reflexivity].
    apply jseqb_eq in E. contradiction.
Qed.

Lemma startsWith_app (p s : jsstring) : startsWith p (p ++ s) = true.
Proof.
  induction p as [|x p IH]; simpl; [reflexivity|].
  now rewrite N.eqb_refl, IH.
Qed.

Lemma startsWith_split (p s : jsstring) :
  startsWith p s = true <-> exists t, s = p ++ t.
Proof.
  split.
  - revert s; induction p as [|x p IH]; intros s H.
    + now exists s.
    + destruct s as [|y s]; simpl in H; [discriminate|].
      apply andb_true_iff in H as [H1 H2].
      apply N.eqb_eq in H1. apply IH in H2 as [t ->]. subst. now exists t.
  - intros [t ->]. apply startsWith_app.
Qed.

(** ** The matcher *)

Section MatcherFacts.

Variable k : cont.

(** A literal is matched by comparing the input with it. *)
Lemma m_Lit (l : jsstring) (i : nat) (s : jsstring) (cp : option jsstring) :
  m (Lit l) k i s cp =
  if startsWith l s then k (i + List.length l) (skipn (List.length l) s) cp else None.
Proof.
  revert i s; induction l as [|x l IH]; intros i s; simpl.
  - now rewrite Nat.add_0_r.
  - destruct s as [|c s]; [reflexivity|].
    destruct (N.eqb x c); simpl; [|reflexivity].
    rewrite IH. now rewrite Nat.add_succ_r.
Qed.

Lemma m_Seq (a b : regex) (i : nat) (s : jsstring) (cp : option jsstring) :
  m (a >> b) k i s cp = m a (m b k) i s cp.
Proof. reflexivity. Qed.

(** No match of [^...] begins after the start of the input. *)
Lemma m_Bol_later (r : regex) (i : nat) (s : jsstring) (cp : option jsstring) :
  m (Bol >> r) k (S i) s cp = None.
Proof. reflexivity. Qed.

End MatcherFacts.

Lemma search_Bol_later (r : regex) (i : nat) (s : jsstring) :
  search (Bol >> r) (S i) s = None.
Proof.
  revert i; induction s as [|c s IH]; intros i; simpl; unfold matchAt; simpl;
    [reflexivity|apply IH].
Qed.

(** An anchored pattern is tested at the start of the input only. *)
Lemma test_Bol (r : regex) (s : jsstring) :
  test (Bol >> r) s =
  match m r accept 0 s None with Some _ => true | None => false end.
Proof.
  unfold test. destruct s as [|c s]; simpl; unfold matchAt; simpl.
  - destruct (m r accept 0 [] None) as [[e cp]|]; reflexivity.
  - destruct (m r accept 0 (c :: s) None) as [[e cp]|]; [reflexivity|].
    now rewrite search_Bol_later.
Qed.

Lemma test_Bol_Lit (l s : jsstring) :
  test (Bol >> Lit l) s = startsWith l s.
Proof.
  rewrite test_Bol, m_Lit. destruct (startsWith l s); reflexivity.
Qed.

(** ** Sets of strings *)

Lemma mem_In (x : jsstring) (l : list jsstring) : mem x l = true <-> In x l.
Proof.
  unfold mem. rewrite existsb_exists. split.
  - intros (y & Hy & Hxy). apply jseqb_eq in Hxy. now subst.
  - intros H. exists x. split; [exact H|apply jseqb_refl].
Qed.

Lemma add_In (l : list jsstring) (x y : jsstring) :
  In y (add l x) <-> In y l \/ y = x.
Proof.
  unfold add. destruct (mem x l) eqn:M.
  - apply mem_In in M. split; [auto|]. intros [H| ->]; auto.
  - rewrite in_app_iff. simpl. intuition.
Qed.

Lemma add_NoDup (l : list jsstring) (x : jsstring) : NoDup l -> NoDup (add l x).
Proof.
  intros H. unfold add. destruct (mem x l) eqn:M; [exact H|].
  apply NoDup_app; [exact H|constructor; [intros []|constructor]|].
  intros y Hy [<-|[]]. apply mem_In in Hy. congruence.
Qed.

Lemma addAll_In (xs l : list jsstring) (y : jsstring) :
  In y (addAll l xs) <-> In y l \/ In y xs.
Proof.
  unfold addAll. revert l; induction xs as [|x xs IH]; intros l; simpl.
  - intuition.
  - rewrite IH, add_In. intuition.
Qed.

Lemma addAll_NoDup (xs l : list jsstring) : NoDup l -> NoDup (addAll l xs).
Proof.
  unfold addAll. revert l; induction xs as [|x xs IH]; intros l H; simpl; [exact H|].
  apply IH, add_NoDup, H.
Qed.

(** A set made from a list has the members of the list, once each. *)
Lemma setOf_In (xs : list jsstring) (y : jsstring) : In y (setOf xs) <-> In y xs.
Proof. unfold setOf. rewrite addAll_In. simpl. intuition. Qed.

Lemma setOf_NoDup (xs : list jsstring) : NoDup (setOf xs).
Proof. apply addAll_NoDup. constructor. Qed.
(** ** C9: which raw paths are local *)

(** Under /i an ASCII letter of the pattern matches its two cases, and a
    colon or a slash matches itself. *)
Lemma fold_is_lower (x c : N) :
  In x (js "htps:/") ->
  N.eqb (canonicalize x) (canonicalize c) = N.eqb x (lowerAscii c).
Proof.
  intros H. simpl in H.
  destruct H as [<-|[<-|[<-|[<-|[<-|[<-|[]]]]]]];
    match goal with
    | |- context [N.eqb (canonicalize ?n) _] =>
        let t := eval vm_compute in (canonicalize n) in
        change (canonicalize n) with t
    end;
    unfold canonicalize, lowerAscii;
    destruct (N.leb_spec 97 c); destruct (N.leb_spec c 122);
    destruct (N.leb_spec 65 c); destruct (N.leb_spec c 90); cbn [andb];
    match goal with
    | |- N.eqb ?a ?b = N.eqb ?u ?v =>
        destruct (N.eqb_spec a b); destruct (N.eqb_spec u v); try reflexivity; lia
    end.
Qed.

Lemma m_LitI (k : cont) (l : jsstring) (i : nat) (s : jsstring) (cp : option jsstring) :
  m (LitI l) k i s cp =
  if Spec.startsWithFold l s then k (i + List.length l) (skipn (List.length l) s) cp else None.
Proof.
  revert i s; induction l as [|x l IH]; intros i s; simpl.
  - now rewrite Nat.add_0_r.
  - destruct s as [|c s]; [reflexivity|].
    destruct (N.eqb (canonicalize x) (canonicalize c)); simpl; [|reflexivity].
    rewrite IH. now rewrite Nat.add_succ_r.
Qed.

Lemma startsWithFold_lower (l s : jsstring) :
  Forall (fun x => In x (js "htps:/")) l ->
  Spec.startsWithFold l s = Spec.startsWithNoCase l s.
Proof.
  unfold Spec.startsWithNoCase.
  intros H; revert s; induction H as [|x l Hx Hl IH]; intros s; [reflexivity|].
  destruct s as [|c s]; simpl; [reflexivity|].
  now rewrite fold_is_lower, IH.
Qed.

(** Source literals are evaluated to their code units. *)
Ltac eval_js :=
  repeat match goal with
         | |- context [js ?s] =>
             let t := eval vm_compute in (js s) in change (js s) with t
         end.

Lemma isHttp_spec (p : jsstring) :
  test (Bol >> LitI (js "http") >> Opt (LitI (js "s")) >> LitI (js "://")) p =
  Spec.startsWithNoCase (js "http://") p || Spec.startsWithNoCase (js "https://") p.
Proof.
  rewrite test_Bol.
  rewrite <- (startsWithFold_lower (js "http://") p),
          <- (startsWithFold_lower (js "https://") p)
    by (apply Forall_forall; intros x Hx; vm_compute in Hx; vm_compute; tauto).
  rewrite m_Seq, m_LitI. unfold Opt. cbn [m]. rewrite !m_LitI.
  eval_js.
  do 8 (try destruct p as [|? p]);
    cbn [Spec.startsWithFold skipn List.length Nat.add andb orb accept];
    repeat match goal with
           | |- context [N.eqb (canonicalize ?a) (canonicalize ?b)] =>
               destruct (N.eqb (canonicalize a) (canonicalize b));
               cbn [Spec.startsWithFold skipn List.length Nat.add andb orb accept]
           end; reflexivity.
Qed.

(** C9, as the code has it: a raw path is local exactly when it is not
    empty and starts with none of http://, https:// (in any case), // and
    data:. *)
Theorem isLocalPath_iff_nonempty_local (p : jsstring) :
  isLocalPath p = truthy p && Spec.isLocal p.
Proof.
  unfold isLocalPath, Spec.isLocal.
  destruct p as [|c p]; [reflexivity|].
  cbn [truthy negb andb].
  now rewrite isHttp_spec, !test_Bol_Lit, negb_orb.
Qed.

(** C9 as stated fails at the empty path: it starts with none of the
    prefixes, and the code does not take it for local. *)
Lemma isLocalPath_empty_not_local :
  ~ (forall p : jsstring, isLocalPath p = true <-> Spec.isLocal p = true).
Proof.
  intros H. specialize (H []). destruct H as [_ H].
  specialize (H eq_refl). discriminate H.
Qed.
(** ** C4: one refresh and one retry on 401 *)

Lemma getToken_idle (E : env) (polls : nat) (w : world) :
  isFetchingToken w = false -> getToken E polls w = acquireToken E w.
Proof.
  intros H. destruct polls; unfold getToken, bind, gets; now rewrite H.
Qed.

Lemma tokenOutcome_not_stuck (rep : reply) : Spec.tokenOutcome rep <> Stuck.
Proof.
  destruct rep as [|res]; simpl; [discriminate|].
  destruct (negb (ok res)); [discriminate|].
  destruct (json res) as [j|]; [|discriminate].
  unfold tokenOf. destruct (negb (e_status j) || negb (truthyOpt (e_token j))); discriminate.
Qed.

Lemma tokenOf_truthy (j : envelope) (t : jsstring) :
  tokenOf j = Ok t -> truthy t = true.
Proof.
  unfold tokenOf.
  destruct (e_status j); simpl; [|discriminate].
  destruct (e_token j) as [t'|]; simpl; [|discriminate].
  destruct (truthy t') eqn:T; simpl; [|discriminate].
  now intros [= <-].
Qed.

Lemma tokenOutcome_truthy (rep : reply) (t : jsstring) :
  Spec.tokenOutcome rep = Ok t -> truthy t = true.
Proof.
  destruct rep as [|res]; simpl; [discriminate|].
  destruct (negb (ok res)); [discriminate|].
  destruct (json res) as [j|]; [|discriminate].
  apply tokenOf_truthy.
Qed.

(** The acquisition sends one request and leaves the flag clear. *)
Lemma acquireToken_eq (E : env) (w : world) :
  acquireToken E w =
  let w1 := record (Fetch (tokenRequest w)) (setFlag true w) in
  match Spec.tokenOutcome (net E (trace w ++ [Fetch (tokenRequest w)])) with
  | Ok t => (Ok t, setFlag false (setToken t w1))
  | Throw e => (Throw e, setFlag false w1)
  | Stuck => (Stuck, setFlag false w1)
  end.
Proof.
  unfold acquireToken, fetchToken, bind, update, tryFinally, gets, fetch, resJson, throw,
    ret, stuck.
  cbn [trace record setFlag]. change (tokenRequest (setFlag true w)) with (tokenRequest w).
  destruct (net E (trace w ++ [Fetch (tokenRequest w)])) as [|res]; simpl; [reflexivity|].
  destruct (negb (ok res)); simpl; [reflexivity|].
  destruct (json res) as [j|]; simpl; [|reflexivity].
  destruct (tokenOf j); reflexivity.
Qed.

Lemma app_assoc2 {A} (l : list A) (a b : A) : (l ++ [a]) ++ [b] = l ++ [a; b].
Proof. now rewrite <- app_assoc. Qed.

Lemma app_assoc3 {A} (l : list A) (a b c : A) : ((l ++ [a]) ++ [b]) ++ [c] = l ++ [a; b; c].
Proof. now rewrite <- !app_assoc. Qed.

(** A call with retry allowed and no acquisition under way, case by
    case on what the server answers. *)
Lemma authorizedFetch_run (E : env) (polls : nat) (input : jsstring)
      (init : RequestInit) (w : world) :
  isFetchingToken w = false ->
  exists (r : outcome response) (w' : world),
    authorizedFetch E polls input init true w = (r, w') /\
    (files w' = files w /\ isFetchingToken w' = false /\
     serverUrl (config w') = serverUrl (config w)) /\
    let first := Fetch (Spec.requestOf init input (bearer w)) in
    let refresh := Fetch (tokenRequest w) in
    match net E (trace w ++ [first]) with
    | Replied res1 =>
        if (status res1 =? 401)%N then
          match Spec.tokenOutcome (net E (trace w ++ [first; refresh])) with
          | Ok t =>
              let again := Fetch (Spec.requestOf init input (Some (js "Bearer " ++ t))) in
              trace w' = trace w ++ [first; refresh; again] /\
              token (config w') = Some t /\
              r = Spec.fetched (net E (trace w'))
          | Throw e =>
              trace w' = trace w ++ [first; refresh] /\ r = Throw e
          | Stuck => False
          end
        else trace w' = trace w ++ [first] /\ r = Ok res1
    | Rejected => trace w' = trace w ++ [first] /\ r = Throw FetchRejected
    end.
Proof.
  intros Hidle.
  unfold authorizedFetch. cbn [authorizedFetchRec].
  unfold bind at 1 2. unfold gets at 1. unfold fetch at 1.
  cbn [trace record]. fold (Spec.requestOf init input (bearer w)).
  set (first := Fetch (Spec.requestOf init input (bearer w))).
  destruct (net E (trace w ++ [first])) as [|res1] eqn:R1.
  - eexists _, _. split; [reflexivity|]. cbn [trace files isFetchingToken config record]. auto.
  - destruct (status res1 =? 401)%N eqn:S1; cbn [andb].
    + unfold bind at 1.
      rewrite getToken_idle by exact Hidle.
      rewrite acquireToken_eq. cbn zeta.
      cbn [trace record]. change (tokenRequest (record first w)) with (tokenRequest w).
      rewrite app_assoc2.
      pose proof (@tokenOutcome_not_stuck
                    (net E (trace w ++ [first; Fetch (tokenRequest w)]))) as NS.
      pose proof (@tokenOutcome_truthy
                    (net E (trace w ++ [first; Fetch (tokenRequest w)]))) as TT.
      destruct (Spec.tokenOutcome (net E (trace w ++ [first; Fetch (tokenRequest w)])))
        as [t|e|].
      * specialize (TT t eq_refl).
        unfold bind, gets, fetch, bearer. cbn [config setFlag setToken token trace record].
        rewrite TT, app_assoc3.
        fold (Spec.requestOf init input (Some (js "Bearer " ++ t))).
        destruct (net E (trace w ++ [first; Fetch (tokenRequest w);
                    Fetch (Spec.requestOf init input (Some (js "Bearer " ++ t)))]))
          as [|res2] eqn:R2.
        -- eexists _, _. split; [reflexivity|].
           cbn [trace files isFetchingToken serverUrl config token record setFlag setToken].
           rewrite app_assoc3, R2. auto.
        -- rewrite andb_false_r. eexists _, _. split; [reflexivity|].
           cbn [trace files isFetchingToken serverUrl config token record setFlag setToken].
           rewrite app_assoc3, R2. auto.
      * eexists _, _. split; [reflexivity|].
        cbn [trace files isFetchingToken serverUrl config setFlag record].
        rewrite app_assoc2. auto.
      * now elim NS.
    + eexists _, _. split; [reflexivity|].
      cbn [trace files isFetchingToken config record]. auto.
Qed.

(** A response with the status 401 does not count as a success. *)
Lemma unauthorized_not_ok (res : response) : status res = 401%N -> ok res = false.
Proof. unfold ok. intros ->. reflexivity. Qed.

(** C4.  With no acquisition under way, a request with retry allowed
    carries the bearer token when there is one.  A reply other than a
    401 response ends the call after that one request.  On a 401
    response one authentication request is sent; when the refresh
    succeeds the request is sent once more, with the new token and retry
    disabled, and its reply is what the caller gets, with no further
    request: a second 401 response reaches the caller as a response that
    is not ok, and the operation of the client that receives it (an
    upload, the listing on its first page, a deletion) throws the error
    HTTP 401.  A refresh that fails throws its error and the request is
    not sent again. *)
Theorem authorizedFetch_refresh_once (E : env) (polls : nat) (input : jsstring)
        (init : RequestInit) (w : world) :
  isFetchingToken w = false ->
  (exists (r : outcome response) (w' : world),
    authorizedFetch E polls input init true w = (r, w') /\
    let first := Fetch (Spec.requestOf init input (bearer w)) in
    let refresh := Fetch (tokenRequest w) in
    match net E (trace w ++ [first]) with
    | Replied res1 =>
        if (status res1 =? 401)%N then
          match Spec.tokenOutcome (net E (trace w ++ [first; refresh])) with
          | Ok t =>
              let again := Fetch (Spec.requestOf init input (Some (js "Bearer " ++ t))) in
              trace w' = trace w ++ [first; refresh; again] /\
              token (config w') = Some t /\
              r = Spec.fetched (net E (trace w')) /\
              (forall res2, net E (trace w') = Replied res2 -> status res2 = 401%N ->
                            r = Ok res2 /\ ok res2 = false)
          | Throw e =>
              trace w' = trace w ++ [first; refresh] /\ r = Throw e
          | Stuck => False
          end
        else trace w' = trace w ++ [first] /\ r = Ok res1
    | Rejected => trace w' = trace w ++ [first] /\ r = Throw FetchRejected
    end) /\
  (forall (res : response) (w1 : world),
     status res = 401%N ->
     (forall bin filename mimeType strategyId,
        authorizedFetch E polls (baseUrl w ++ js "/upload")
          {| i_method := POST;
             i_body := FormData bin filename mimeType
                         (decimal (match strategyId with Some n => n | None => 1%N end)) |}
          true w = (Ok res, w1) ->
        uploadBinary E polls bin filename mimeType strategyId w
        = (Throw (Http 401 (match text res with Some t => t | None => [] end)), w1)) /\
     (forall fuel,
        authorizedFetch E polls (baseUrl w ++ js "/images?page=" ++ decimal 1)
          {| i_method := GET; i_body := NoBody |} true w = (Ok res, w1) ->
        listAllImages E fuel polls w = (Throw (Http 401 []), w1)) /\
     (forall k ek,
        encodeURIComponent k = Some ek ->
        authorizedFetch E polls (baseUrl w ++ js "/images/" ++ ek)
          {| i_method := DELETE; i_body := NoBody |} true w = (Ok res, w1) ->
        deleteImageByKey E polls k w = (Throw (Http 401 []), w1))).
Proof.
  intros Hidle. split.
  - destruct (authorizedFetch_run E polls input init w Hidle) as (r & w' & Run & _ & H).
    exists r, w'. split; [exact Run|]. cbn zeta in *.
    destruct (net E (trace w ++ [Fetch (Spec.requestOf init input (bearer w))]))
      as [|res1]; [exact H|].
    destruct (status res1 =? 401)%N; [|exact H].
    destruct (Spec.tokenOutcome _) as [t|e|]; [|exact H|exact H].
    destruct H as (T & K & R). split; [exact T|]. split; [exact K|]. split; [exact R|].
    intros res2 N2 S2. rewrite N2 in R. split; [exact R|].
    now apply unauthorized_not_ok.
  - intros res w1 S. pose proof (unauthorized_not_ok res S) as K.
    split; [|split].
    + intros bin filename mimeType strategyId A.
      unfold uploadBinary. unfold bind at 1. unfold gets at 1. unfold bind at 1.
      rewrite A, K, S. reflexivity.
    + intros fuel A. unfold listAllImages. destruct fuel; cbn [listPages];
        unfold bind at 1; unfold gets at 1; unfold bind at 1;
        rewrite A, K, S; reflexivity.
    + intros k ek Hk A. unfold deleteImageByKey. unfold bind at 1. unfold gets at 1.
      rewrite Hk. unfold bind at 1. rewrite A, K, S. reflexivity.
Qed.
(** ** What the operations add to the trace *)

Section Frames.

Import Spec.

Variable P : event -> Prop.

Lemma Emits_ret {A} (a : A) : Emits P (ret a).
Proof.
  intros w r w' [= <- <-]. repeat split. exists []. now rewrite app_nil_r.
Qed.

Lemma Emits_throw {A} (e : error) : Emits P (@throw A e).
Proof.
  intros w r w' [= <- <-]. repeat split. exists []. now rewrite app_nil_r.
Qed.

Lemma Emits_stuck {A} : Emits P (@stuck A).
Proof.
  intros w r w' [= <- <-]. repeat split. exists []. now rewrite app_nil_r.
Qed.

Lemma Emits_gets {A} (f : world -> A) : Emits P (gets f).
Proof.
  intros w r w' [= <- <-]. repeat split. exists []. now rewrite app_nil_r.
Qed.

Lemma Emits_emit (e : event) : P e -> Emits P (emit e).
Proof.
  intros He w r w' [= <- <-]. repeat split. exists [e]. split; [reflexivity|].
  now constructor.
Qed.

Lemma Emits_setFlag (b : bool) : Emits P (update (setFlag b)).
Proof.
  intros w r w' [= <- <-]. repeat split. exists []. now rewrite app_nil_r.
Qed.

Lemma Emits_setToken (t : jsstring) : Emits P (update (setToken t)).
Proof.
  intros w r w' [= <- <-]. repeat split. exists []. now rewrite app_nil_r.
Qed.

Lemma Emits_bind {A B} (c : M A) (k : A -> M B) :
  Emits P c -> (forall a, Emits P (k a)) -> Emits P (bind c k).
Proof.
  intros Hc Hk w r w' H. unfold bind in H.
  destruct (c w) as [[a|e|] w1] eqn:C.
  - destruct (Hc _ _ _ C) as (F1 & A1 & evs1 & T1 & Q1).
    destruct (Hk a _ _ _ H) as (F2 & A2 & evs2 & T2 & Q2).
    split; [congruence|]. split; [congruence|].
    exists (evs1 ++ evs2). split.
    + rewrite T2, T1. now rewrite app_assoc.
    + now apply Forall_app.
  - injection H as <- <-. exact (Hc _ _ _ C).
  - injection H as <- <-. exact (Hc _ _ _ C).
Qed.

Lemma Emits_tryCatch {A} (c : M A) (h : error -> M A) :
  Emits P c -> (forall e, Emits P (h e)) -> Emits P (tryCatch c h).
Proof.
  intros Hc Hh w r w' H. unfold tryCatch in H.
  destruct (c w) as [[a|e|] w1] eqn:C.
  - injection H as <- <-. exact (Hc _ _ _ C).
  - destruct (Hc _ _ _ C) as (F1 & A1 & evs1 & T1 & Q1).
    destruct (Hh e _ _ _ H) as (F2 & A2 & evs2 & T2 & Q2).
    split; [congruence|]. split; [congruence|].
    exists (evs1 ++ evs2). split.
    + rewrite T2, T1. now rewrite app_assoc.
    + now apply Forall_app.
  - injection H as <- <-. exact (Hc _ _ _ C).
Qed.

Lemma Emits_tryFinally {A} (c : M A) (b : bool) :
  Emits P c -> Emits P (tryFinally c (setFlag b)).
Proof.
  intros Hc w r w' H. unfold tryFinally in H.
  destruct (c w) as [r1 w1] eqn:C. injection H as <- <-.
  exact (Hc _ _ _ C).
Qed.

Lemma Emits_fetch (E : env) (r : request) : P (Fetch r) -> Emits P (fetch E r).
Proof.
  intros He w x w' H. unfold fetch in H.
  destruct (net E (trace (record (Fetch r) w))); injection H as <- <-;
    repeat split; exists [Fetch r]; (split; [reflexivity|now constructor]).
Qed.

Lemma Emits_read (f : TFile) : Emits P (read f).
Proof.
  intros w r w' H. unfold read in H.
  destruct (contentOf (files w) f); injection H as <- <-;
    repeat split; exists []; now rewrite app_nil_r.
Qed.

End Frames.

(** Applies the rules for the shape of a computation. *)
Ltac emits :=
  repeat first
    [ apply Emits_bind; [|intros ?]
    | apply Emits_tryCatch; [|intros ?]
    | apply Emits_tryFinally
    | apply Emits_ret | apply Emits_throw | apply Emits_stuck | apply Emits_gets
    | apply Emits_setFlag | apply Emits_setToken | apply Emits_read
    | apply Emits_emit | apply Emits_fetch
    | match goal with
      | |- Spec.Emits _ (if ?b then _ else _) => destruct b
      | |- Spec.Emits _ (match ?x with _ => _ end) => destruct x
      end ].

Section ClientFrames.

Import Spec.

Variable E : env.
Variable P : event -> Prop.
Hypothesis Psleep : forall ms, P (Sleep ms).
Hypothesis Ppost : forall r, r_method r = POST -> P (Fetch r).

Lemma Emits_fetchToken : Emits P (fetchToken E).
Proof.
  intros w r w' H. unfold fetchToken in H.
  eapply Emits_fetch; [|exact H]. now apply Ppost.
Qed.

Lemma Emits_acquireToken : Emits P (acquireToken E).
Proof.
  unfold acquireToken, resJson.
  apply Emits_bind; [apply Emits_setFlag|intros _].
  apply Emits_tryFinally.
  apply Emits_bind; [apply Emits_fetchToken|intros res].
  emits.
Qed.

Lemma Emits_getToken (polls : nat) : Emits P (getToken E polls).
Proof.
  induction polls as [|n IH]; cbn [getToken].
  - apply Emits_bind; [apply Emits_gets|intros [|]];
      [apply Emits_stuck|apply Emits_acquireToken].
  - apply Emits_bind; [apply Emits_gets|intros [|]]; [|apply Emits_acquireToken].
    apply Emits_bind; [|intros _; exact IH].
    apply Emits_emit, Psleep.
Qed.

Lemma Emits_authorizedFetchRec (depth polls : nat) (input : jsstring) (init : RequestInit)
      (retry401 : bool) :
  (forall r, r_method r = i_method init -> P (Fetch r)) ->
  Emits P (authorizedFetchRec E depth polls input init retry401).
Proof.
  intros Pm. revert retry401.
  induction depth as [|d IH]; intros retry401; cbn [authorizedFetchRec];
    [apply Emits_stuck|].
  apply Emits_bind; [apply Emits_gets|intros auth].
  apply Emits_bind; [apply Emits_fetch, Pm; reflexivity|intros res].
  destruct ((status res =? 401)%N && retry401); [|apply Emits_ret].
  apply Emits_bind; [apply Emits_getToken|intros _; apply IH].
Qed.

Lemma Emits_authorizedFetch (polls : nat) (input : jsstring) (init : RequestInit)
      (retry401 : bool) :
  (forall r, r_method r = i_method init -> P (Fetch r)) ->
  Emits P (authorizedFetch E polls input init retry401).
Proof. apply Emits_authorizedFetchRec. Qed.

Lemma Emits_uploadBinary (polls : nat) (bin : binary) (filename : jsstring) (mimeType : mime)
      (strategyId : option N) :
  Emits P (uploadBinary E polls bin filename mimeType strategyId).
Proof.
  unfold uploadBinary.
  apply Emits_bind; [apply Emits_gets|intros base].
  apply Emits_bind; [apply Emits_authorizedFetch; intros r; apply Ppost|intros res].
  emits.
Qed.

Hypothesis Pget : forall r, r_method r = GET -> P (Fetch r).

Lemma Emits_listPages (fuel polls : nat) (page last : N) (result : list LskyImageItem) :
  Emits P (listPages E fuel polls page last result).
Proof.
  revert page last result. induction fuel as [|n IH]; intros page last result;
    cbn [listPages].
  - apply Emits_bind; [apply Emits_gets|intros base].
    apply Emits_bind; [apply Emits_authorizedFetch; intros r; apply Pget|intros res].
    unfold resJson, sleep. emits. apply Psleep.
  - apply Emits_bind; [apply Emits_gets|intros base].
    apply Emits_bind; [apply Emits_authorizedFetch; intros r; apply Pget|intros res].
    destruct (negb (ok res)); [apply Emits_throw|].
    apply Emits_bind; [unfold resJson; emits|intros j].
    apply Emits_bind; [apply Emits_emit, Psleep|intros _].
    match goal with |- Emits _ (if ?b then _ else _) => destruct b end;
      [apply IH|apply Emits_ret].
Qed.

Lemma Emits_listAllImages (fuel polls : nat) : Emits P (listAllImages E fuel polls).
Proof. apply Emits_listPages. Qed.

End ClientFrames.

(** ** The operations settle *)

Section Settling.

Import Spec.

Lemma Settles_bind {A B} (c : M A) (k : A -> M B) :
  Settles c -> (forall a, Settles (k a)) -> Settles (bind c k).
Proof.
  intros Hc Hk w Hw. unfold bind.
  destruct (Hc w Hw) as [N1 F1].
  destruct (c w) as [[a|e|] w1]; simpl in *.
  - now apply Hk.
  - split; [discriminate|exact F1].
  - now elim N1.
Qed.

Lemma Settles_tryCatch {A} (c : M A) (h : error -> M A) :
  Settles c -> (forall e, Settles (h e)) -> Settles (tryCatch c h).
Proof.
  intros Hc Hh w Hw. unfold tryCatch.
  destruct (Hc w Hw) as [N1 F1].
  destruct (c w) as [[a|e|] w1]; simpl in *.
  - split; [discriminate|exact F1].
  - now apply Hh.
  - now elim N1.
Qed.

Lemma Settles_ret {A} (a : A) : Settles (ret a).
Proof. intros w Hw. split; [discriminate|exact Hw]. Qed.

Lemma Settles_throw {A} (e : error) : Settles (@throw A e).
Proof. intros w Hw. split; [discriminate|exact Hw]. Qed.

Lemma Settles_gets {A} (f : world -> A) : Settles (gets f).
Proof. intros w Hw. split; [discriminate|exact Hw]. Qed.

Lemma Settles_emit (e : event) : Settles (emit e).
Proof. intros w Hw. split; [discriminate|exact Hw]. Qed.

Lemma Settles_read (f : TFile) : Settles (read f).
Proof.
  intros w Hw. unfold read. destruct (contentOf (files w) f); (split; [discriminate|exact Hw]).
Qed.

Lemma Settles_modifyFile (f : TFile) (data : jsstring) : Settles (modifyFile f data).
Proof. intros w Hw. split; [discriminate|exact Hw]. Qed.

Variable E : env.

Lemma Settles_fetch (r : request) : Settles (fetch E r).
Proof.
  intros w Hw. unfold fetch.
  destruct (net E (trace (record (Fetch r) w))); (split; [discriminate|exact Hw]).
Qed.

Lemma Settles_getToken (polls : nat) : Settles (getToken E polls).
Proof.
  intros w Hw. rewrite getToken_idle by exact Hw. rewrite acquireToken_eq. cbn zeta.
  pose proof (tokenOutcome_not_stuck (net E (trace w ++ [Fetch (tokenRequest w)]))) as NS.
  destruct (Spec.tokenOutcome (net E (trace w ++ [Fetch (tokenRequest w)])));
    (split; [assumption || discriminate|reflexivity]).
Qed.

Lemma Settles_authorizedFetch (polls : nat) (input : jsstring) (init : RequestInit)
      (retry401 : bool) :
  Settles (authorizedFetch E polls input init retry401).
Proof.
  unfold authorizedFetch. cbn [authorizedFetchRec].
  apply Settles_bind; [apply Settles_gets|intros auth].
  apply Settles_bind; [apply Settles_fetch|intros res].
  destruct ((status res =? 401)%N && retry401); [|apply Settles_ret].
  apply Settles_bind; [apply Settles_getToken|intros _].
  apply Settles_bind; [apply Settles_gets|intros auth2].
  apply Settles_bind; [apply Settles_fetch|intros res2].
  rewrite andb_false_r. apply Settles_ret.
Qed.

Lemma Settles_uploadBinary (polls : nat) (bin : binary) (filename : jsstring) (mimeType : mime)
      (strategyId : option N) :
  Settles (uploadBinary E polls bin filename mimeType strategyId).
Proof.
  unfold uploadBinary.
  apply Settles_bind; [apply Settles_gets|intros base].
  apply Settles_bind; [apply Settles_authorizedFetch|intros res].
  destruct (negb (ok res)); [apply Settles_throw|].
  destruct (json res) as [j|]; [|apply Settles_throw].
  destruct (negb (e_status j) || negb (truthyOpt (e_url j)));
    [apply Settles_throw|apply Settles_ret].
Qed.

End Settling.
(** ** C8: the pages of listAllImages *)

Lemma trace_records (es : list event) (w : world) :
  trace (Spec.records es w) = trace w ++ es.
Proof.
  revert w; induction es as [|e es IH]; intros w; simpl.
  - now rewrite app_nil_r.
  - unfold Spec.records in *. simpl. rewrite IH. simpl. now rewrite <- app_assoc.
Qed.

Lemma ok_not_401 (res : response) : ok res = true -> (status res =? 401)%N = false.
Proof.
  unfold ok. intros H. apply andb_true_iff in H as [_ H].
  apply N.leb_le in H. apply N.eqb_neq. lia.
Qed.

(** A request that is answered with a success status is sent once. *)
Lemma authorizedFetch_ok (E : env) (polls : nat) (input : jsstring) (init : RequestInit)
      (w : world) (res : response) :
  net E (trace w ++ [Fetch (Spec.requestOf init input (bearer w))]) = Replied res ->
  ok res = true ->
  authorizedFetch E polls input init true w =
  (Ok res, record (Fetch (Spec.requestOf init input (bearer w))) w).
Proof.
  intros R K. unfold authorizedFetch. cbn [authorizedFetchRec].
  unfold bind, gets, fetch. cbn [trace record].
  fold (Spec.requestOf init input (bearer w)). rewrite R.
  now rewrite (ok_not_401 _ K).
Qed.

(** One turn of the loop on a page that is served. *)
Lemma listPages_turn (E : env) (fuel polls : nat) (page last : N)
      (acc : list LskyImageItem) (w : world) (res : response) (j : envelope) :
  net E (trace w ++ [Fetch (Spec.pageRequest w page)]) = Replied res ->
  ok res = true ->
  json res = Some j ->
  listPages E fuel polls page last acc w =
  let acc' := acc ++ match e_items j with Some l => l | None => [] end in
  let last' := match e_last_page j with
               | Some l => if (l =? 0)%N then page else l
               | None => page
               end in
  let w' := record (Sleep 80) (record (Fetch (Spec.pageRequest w page)) w) in
  if (page + 1 <=? last')%N then
    match fuel with
    | O => (Stuck, w')
    | S n => listPages E n polls (page + 1)%N last' acc' w'
    end
  else (Ok acc', w').
Proof.
  intros R K J.
  destruct fuel; cbn [listPages]; unfold bind at 1; unfold gets at 1; unfold bind at 1;
    rewrite (authorizedFetch_ok E polls _ _ w res R K); rewrite K; cbn [negb];
    unfold resJson; rewrite J; unfold bind, ret, sleep, emit, update, stuck;
    cbn zeta; fold (Spec.pageRequest w page);
    match goal with |- context [N.leb ?a ?b] => destruct (N.leb a b) end; reflexivity.
Qed.

Lemma pageRequest_config (w w0 : world) (k : N) :
  config w = config w0 -> Spec.pageRequest w k = Spec.pageRequest w0 k.
Proof.
  intros H. unfold Spec.pageRequest, baseUrl, bearer. now rewrite H.
Qed.

Lemma listPages_from (E : env) (polls : nat) (n : nat) (items : N -> list LskyImageItem)
      (w0 : world) :
  Spec.servesPages E w0 n items ->
  forall (d k fuel : nat) (last : N) (acc : list LskyImageItem) (w : world),
    1 <= k -> k + d = n -> d <= fuel ->
    config w = config w0 ->
    exists w',
      listPages E fuel polls (N.of_nat k) last acc w =
      (Ok (acc ++ flat_map items (List.map N.of_nat (seq k (S d)))), w') /\
      trace w' = trace w ++
        flat_map (fun p => [Fetch (Spec.pageRequest w0 p); Sleep 80])
                 (List.map N.of_nat (seq k (S d))) /\
      config w' = config w0.
Proof.
  intros Hs. induction d as [|d IH]; intros k fuel last acc w Hk Hn Hf Hc.
  - destruct (Hs (trace w) k ltac:(lia)) as (res & j & R & K & J & I & L).
    rewrite <- (pageRequest_config _ _ _ Hc) in R.
    rewrite (listPages_turn _ _ _ _ _ _ _ _ _ R K J). cbn zeta.
    rewrite I, L.
    assert (N.of_nat n <> 0%N) by lia.
    destruct (N.eqb_spec (N.of_nat n) 0); [contradiction|].
    destruct (N.leb_spec (N.of_nat k + 1) (N.of_nat n)); [lia|].
    eexists. split; [|split].
    + cbn [seq List.map flat_map]. now rewrite app_nil_r.
    + cbn [trace record seq List.map flat_map app].
      rewrite (pageRequest_config _ _ _ Hc). now rewrite <- app_assoc.
    + exact Hc.
  - destruct (Hs (trace w) k ltac:(lia)) as (res & j & R & K & J & I & L).
    rewrite <- (pageRequest_config _ _ _ Hc) in R.
    rewrite (listPages_turn _ _ _ _ _ _ _ _ _ R K J). cbn zeta.
    rewrite I, L.
    assert (N.of_nat n <> 0%N) by lia.
    destruct (N.eqb_spec (N.of_nat n) 0); [contradiction|].
    destruct (N.leb_spec (N.of_nat k + 1) (N.of_nat n)); [|lia].
    destruct fuel as [|fuel]; [lia|].
    replace (N.of_nat k + 1)%N with (N.of_nat (S k)) by lia.
    destruct (IH (S k) fuel (N.of_nat n) (acc ++ items (N.of_nat k))
                 (record (Sleep 80) (record (Fetch (Spec.pageRequest w (N.of_nat k))) w)))
      as (w' & H1 & H2 & H3); try lia; [exact Hc|].
    exists w'. split; [|split].
    + rewrite H1. f_equal. f_equal.
      change (seq k (S (S d))) with (k :: seq (S k) (S d)).
      cbn [List.map flat_map]. now rewrite <- app_assoc.
    + rewrite H2. cbn [trace record].
      change (seq k (S (S d))) with (k :: seq (S k) (S d)).
      cbn [List.map flat_map]. rewrite (pageRequest_config _ _ _ Hc).
      now rewrite <- !app_assoc.
    + exact H3.
Qed.

(** C8.  When the server lists [n] pages, [listAllImages] asks for the
    pages 1 to [n] in order, waits 80 ms after each request, and returns
    the items of the pages in page order; fuel for [n - 1] further turns
    of the loop is enough. *)
Theorem listAllImages_pages_in_order (E : env) (fuel polls : nat) (n : nat)
        (items : N -> list LskyImageItem) (w : world) :
  1 <= n ->
  n <= S fuel ->
  Spec.servesPages E w n items ->
  exists w',
    listAllImages E fuel polls w = (Ok (flat_map items (Spec.pagesUpTo n)), w') /\
    trace w' = trace w ++
      flat_map (fun p => [Fetch (Spec.pageRequest w p); Sleep 80]) (Spec.pagesUpTo n).
Proof.
  intros Hn Hf Hs. unfold listAllImages, Spec.pagesUpTo.
  destruct n as [|d]; [lia|].
  destruct (listPages_from E polls (S d) items w Hs d 1 fuel 1%N [] w)
    as (w' & H1 & H2 & _); try lia; [reflexivity|].
  exists w'. split; [exact H1|exact H2].
Qed.
(** ** C1: concurrent calls of getToken *)

Section Race.

Import Spec.

Lemma endsWith_app (p s : jsstring) : endsWith p (s ++ p) = true.
Proof. unfold endsWith. rewrite rev_app_distr. apply startsWith_app. Qed.

Lemma isTokenPost_tokenRequest (w : world) : isTokenPost (Fetch (tokenRequest w)) = true.
Proof. unfold isTokenPost, tokenRequest. cbn [r_method r_url]. apply endsWith_app. Qed.

Lemma countIf_app (p : task -> bool) (a b : list task) :
  countIf p (a ++ b) = countIf p a + countIf p b.
Proof. unfold countIf. now rewrite filter_app, length_app. Qed.

Lemma countIf_replace (p : task -> bool) (n : nat) (t t' : task) (l : list task) :
  nth_error l n = Some t ->
  countIf p (replace n t' l) + (if p t then 1 else 0)
  = countIf p l + (if p t' then 1 else 0).
Proof.
  revert n; induction l as [|x l IH]; intros [|n] H; simpl in H; try discriminate.
  - injection H as ->. unfold countIf. simpl.
    destruct (p t), (p t'); simpl; lia.
  - specialize (IH n H). unfold countIf in *. simpl.
    destruct (p x); simpl; lia.
Qed.

Lemma length_replace (n : nat) (t : task) (l : list task) :
  List.length (replace n t l) = List.length l.
Proof.
  revert n; induction l as [|x l IH]; intros [|n]; simpl; auto.
Qed.

Lemma posts_record (e : event) (w : world) (ts : list task) :
  posts {| client := record e w; tasks := ts |}
  = posts {| client := w; tasks := ts |} + (if isTokenPost e then 1 else 0).
Proof.
  unfold posts. cbn [client trace record]. rewrite filter_app, length_app. simpl.
  destruct (isTokenPost e); reflexivity.
Qed.

Lemma serialized_call (base : nat) (s : system) :
  serialized base s -> serialized base (call s).
Proof.
  intros [Ha Hb]. unfold call, enter. destruct s as [w ts]. cbn [client tasks] in *.
  unfold flagCount in *.
  destruct (isFetchingToken w) eqn:F; unfold serialized, flagCount; cbn [client tasks];
    rewrite !countIf_app, posts_record; cbn [record setFlag isFetchingToken];
    rewrite ?F, ?isTokenPost_tokenRequest;
    unfold posts, countIf in *; cbn [client trace setFlag] in *;
    cbn [filter inFlight started List.length isTokenPost]; lia.
Qed.

Lemma serialized_step (base : nat) (s s' : system) (e : nat * input) :
  serialized base s -> step s e = Some s' -> serialized base s'.
Proof.
  intros [Ha Hb] H. unfold step in H. destruct s as [w ts]. cbn [client tasks] in *.
  destruct e as [n i]. cbn [fst snd] in H.
  destruct (nth_error ts n) as [t|] eqn:N; [|discriminate].
  pose proof (countIf_replace inFlight n) as CI.
  pose proof (countIf_replace started n) as CS.
  unfold serialized, flagCount in *.
  destruct t as [| |res|r]; destruct i as [|[|rep]]; cbn [resume] in H; try discriminate.
  - (* the wait loop *)
    unfold enter in H. destruct (isFetchingToken w) eqn:F; injection H as <-;
      unfold serialized; cbn [client tasks].
    + specialize (CI Polling Polling ts N). specialize (CS Polling Polling ts N).
      rewrite posts_record. cbn [record isFetchingToken isTokenPost]. rewrite F.
      simpl in CI, CS. unfold posts in *. cbn [client trace] in *. lia.
    + specialize (CI Polling Fetching ts N). specialize (CS Polling Fetching ts N).
      rewrite posts_record, isTokenPost_tokenRequest. cbn [record setFlag isFetchingToken].
      simpl in CI, CS. unfold posts in *. cbn [client trace setFlag] in *. lia.
  - (* the fetch rejects *)
    injection H as <-. unfold serialized; cbn [client tasks setFlag isFetchingToken].
    specialize (CI Fetching (Done (Throw FetchRejected)) ts N).
    specialize (CS Fetching (Done (Throw FetchRejected)) ts N).
    simpl in CI, CS. unfold posts in *. cbn [client trace setFlag] in *.
    destruct (isFetchingToken w); lia.
  - (* the fetch answers *)
    destruct (negb (ok rep)); injection H as <-; unfold serialized;
      cbn [client tasks setFlag isFetchingToken].
    + specialize (CI Fetching (Done (Throw (Http (status rep) []))) ts N).
      specialize (CS Fetching (Done (Throw (Http (status rep) []))) ts N).
      simpl in CI, CS. unfold posts in *. cbn [client trace setFlag] in *.
      destruct (isFetchingToken w); lia.
    + specialize (CI Fetching (Parsing rep) ts N).
      specialize (CS Fetching (Parsing rep) ts N).
      simpl in CI, CS. unfold posts in *. cbn [client trace] in *. lia.
  - (* the body is parsed *)
    destruct (json res) as [j|].
    + destruct (tokenOf j) as [t|e|]; [| |discriminate]; injection H as <-;
        unfold serialized; cbn [client tasks setFlag setToken isFetchingToken].
      * specialize (CI (Parsing res) (Done (Ok t)) ts N).
        specialize (CS (Parsing res) (Done (Ok t)) ts N).
        simpl in CI, CS. unfold posts in *. cbn [client trace setFlag setToken] in *.
        destruct (isFetchingToken w); lia.
      * specialize (CI (Parsing res) (Done (Throw e)) ts N).
        specialize (CS (Parsing res) (Done (Throw e)) ts N).
        simpl in CI, CS. unfold posts in *. cbn [client trace setFlag] in *.
        destruct (isFetchingToken w); lia.
    + injection H as <-. unfold serialized; cbn [client tasks setFlag isFetchingToken].
      specialize (CI (Parsing res) (Done (Throw JsonRejected)) ts N).
      specialize (CS (Parsing res) (Done (Throw JsonRejected)) ts N).
      simpl in CI, CS. unfold posts in *. cbn [client trace setFlag] in *.
      destruct (isFetchingToken w); lia.
Qed.

Lemma serialized_run (base : nat) (es : list (nat * input)) :
  forall s s', serialized base s -> run s es = Some s' -> serialized base s'.
Proof.
  induction es as [|e es IH]; intros s s' Hs H; simpl in H.
  - now injection H as <-.
  - destruct (step s e) as [s1|] eqn:S1; [|discriminate].
    eapply IH; [|exact H]. eapply serialized_step; eauto.
Qed.

Lemma serialized_calls (base n : nat) (s : system) :
  serialized base s -> serialized base (calls n s).
Proof.
  revert s; induction n as [|n IH]; intros s Hs; [exact Hs|].
  simpl. apply IH, serialized_call, Hs.
Qed.

Lemma length_step (s s' : system) (e : nat * input) :
  step s e = Some s' -> List.length (tasks s') = List.length (tasks s).
Proof.
  unfold step. destruct (nth_error (tasks s) (fst e)); [|discriminate].
  destruct (resume t (snd e) (client s)) as [[t' w']|]; [|discriminate].
  intros [= <-]. apply length_replace.
Qed.

Lemma length_run (es : list (nat * input)) :
  forall s s', run s es = Some s' -> List.length (tasks s') = List.length (tasks s).
Proof.
  induction es as [|e es IH]; intros s s' H; simpl in H.
  - now injection H as <-.
  - destruct (step s e) as [s1|] eqn:S1; [|discriminate].
    rewrite (IH _ _ H). eapply length_step; eauto.
Qed.

Lemma length_calls (n : nat) (s : system) :
  List.length (tasks (calls n s)) = List.length (tasks s) + n.
Proof.
  revert s; induction n as [|n IH]; intros s; simpl; [lia|].
  rewrite IH. unfold call. destruct (enter (client s)). cbn [tasks].
  rewrite length_app. simpl. lia.
Qed.

Lemma countIf_all (p : task -> bool) (l : list task) :
  forallb p l = true -> countIf p l = List.length l.
Proof.
  unfold countIf. induction l as [|x l IH]; simpl; [reflexivity|].
  intros H. apply andb_true_iff in H as [H1 H2]. rewrite H1. simpl. now rewrite IH.
Qed.

Lemma settled_started (l : list task) :
  forallb settled l = true -> forallb started l = true.
Proof.
  induction l as [|x l IH]; simpl; [reflexivity|].
  intros H. apply andb_true_iff in H as [H1 H2]. rewrite IH by exact H2.
  destruct x; simpl in *; auto.
Qed.

(** C1, as the code has it.  However the calls of [getToken] are
    interleaved, at most one of them is between its authentication
    request and its outcome at any time; every call that has left the
    wait loop has sent an authentication request of its own; so once
    [n] calls have settled, [n] requests have been sent. *)
Theorem getToken_calls_take_turns (w : world) (n : nat) (es : list (nat * input))
        (s : system) :
  isFetchingToken w = false ->
  run (calls n (idle w)) es = Some s ->
  countIf inFlight (tasks s) <= 1 /\
  posts s = posts (idle w) + countIf started (tasks s) /\
  (forallb settled (tasks s) = true -> posts s = posts (idle w) + n).
Proof.
  intros Hw Hr.
  assert (H0 : serialized (posts (idle w)) (idle w)).
  { unfold serialized, idle, flagCount. cbn [client tasks]. rewrite Hw.
    unfold countIf. simpl. split; [reflexivity|lia]. }
  pose proof (serialized_run _ _ _ _ (serialized_calls _ n _ H0) Hr) as [Ha Hb].
  split; [|split].
  - rewrite Ha. unfold flagCount. destruct (isFetchingToken (client s)); lia.
  - exact Hb.
  - intros Hs. rewrite Hb. f_equal.
    rewrite (countIf_all _ _ (settled_started _ Hs)).
    rewrite (length_run _ _ _ Hr), length_calls. reflexivity.
Qed.

End Race.
(** ** C1 on the sample *)

Import Samples.


(** Two calls on the sample: both settle and two requests were sent. *)
Lemma getToken_calls_take_turns_witness :
  isFetchingToken stale = false /\
  exists s,
    run (calls 2 (idle stale)) schedule = Some s /\
    forallb settled (tasks s) = true /\
    posts s = 2.
Proof.
  split; [reflexivity|].
  destruct (run (calls 2 (idle stale)) schedule) as [s|] eqn:R;
    [|vm_compute in R; discriminate R].
  exists s. split; [reflexivity|].
  assert (S : forallb settled (tasks s) = true).
  { vm_compute in R. injection R as <-. reflexivity. }
  split; [exact S|].
  destruct (getToken_calls_take_turns stale 2 schedule s eq_refl R) as (_ & _ & H).
  exact (H S).
Defined.

(** C1 as stated fails: a call that finds an acquisition in flight
    waits, and then sends an authentication request of its own. *)
Lemma getToken_waiter_sends_its_own_request :
  ~ (forall (w : world) (es : list (nat * input)) (s : system),
        isFetchingToken w = false ->
        run (calls 2 (idle w)) es = Some s ->
        forallb settled (tasks s) = true ->
        posts s = posts (idle w) + 1).
Proof.
  intros H.
  destruct (run (calls 2 (idle stale)) schedule) as [s|] eqn:R;
    [|vm_compute in R; discriminate R].
  specialize (H stale schedule s eq_refl R).
  vm_compute in R. injection R as <-.
  specialize (H eq_refl). vm_compute in H. discriminate H.
Qed.

(** A call that runs alone is [getToken] of the client. *)
Lemma call_alone_is_getToken (E : env) (polls : nat) (w : world) :
  isFetchingToken w = false ->
  let rep := net E (trace w ++ [Fetch (tokenRequest w)]) in
  exists es,
    run (call (idle w)) es =
    Some {| client := snd (getToken E polls w); tasks := [Done (fst (getToken E polls w))] |}.
Proof.
  intros Hw rep. rewrite getToken_idle by exact Hw. rewrite acquireToken_eq. cbn zeta.
  fold rep. unfold call, idle, enter. cbn [client tasks]. rewrite Hw. cbn [app].
  pose proof (tokenOutcome_not_stuck rep) as NS.
  destruct rep as [|res] eqn:Rp.
  - exists [(0, Answer Rejected)]. reflexivity.
  - unfold Spec.tokenOutcome in *. destruct (negb (ok res)) eqn:K.
    + exists [(0, Answer (Replied res))]. cbn. rewrite K. reflexivity.
    + destruct (json res) as [j|] eqn:J.
      * exists [(0, Answer (Replied res)); (0, Wake)]. cbn. rewrite K. cbn. rewrite J.
        destruct (tokenOf j); [reflexivity|reflexivity|now elim NS].
      * exists [(0, Answer (Replied res)); (0, Wake)]. cbn. rewrite K. cbn. rewrite J.
        reflexivity.
Qed.
(** ** C7: the uploads of a note *)

Import Samples.

(** C7 on a note with two images on one line, both in the vault, and a
    server that accepts both uploads.  Both references are extracted and
    both uploads are reported as successes, the first with the URL
    U1.png and the second with U2.png.  The rewrite of the second
    reference reads from the start of the first image, already
    rewritten, to the end of the second, so the one text that is written
    holds the second URL only: the link to the first upload is lost,
    where the text with exactly the rewrites of the two uploads holds
    both. *)
Theorem uploadAllLocalImages_loses_a_rewrite :
  extractLocalImagePaths pairText = [js "x.png"; js "y.png"] /\
  exists w',
    uploadAllLocalImages numbering 0 pairWorld = (Ok tt, w') /\
    trace w' =
      [Show (FoundLocalImages 2); Bar POpen; Bar (PSetTotal 2);
       Fetch (uploadOf [1%N]);
       Show (UploadSucceeded 1 2 (js "x.png")); Bar (PIncrement (js "x.png"));
       Fetch (uploadOf [2%N]);
       Show (UploadSucceeded 2 2 (js "y.png")); Bar (PIncrement (js "y.png"));
       Bar PClose;
       Modify pairNote (js "![](https://lsky.example.com/i/U2.png)");
       Show (UploadFinished 2 2)] /\
    contentOf (files w') pairNote = Some (js "![](https://lsky.example.com/i/U2.png)") /\
    includes (numbered 1) (js "![](https://lsky.example.com/i/U2.png)") = false /\
    replaceImageLink pairText (js "x.png") (numbered 1)
    = js "![](https://lsky.example.com/i/U1.png) ![b](y.png)" /\
    replaceImageLink (js "![](https://lsky.example.com/i/U1.png) ![b](y.png)")
                     (js "y.png") (numbered 2)
    = js "![](https://lsky.example.com/i/U2.png)".
Proof.
  split; [vm_compute; reflexivity|].
  eexists. split; [vm_compute; reflexivity|].
  repeat split; vm_compute; reflexivity.
Qed.
(** ** C6: the candidates of the resolution *)

Section Candidates.

Import Spec.

Lemma find_none_iff {A} (f : A -> bool) (l : list A) :
  find f l = None <-> forall x, In x l -> f x = false.
Proof.
  split; [apply find_none|].
  induction l as [|x l IH]; intros H; simpl; [reflexivity|].
  rewrite (H x (or_introl eq_refl)). apply IH. intros y Hy. apply H. now right.
Qed.

Lemma find_first {A} (f : A -> bool) (pre : list A) (c : A) (post : list A) :
  (forall x, In x pre -> f x = false) -> f c = true ->
  find f (pre ++ c :: post) = Some c.
Proof.
  intros H Hc. induction pre as [|x pre IH]; cbn [app find].
  - now rewrite Hc.
  - rewrite (H x (or_introl eq_refl)). apply IH. intros y Hy. apply H. now right.
Qed.

Lemma find_split {A} (f : A -> bool) (l : list A) (c : A) :
  find f l = Some c ->
  exists pre post, l = pre ++ c :: post /\ (forall x, In x pre -> f x = false) /\ f c = true.
Proof.
  induction l as [|x l IH]; cbn [find]; [discriminate|].
  destruct (f x) eqn:Fx.
  - intros [= ->]. exists [], l. repeat split; [intros y []|exact Fx].
  - intros H. destruct (IH H) as (pre & post & -> & Hpre & Hc).
    exists (x :: pre), post. repeat split; [|exact Hc].
    intros y [<-|Hy]; [exact Fx|now apply Hpre].
Qed.

(** *** The list of the code, candidate by candidate *)

Lemma cutFirst_removeFirst (mark v : jsstring) :
  cutFirst mark v = if includes mark v then Some (removeFirst mark v) else None.
Proof.
  induction v as [|c v IH]; cbn [cutFirst includes removeFirst].
  - destruct (startsWith mark []); reflexivity.
  - destruct (startsWith mark (c :: v)); [reflexivity|].
    rewrite IH. cbn [orb]. destruct (includes mark v); reflexivity.
Qed.

Lemma resolveImagePath_primary (v : jsstring) (note : TFile) :
  resolveImagePath v note = primary v note.
Proof.
  unfold resolveImagePath, primary, documentFolder.
  destruct (cleanPathOf v) as [|c rest].
  - cbn [startsWith js]. destruct (parent note) as [[|x d]|]; reflexivity.
  - change (startsWith (js "/") (c :: rest)) with ((47 =? c)%N && true).
    rewrite andb_true_r, N.eqb_sym. destruct (c =? 47)%N; [reflexivity|].
    destruct (parent note) as [[|x d]|]; reflexivity.
Qed.

Lemma variantsOf_variants (p : jsstring) : variantsOf p = variants p.
Proof.
  unfold variantsOf, variants, add. cbn [mem existsb app].
  destruct (decodeURIComponent (cleanPathOf p)) as [d|]; [|reflexivity].
  cbn [mem existsb]. rewrite orb_false_r.
  destruct (JsString.eqb d (cleanPathOf p)); reflexivity.
Qed.

Lemma candidatesOf_candidates (v : jsstring) (note : TFile) :
  candidatesOf v note = candidates note v.
Proof.
  unfold candidatesOf, candidates, documentFolder. fold attachmentsPrefix.
  rewrite resolveImagePath_primary, cutFirst_removeFirst. cbn zeta.
  destruct (includes attachmentsPrefix v), (startsWith attachmentsPrefix v);
    cbn [negb]; destruct (lastSegment 47%N v); cbn [truthy];
    destruct (parent note) as [[|x d]|]; reflexivity.
Qed.

Lemma filter_filter_comm {A} (f g : A -> bool) (l : list A) :
  filter f (filter g l) = filter g (filter f l).
Proof.
  induction l as [|x l IH]; [reflexivity|]. cbn [filter].
  destruct (g x) eqn:G, (f x) eqn:F; cbn [filter]; rewrite ?G, ?F, IH; reflexivity.
Qed.

Lemma filter_absorb (f : jsstring -> bool) (x : jsstring) (l : list jsstring) :
  f x = false ->
  filter f (filter (fun y => negb (JsString.eqb y x)) l) = filter f l.
Proof.
  intros Fx. induction l as [|y l IH]; [reflexivity|]. cbn [filter].
  destruct (JsString.eqb y x) eqn:Y; cbn [negb filter].
  - apply jseqb_eq in Y. subst y. now rewrite Fx.
  - now rewrite IH.
Qed.

Lemma firstOccurrences_filter (f : jsstring -> bool) (l : list jsstring) :
  filter f (firstOccurrences l) = firstOccurrences (filter f l).
Proof.
  induction l as [|x l IH]; [reflexivity|]. cbn [firstOccurrences filter].
  destruct (f x) eqn:Fx; cbn [firstOccurrences].
  - now rewrite filter_filter_comm, IH.
  - now rewrite (filter_absorb f x _ Fx).
Qed.

Lemma filter_mem_snoc (acc : list jsstring) (x : jsstring) (l : list jsstring) :
  filter (fun y => negb (mem y (acc ++ [x]))) l
  = filter (fun y => negb (mem y acc)) (filter (fun y => negb (JsString.eqb y x)) l).
Proof.
  induction l as [|y l IH]; [reflexivity|]. cbn [filter].
  unfold mem at 1. rewrite existsb_app. cbn [existsb]. rewrite orb_false_r.
  fold (mem y acc).
  destruct (mem y acc) eqn:M, (JsString.eqb y x) eqn:Y; cbn [orb negb filter];
    rewrite ?M, ?IH; reflexivity.
Qed.

Lemma addAll_firstOccurrences (l acc : list jsstring) :
  addAll acc l = acc ++ firstOccurrences (filter (fun y => negb (mem y acc)) l).
Proof.
  unfold addAll. revert acc; induction l as [|x l IH]; intros acc.
  - cbn. now rewrite app_nil_r.
  - cbn [fold_left filter]. unfold add at 2. destruct (mem x acc) eqn:M; cbn [negb].
    + apply IH.
    + rewrite IH, <- app_assoc. cbn [app firstOccurrences]. f_equal. f_equal.
      now rewrite filter_mem_snoc, filter_filter_comm, <- firstOccurrences_filter.
Qed.

Lemma setOf_firstOccurrences (l : list jsstring) : setOf l = firstOccurrences l.
Proof.
  unfold setOf. rewrite addAll_firstOccurrences. cbn [app mem existsb negb].
  f_equal. induction l as [|x l IH]; [reflexivity|]. cbn [filter]. now rewrite IH.
Qed.

Lemma getAlternativePaths_alternatives (p : jsstring) (note : TFile) :
  getAlternativePaths p note = alternatives p note.
Proof.
  unfold getAlternativePaths, alternatives.
  rewrite setOf_firstOccurrences, variantsOf_variants. f_equal. f_equal.
  apply flat_map_ext. intros v. apply candidatesOf_candidates.
Qed.

Lemma triedPaths_tried (d : jsstring) (note : TFile) : triedPaths d note = tried d note.
Proof.
  unfold triedPaths, tried.
  now rewrite resolveImagePath_primary, getAlternativePaths_alternatives.
Qed.

(** *** What the resolution finds *)

Lemma locate_none (v : vault) (d : jsstring) (note : TFile) :
  locate v d note = None <->
  (forall c, In c (triedPaths d note) -> getAbstractFileByPath v c = None) /\
  findFileByBasename v (searchedName d) = None.
Proof.
  unfold locate, triedPaths. fold (searchedName d).
  destruct (getAbstractFileByPath v (resolveImagePath d note)) as [e|] eqn:P.
  - split; [discriminate|]. intros [H _].
    specialize (H _ (or_introl eq_refl)). congruence.
  - destruct (find _ (getAlternativePaths d note)) as [alt|] eqn:F.
    + apply find_some in F as [Hin Hex].
      destruct (getAbstractFileByPath v alt) as [e|] eqn:A; [|discriminate].
      split; [discriminate|]. intros [H _].
      specialize (H alt (or_intror Hin)). congruence.
    + pose proof (proj1 (find_none_iff _ _) F) as N.
      destruct (findFileByBasename v (searchedName d)) as [[f c]|] eqn:B.
      * split; [discriminate|]. intros [_ H]. discriminate.
      * split; [|reflexivity]. intros _. split; [|reflexivity].
        intros c [<-|Hc]; [exact P|].
        specialize (N c Hc). cbv beta in N.
        destruct (getAbstractFileByPath v c); [discriminate|reflexivity].
Qed.

(** The first tried path that names something decides. *)
Lemma locate_first (v : vault) (d : jsstring) (note : TFile)
      (pre : list jsstring) (c : jsstring) (post : list jsstring) (e : entry) :
  triedPaths d note = pre ++ c :: post ->
  (forall x, In x pre -> getAbstractFileByPath v x = None) ->
  getAbstractFileByPath v c = Some e ->
  locate v d note = Some e.
Proof.
  intros T Hpre Hc. unfold locate. unfold triedPaths in T. destruct pre as [|x pre].
  - injection T as <- _. now rewrite Hc.
  - injection T as <- T. rewrite (Hpre _ (or_introl eq_refl)). rewrite T.
    rewrite (find_first _ pre c post).
    + now rewrite Hc.
    + intros y Hy. now rewrite (Hpre y (or_intror Hy)).
    + now rewrite Hc.
Qed.

Lemma locate_folder (v : vault) (d : jsstring) (note : TFile) (q : jsstring) :
  locate v d note = Some (Folder q) ->
  exists pre c post,
    triedPaths d note = pre ++ c :: post /\
    (forall x, In x pre -> getAbstractFileByPath v x = None) /\
    getAbstractFileByPath v c = Some (Folder q).
Proof.
  unfold locate, triedPaths.
  destruct (getAbstractFileByPath v (resolveImagePath d note)) as [e|] eqn:P.
  - intros [= ->]. exists [], (resolveImagePath d note), (getAlternativePaths d note).
    repeat split; [intros x []|exact P].
  - destruct (find _ (getAlternativePaths d note)) as [alt|] eqn:F.
    + intros H. destruct (find_split _ _ _ F) as (pre & post & L & Hpre & _).
      exists (resolveImagePath d note :: pre), alt, post. rewrite L.
      repeat split; [|exact H].
      intros x [<-|Hx]; [exact P|]. specialize (Hpre x Hx). cbv beta in Hpre.
      destruct (getAbstractFileByPath v x); [discriminate|reflexivity].
    + destruct (findFileByBasename v _) as [[f c]|]; discriminate.
Qed.

(** The search by basename finds nothing exactly when no file has the
    name. *)
Lemma findFileByBasename_none (v : vault) (base : jsstring) :
  findFileByBasename v base = None <-> noFileNamed v base.
Proof.
  unfold findFileByBasename, noFileNamed. split.
  - intros H f c I.
    destruct (find (fun fc => JsString.eqb (name (fst fc)) base) (getFiles v)) eqn:F1;
      [discriminate|].
    pose proof (find_none _ _ F1 (f, c) I) as X. cbn [fst] in X. apply jseqb_neq in X.
    split; [exact X|]. intros D. rewrite D in H.
    pose proof (find_none _ _ H (f, c) I) as Y. cbn [fst] in Y.
    now rewrite jseqb_refl in Y.
  - intros H.
    destruct (find (fun fc => JsString.eqb (name (fst fc)) base) (getFiles v)) as [[g d]|] eqn:F1.
    + apply find_some in F1 as [I E]. apply jseqb_eq in E. now destruct (H g d I).
    + destruct (decodeURIComponent base) as [d|] eqn:D; [|reflexivity].
      destruct (find (fun fc => JsString.eqb (name (fst fc)) d) (getFiles v)) as [[g e]|] eqn:F2;
        [|reflexivity].
      apply find_some in F2 as [I E]. apply jseqb_eq in E. cbn [fst] in E. subst d.
      destruct (H g e I) as [_ X]. now elim X.
Qed.

(** The resolution ends without a file exactly when it reports that
    the image was not found. *)
Lemma resolvedFile_notFound (v : vault) (d : jsstring) (note : TFile) :
  resolvedFile v d note = None <-> notFound v d note.
Proof.
  unfold resolvedFile, notFound. rewrite <- triedPaths_tried.
  rewrite <- findFileByBasename_none. split.
  - destruct (locate v d note) as [[f c|q]|] eqn:L; [discriminate| |]; intros _.
    + left. destruct (locate_folder _ _ _ _ L) as (pre & c & post & H).
      now exists pre, c, post, q.
    + right. now apply locate_none.
  - intros [(pre & c & post & q & T & Hpre & Hc)|H].
    + now rewrite (locate_first v d note pre c post _ T Hpre Hc).
    + apply locate_none in H. now rewrite H.
Qed.

(** *** The errors of an upload *)

Lemma Raises_bind {A B} (P : error -> Prop) (c : M A) (k : A -> M B) :
  Raises P c -> (forall a, Raises P (k a)) -> Raises P (bind c k).
Proof.
  intros Hc Hk w e w' H. unfold bind in H.
  destruct (c w) as [[a|e1|] w1] eqn:C.
  - exact (Hk a _ _ _ H).
  - injection H as <- <-. exact (Hc _ _ _ C).
  - discriminate H.
Qed.

Lemma Raises_quiet {A} (P : error -> Prop) (c : M A) :
  (forall w, exists a w', c w = (Ok a, w')) -> Raises P c.
Proof. intros H w e w' C. destruct (H w) as (a & w1 & X). congruence. Qed.

Lemma Raises_throw {A} (P : error -> Prop) (e : error) : P e -> Raises P (@throw A e).
Proof. intros He w e' w' [= <- <-]. exact He. Qed.

Lemma Raises_stuck {A} (P : error -> Prop) : Raises P (@stuck A).
Proof. intros w e w' H. discriminate H. Qed.

Lemma Raises_tryFinally {A} (P : error -> Prop) (c : M A) (f : world -> world) :
  Raises P c -> Raises P (tryFinally c f).
Proof.
  intros Hc w e w' H. unfold tryFinally in H.
  destruct (c w) as [r w1] eqn:C. injection H as Hr _. subst r. exact (Hc _ _ _ C).
Qed.

Section Errors.

Variable E : env.

Lemma Raises_fetch (r : request) : Raises otherError (fetch E r).
Proof.
  intros w e w' H. unfold fetch in H.
  destruct (net E _); [|discriminate H]. injection H as <- _. exact I.
Qed.

Lemma messageOr_other (j : envelope) (e : error) : otherError e -> otherError (messageOr j e).
Proof.
  intros He. unfold messageOr. destruct (e_message j) as [msg|]; [|exact He].
  destruct (truthy msg); [exact I|exact He].
Qed.

Lemma Raises_acquireToken : Raises otherError (acquireToken E).
Proof.
  unfold acquireToken. apply Raises_bind.
  - apply Raises_quiet. intros w. now eexists _, _.
  - intros _. apply Raises_tryFinally. apply Raises_bind.
    + intros w e w' H. exact (Raises_fetch _ _ _ _ H).
    + intros res. destruct (negb (ok res)); [now apply Raises_throw|].
      apply Raises_bind.
      * unfold resJson. destruct (json res); [|now apply Raises_throw].
        apply Raises_quiet. intros w. now eexists _, _.
      * intros j. unfold tokenOf.
        destruct (negb (e_status j) || negb (truthyOpt (e_token j))).
        -- apply Raises_throw, messageOr_other. exact I.
        -- apply Raises_bind; [|intros _]; apply Raises_quiet; intros w; now eexists _, _.
Qed.

Lemma Raises_getToken (polls : nat) : Raises otherError (getToken E polls).
Proof.
  induction polls as [|n IH]; cbn [getToken].
  - apply Raises_bind; [apply Raises_quiet; intros w; now eexists _, _|].
    intros [|]; [apply Raises_stuck|apply Raises_acquireToken].
  - apply Raises_bind; [apply Raises_quiet; intros w; now eexists _, _|].
    intros [|]; [|apply Raises_acquireToken].
    apply Raises_bind; [apply Raises_quiet; intros w; now eexists _, _|].
    intros _. exact IH.
Qed.

Lemma Raises_authorizedFetchRec (depth polls : nat) (input : jsstring) (init : RequestInit) :
  forall retry401, Raises otherError (authorizedFetchRec E depth polls input init retry401).
Proof.
  induction depth as [|d IH]; intros retry401; cbn [authorizedFetchRec].
  - apply Raises_stuck.
  - apply Raises_bind; [apply Raises_quiet; intros w; now eexists _, _|].
    intros auth. apply Raises_bind; [apply Raises_fetch|].
    intros res. destruct ((status res =? 401)%N && retry401).
    + apply Raises_bind; [apply Raises_getToken|]. intros _. apply IH.
    + apply Raises_quiet. intros w. now eexists _, _.
Qed.

Lemma Raises_uploadBinary (polls : nat) (bin : binary) (filename : jsstring)
      (mimeType : mime) (strategyId : option N) :
  Raises otherError (uploadBinary E polls bin filename mimeType strategyId).
Proof.
  unfold uploadBinary.
  apply Raises_bind; [apply Raises_quiet; intros w; now eexists _, _|].
  intros base. apply Raises_bind; [apply Raises_authorizedFetchRec|].
  intros res. destruct (negb (ok res)); [now apply Raises_throw|].
  destruct (json res) as [j|]; [|now apply Raises_throw].
  destruct (negb (e_status j) || negb (truthyOpt (e_url j))).
  - apply Raises_throw, messageOr_other. exact I.
  - apply Raises_quiet. intros w. now eexists _, _.
Qed.

(** Without a file at the end of the resolution the upload throws that
    the image was not found, before any request. *)
Lemma uploadLocalImage_not_found (polls : nat) (p : jsstring) (note : TFile)
      (w : world) :
  resolvedFile (files w) (decodedOf p) note = None ->
  uploadLocalImage E polls p note w =
  (Throw (ImageNotFound (resolveImagePath (decodedOf p) note)), w).
Proof.
  unfold resolvedFile, uploadLocalImage, bind, gets.
  destruct (locate (files w) (decodedOf p) note) as [[f c|q]|]; [discriminate| |];
    reflexivity.
Qed.

(** With a file at the end of the resolution the upload does not throw
    that error. *)
Lemma uploadLocalImage_found (polls : nat) (p : jsstring) (note : TFile)
      (w : world) (f : TFile) (e : error) (w' : world) :
  resolvedFile (files w) (decodedOf p) note = Some f ->
  uploadLocalImage E polls p note w = (Throw e, w') ->
  otherError e.
Proof.
  unfold resolvedFile, uploadLocalImage. unfold bind at 1. unfold gets at 1.
  destruct (locate (files w) (decodedOf p) note) as [[g c|q]|]; try discriminate.
  intros _. revert w e w'.
  change (Raises otherError
            (bin <- read g ;;
             timestamp <- gets (fun w => now E (trace w)) ;;
             uploadBinary E polls bin
               (generateTimestampFilename timestamp
                  (replaceAll (Plus (NoneOfWord (js "-."))) (js "_") (name g)) (Some note))
               (getImageMimeType (extension g)) None)).
  apply Raises_bind.
  - intros w e w' H. unfold read in H.
    destruct (contentOf (files w) g); [discriminate H|]. injection H as <- _. exact I.
  - intros bin. apply Raises_bind; [apply Raises_quiet; intros w; now eexists _, _|].
    intros ts. apply Raises_uploadBinary.
Qed.

End Errors.

(** C6, as the code has it.  The alternatives of a path are the
    candidates of its normalized form and then those of its
    percent-decoded form when that is another string; each variant gives,
    in order, its primary resolution, the variant without the first
    attachments/ that it holds, the variant itself, the variant under
    attachments/ unless it begins so, the variant in the folder of the
    document unless the document is at the root, the variant under
    Attachments/, and its final segment in the folder named after the
    document unless the segment is empty; empty strings and repetitions
    of an earlier candidate are dropped.  The upload of a reference
    throws that the image was not found, with the primary path and
    before any request, exactly when the first tried path that names
    something names a folder, or no tried path names anything and the
    search of the store for the final segment finds no file. *)
Theorem alternatives_in_order_and_not_found (E : env) (polls : nat) (p : jsstring)
        (note : TFile) (w : world) :
  getAlternativePaths p note = alternatives p note /\
  (notFound (files w) (decodedOf p) note ->
   uploadLocalImage E polls p note w
   = (Throw (ImageNotFound (primary (decodedOf p) note)), w)) /\
  (forall a w', uploadLocalImage E polls p note w = (Throw (ImageNotFound a), w') ->
                notFound (files w) (decodedOf p) note).
Proof.
  split; [apply getAlternativePaths_alternatives|]. split.
  - intros H. apply resolvedFile_notFound in H.
    rewrite <- resolveImagePath_primary. now apply uploadLocalImage_not_found.
  - intros a w' H. apply resolvedFile_notFound.
    destruct (resolvedFile (files w) (decodedOf p) note) as [f|] eqn:R; [|reflexivity].
    elim (uploadLocalImage_found E polls p note w f _ w' R H).
Qed.

End Candidates.
(** ** C6 on the sample *)

Import Samples.


(** C6 as stated fails for a path that holds attachments/ past its
    start: the code removes the first occurrence wherever it is, and
    tries x/a.png, which is not in the list of the specification. *)
Lemma alternatives_strip_inner_attachments :
  ~ (forall (p : jsstring) (noteFile : TFile),
        getAlternativePaths p noteFile = Spec.listedAlternatives p noteFile).
Proof.
  intros H. specialize (H (js "x/attachments/a.png") note).
  vm_compute in H. discriminate H.
Qed.

(** A reference with a percent-encoded letter, from the sample note:
    the candidates of the raw form, then those of the decoded form that
    are new, the primary resolution of the decoded form first among
    them; a reference to an image that is nowhere in the vault is
    reported as not found. *)
Lemma alternatives_in_order_and_not_found_witness :
  getAlternativePaths (js "img/a%41.png") note
  = [js "notes/img/a%41.png"; js "img/a%41.png"; js "attachments/img/a%41.png";
     js "Attachments/img/a%41.png"; js "notes/Trip/a%41.png";
     js "notes/img/aA.png"; js "img/aA.png"; js "attachments/img/aA.png";
     js "Attachments/img/aA.png"; js "notes/Trip/aA.png"] /\
  uploadLocalImage (surroundings true) 0 (js "img/gone.png") note fresh
  = (Throw (ImageNotFound (js "notes/img/gone.png")), fresh).
Proof.
  split.
  - destruct (alternatives_in_order_and_not_found (surroundings true) 0 (js "img/a%41.png")
                note fresh) as (A & _).
    rewrite A. vm_compute. reflexivity.
  - destruct (alternatives_in_order_and_not_found (surroundings true) 0 (js "img/gone.png")
                note fresh) as (_ & B & _).
    apply B. right. split; [|apply findFileByBasename_none; vm_compute; reflexivity].
    intros c Hc. vm_compute in Hc.
    repeat (destruct Hc as [<-|Hc]; [vm_compute; reflexivity|]). destruct Hc.
Defined.
(** ** C10: an address that is not a URL *)

(** C10.  [getServerOrigin] returns the scheme and host of an address
    that parses as a URL and null of one that does not; on null the
    cleanup and the two downloads return at once: the notice of the
    invalid address is their only event, no request is sent and the
    vault is as it was. *)
Theorem invalid_server_address_stops (E : env) (fuel polls : nat) (serverUrl : jsstring)
        (w : world) :
  (forall u, parseUrl E serverUrl = Some u ->
             getServerOrigin E serverUrl = Some (protocol u ++ js "//" ++ host u)) /\
  (parseUrl E serverUrl = None -> getServerOrigin E serverUrl = None) /\
  (getServerOrigin E serverUrl = None ->
   Spec.stopsOnInvalidServer (cleanupUnusedImages E fuel polls serverUrl) w /\
   Spec.stopsOnInvalidServer (downloadImagesForCurrentNote E serverUrl) w /\
   Spec.stopsOnInvalidServer (downloadImagesForAllNotes E serverUrl) w).
Proof.
  split; [|split].
  - intros u H. unfold getServerOrigin. now rewrite H.
  - intros H. unfold getServerOrigin. now rewrite H.
  - intros H. unfold Spec.stopsOnInvalidServer, cleanupUnusedImages,
      downloadImagesForCurrentNote, downloadImagesForAllNotes.
    rewrite H. repeat split; eexists; (split; [reflexivity|]); repeat split.
Qed.
(** ** C3: the orphans and the declined confirmation *)

Section Orphans.

Import Spec.

Variable E : env.

(** The orphans are the items of the inventory whose URL is not used,
    in the order of the inventory. *)
Lemma unusedOf_spec (used : list jsstring) (all : list LskyImageItem) (img : LskyImageItem) :
  In img (unusedOf used all) <-> In img all /\ ~ In (links_url img) used.
Proof.
  unfold unusedOf. rewrite filter_In, negb_true_iff.
  split; intros [H1 H2]; split; auto.
  - intros H. apply mem_In in H. congruence.
  - destruct (mem (links_url img) used) eqn:M; [|reflexivity].
    apply mem_In in M. contradiction.
Qed.

Lemma Emits_collectLoop (origin : jsstring) (fs : list TFile) (set : list jsstring) :
  Emits (fun _ => False) (collectLoop origin fs set).
Proof.
  revert set; induction fs as [|f fs IH]; intros set; cbn [collectLoop].
  - apply Emits_ret.
  - apply Emits_bind; [apply Emits_read|intros c; apply IH].
Qed.

Lemma Emits_collectUsedImageUrls (origin : jsstring) :
  Emits (fun _ => False) (collectUsedImageUrls origin).
Proof.
  unfold collectUsedImageUrls.
  apply Emits_bind; [apply Emits_gets|intros fs; apply Emits_collectLoop].
Qed.

Lemma Forall_False_nil {A} (l : list A) : Forall (fun _ => False) l -> l = [].
Proof. destruct 1; [reflexivity|contradiction]. Qed.

Lemma deletions_harmless (evs : list event) : Forall harmless evs -> deletions evs = [].
Proof.
  induction 1 as [|e evs [_ He] _ IH]; [reflexivity|].
  unfold deletions in *. simpl. now rewrite He.
Qed.

Lemma writes_harmless (evs : list event) : Forall harmless evs -> writes evs = [].
Proof.
  induction 1 as [|e evs [He _] _ IH]; [reflexivity|].
  unfold writes in *. simpl. now rewrite He.
Qed.

Lemma Emits_listAllImages_harmless (fuel polls : nat) :
  Emits harmless (listAllImages E fuel polls).
Proof.
  apply Emits_listAllImages.
  - intros ms. split; reflexivity.
  - intros r H. unfold harmless. simpl. now rewrite H.
  - intros r H. unfold harmless. simpl. now rewrite H.
Qed.

(** The cleanup once both reads have succeeded. *)
Lemma cleanupUnusedImages_read (fuel polls : nat) (serverUrl origin : jsstring)
      (w w2 w3 : world) (used : list jsstring) (all : list LskyImageItem) :
  getServerOrigin E serverUrl = Some origin ->
  collectUsedImageUrls origin (record (Show ScanStarted) w) = (Ok used, w2) ->
  listAllImages E fuel polls w2 = (Ok all, w3) ->
  cleanupUnusedImages E fuel polls serverUrl w =
  match unusedOf used all with
  | [] => show NothingToClean w3
  | _ :: _ =>
      (confirmed <- confirmCleanup E (unusedOf used all) (List.length all) ;;
       if negb confirmed then show CleanupCancelled
       else
         emit (Bar POpen) ;;;
         emit (Bar (PSetTotal (List.length (unusedOf used all)))) ;;;
         acc <- deleteLoop E polls (unusedOf used all) ([], []) ;;
         emit (Bar PClose) ;;;
         showCleanupResult (fst acc) (snd acc)) w3
  end.
Proof.
  intros Ho Hu Hl. unfold cleanupUnusedImages. rewrite Ho.
  unfold bind at 1. unfold show at 1, emit at 1, update at 1.
  unfold bind at 1. unfold promiseAll. rewrite Hu, Hl. cbn [fst snd].
  destruct (unusedOf used all); reflexivity.
Qed.

(** C3.  Once the used URLs and the inventory are read, the orphans are
    the items of the inventory whose [links.url] is not among the used
    URLs.  With no orphan the cleanup stops on the notice that there is
    nothing to clean.  When the user declines, it returns after the
    dialog and the notice of the cancellation: no deletion request is
    sent and nothing is written. *)
Theorem cleanup_orphans_and_decline (fuel polls : nat) (serverUrl origin : jsstring)
        (w w2 w3 : world) (used : list jsstring) (all : list LskyImageItem) :
  getServerOrigin E serverUrl = Some origin ->
  collectUsedImageUrls origin (record (Show ScanStarted) w) = (Ok used, w2) ->
  listAllImages E fuel polls w2 = (Ok all, w3) ->
  let orphans := unusedOf used all in
  (forall img, In img orphans <-> In img all /\ ~ In (links_url img) used) /\
  (orphans = [] ->
   cleanupUnusedImages E fuel polls serverUrl w = (Ok tt, record (Show NothingToClean) w3)) /\
  (orphans <> [] ->
   confirms E (trace w3 ++ [Confirm orphans (List.length all)]) = false ->
   exists w',
     cleanupUnusedImages E fuel polls serverUrl w = (Ok tt, w') /\
     trace w' = trace w3 ++ [Confirm orphans (List.length all); Show CleanupCancelled] /\
     deletions (trace w') = deletions (trace w) /\
     writes (trace w') = writes (trace w) /\
     files w' = files w).
Proof.
  intros Ho Hu Hl orphans.
  split; [intros img; apply unusedOf_spec|].
  pose proof (cleanupUnusedImages_read fuel polls serverUrl origin w w2 w3 used all Ho Hu Hl)
    as Run.
  fold orphans in Run.
  split.
  - intros H0. rewrite Run, H0. reflexivity.
  - intros Hne Hno. rewrite Run.
    destruct orphans as [|o os] eqn:Eo; [contradiction|].
    unfold bind at 1. unfold confirmCleanup.
    unfold bind, emit, update, gets. cbn [trace record]. rewrite Hno. cbn [negb].
    eexists. split; [reflexivity|].
    destruct (Emits_collectUsedImageUrls origin _ _ _ Hu) as (F2 & A2 & ev2 & T2 & Q2).
    apply Forall_False_nil in Q2. subst ev2. rewrite app_nil_r in T2.
    destruct (Emits_listAllImages_harmless fuel polls _ _ _ Hl) as (F3 & A3 & ev3 & T3 & Q3).
    cbn [trace record files show emit update].
    split; [now rewrite <- app_assoc|].
    split; [|split].
    + rewrite T3, T2. cbn [trace record]. unfold deletions.
      rewrite !filter_app. fold (deletions ev3). rewrite (deletions_harmless _ Q3).
      simpl. now rewrite !app_nil_r.
    + rewrite T3, T2. cbn [trace record]. unfold writes.
      rewrite !filter_app. fold (writes ev3). rewrite (writes_harmless _ Q3).
      simpl. now rewrite !app_nil_r.
    + rewrite F3, F2. reflexivity.
Qed.

End Orphans.
(** ** The sample installation *)

Import Samples.

(** A 401 answer, a granted token and the second answer: one refresh,
    the request sent twice, the second time with the new token.  With a
    server that answers 401 again, the second 401 response is what the
    caller gets, and the listing throws HTTP 401. *)
Lemma authorizedFetch_refresh_once_witness :
  isFetchingToken stale = false /\
  (exists r w',
     authorizedFetch (surroundings true) 0 (address ++ js "/images?page=1") getPage true stale
       = (r, w') /\
     Spec.refreshes (trace w') = 1 /\
     Spec.issued (address ++ js "/images?page=1") (trace w') = 2 /\
     token (config w') = Some (js "new") /\
     r = Spec.fetched (page 1)) /\
  (exists res w',
     authorizedFetch deaf 0 (address ++ js "/images?page=1") getPage true stale
       = (Ok res, w') /\
     status res = 401%N /\ ok res = false /\
     Spec.refreshes (trace w') = 1 /\
     Spec.issued (address ++ js "/images?page=1") (trace w') = 2 /\
     listAllImages deaf 2 0 stale = (Throw (Http 401 []), w')).
Proof.
  split; [reflexivity|]. split.
  - destruct (authorizedFetch_refresh_once (surroundings true) 0
                (address ++ js "/images?page=1") getPage stale eq_refl)
      as [(r & w' & H & H') _].
    exists r, w'. split; [exact H|].
    vm_compute in H. injection H as <- <-.
    repeat split.
  - destruct (authorizedFetch_refresh_once deaf 0
                (address ++ js "/images?page=1") getPage stale eq_refl)
      as [(r & w' & H & _) L].
    pose (res := {| status := 401%N; json := None; text := None |}).
    assert (R : r = Ok res) by (vm_compute in H; now injection H as <- _).
    subst r. exists res, w'. split; [exact H|].
    split; [reflexivity|]. split; [reflexivity|].
    destruct (L res w' eq_refl) as (_ & P & _).
    specialize (P 2 H).
    vm_compute in H. injection H as <-.
    split; [reflexivity|]. split; [reflexivity|exact P].
Defined.

(** When the refresh fails, the server having answered 401 and then
    refused the credentials, the error of the refresh is thrown and the
    request is not sent a second time. *)
Lemma authorizedFetch_failed_refresh_run :
  exists w',
    authorizedFetch (surroundings false) 0 (address ++ js "/images?page=1") getPage true stale
      = (Throw (Http 500 []), w') /\
    Spec.issued (address ++ js "/images?page=1") (trace w') = 1 /\
    Spec.refreshes (trace w') = 1.
Proof. eexists. split; [vm_compute; reflexivity|]. split; reflexivity. Qed.

Lemma last_snoc {A} (l : list A) (x d : A) : last (l ++ [x]) d = x.
Proof. apply last_last. Qed.

Lemma sample_servesPages : Spec.servesPages (surroundings true) fresh 3 pageItems.
Proof.
  intros tr k Hk. cbn [net surroundings]. unfold server. rewrite last_snoc.
  assert (K : k = 1 \/ k = 2 \/ k = 3) by lia.
  destruct K as [->|[->| ->]]; vm_compute; eexists _, _; repeat split.
Qed.

(** Three pages of one item each. *)
Lemma listAllImages_pages_in_order_witness :
  1 <= 3 /\ 3 <= S 2 /\ Spec.servesPages (surroundings true) fresh 3 pageItems /\
  exists w',
    listAllImages (surroundings true) 2 0 fresh = (Ok [itemA; itemB; itemC], w') /\
    trace w' =
      [Fetch (Spec.pageRequest fresh 1); Sleep 80;
       Fetch (Spec.pageRequest fresh 2); Sleep 80;
       Fetch (Spec.pageRequest fresh 3); Sleep 80].
Proof.
  split; [lia|]. split; [lia|]. split; [exact sample_servesPages|].
  destruct (listAllImages_pages_in_order (surroundings true) 2 0 3 pageItems fresh
              ltac:(lia) ltac:(lia) sample_servesPages) as (w' & H1 & H2).
  exists w'. split; [exact H1|exact H2].
Defined.

(** An address that does not parse. *)
Lemma invalid_server_address_stops_witness :
  getServerOrigin (surroundings true) (js "lsky.example.com") = None /\
  Spec.stopsOnInvalidServer
    (cleanupUnusedImages (surroundings true) 2 0 (js "lsky.example.com")) fresh /\
  Spec.stopsOnInvalidServer
    (downloadImagesForCurrentNote (surroundings true) (js "lsky.example.com")) fresh /\
  Spec.stopsOnInvalidServer
    (downloadImagesForAllNotes (surroundings true) (js "lsky.example.com")) fresh.
Proof.
  split; [reflexivity|].
  apply (invalid_server_address_stops (surroundings true) 2 0 (js "lsky.example.com") fresh).
  reflexivity.
Defined.
(** The inventory A, B, C with B used in a note, and a user who
    declines: the orphans are A and C, and nothing is deleted. *)
Lemma cleanup_orphans_and_decline_witness :
  getServerOrigin (surroundings true) address = Some origin /\
  unusedOf [links_url itemB] [itemA; itemB; itemC] = [itemA; itemC] /\
  exists w',
    cleanupUnusedImages (surroundings true) 2 0 address fresh = (Ok tt, w') /\
    In (Confirm [itemA; itemC] 3) (trace w') /\
    Spec.deletions (trace w') = [] /\
    files w' = files fresh.
Proof.
  split; [reflexivity|]. split; [reflexivity|].
  pose (w1 := record (Show ScanStarted) fresh).
  pose (w2 := snd (collectUsedImageUrls origin w1)).
  pose (w3 := snd (listAllImages (surroundings true) 2 0 w2)).
  assert (H2 : collectUsedImageUrls origin w1 = (Ok [links_url itemB], w2))
    by (vm_compute; reflexivity).
  assert (H3 : listAllImages (surroundings true) 2 0 w2 = (Ok [itemA; itemB; itemC], w3))
    by (vm_compute; reflexivity).
  destruct (cleanup_orphans_and_decline (surroundings true) 2 0 address origin
              fresh w2 w3 [links_url itemB] [itemA; itemB; itemC] eq_refl H2 H3)
    as (_ & _ & H).
  destruct H as (w' & R & T & D & _ & F); [discriminate|reflexivity|].
  exists w'. split; [exact R|]. split; [|split; [exact D|exact F]].
  rewrite T. apply in_or_app. right. left. reflexivity.
Defined.
(** ** Scanning a document line by line *)

Section Scanning.

Import Spec.

Variable R : regex.

Lemma hits_app (a b : list piece) : hits (a ++ b) = hits a ++ hits b.
Proof.
  induction a as [|[c|i mt cp] a IH]; simpl; [reflexivity|exact IH|now rewrite IH].
Qed.

Lemma hits_Keep (a : jsstring) : hits (List.map Keep a) = [].
Proof. induction a; simpl; auto. Qed.

Lemma rebuild_app (str tmpl : jsstring) (a b : list piece) :
  rebuild str tmpl (a ++ b) = rebuild str tmpl a ++ rebuild str tmpl b.
Proof.
  induction a as [|[c|i mt cp] a IH]; simpl; [reflexivity|now rewrite IH|].
  now rewrite IH, app_assoc.
Qed.

Lemma rebuild_Keep (str tmpl a : jsstring) : rebuild str tmpl (List.map Keep a) = a.
Proof. induction a; simpl; [reflexivity|now f_equal]. Qed.


Lemma scan_skip (a rest : jsstring) :
  forall i, scan R i (a ++ rest) (List.length a) = scan R (i + List.length a) rest 0.
Proof.
  induction a as [|c a IH]; intros i; simpl.
  - rewrite Nat.add_0_r. destruct rest; reflexivity.
  - rewrite IH. now rewrite Nat.add_succ_r.
Qed.

Lemma scan_skip_some (n : nat) (a rest : jsstring) :
  forall i, n <= List.length a ->
  scan R i (a ++ rest) n = scan R (i + n) (skipn n a ++ rest) 0.
Proof.
  intros i Hn.
  pose proof (scan_skip (firstn n a) (skipn n a ++ rest) i) as H.
  rewrite app_assoc, firstn_skipn, (firstn_length_le a Hn) in H. exact H.
Qed.

Hypothesis HR : startsOnOpener R.

Lemma scan_keeps (a rest : jsstring) :
  Forall (fun c => opener c = false) a ->
  forall i, scan R i (a ++ rest) 0 = List.map Keep a ++ scan R (i + List.length a) rest 0.
Proof.
  induction 1 as [|c a Hc _ IH]; intros i; simpl.
  - now rewrite Nat.add_0_r.
  - rewrite (proj1 HR i c (a ++ rest) Hc). rewrite IH. now rewrite Nat.add_succ_r.
Qed.

(** A line on which the regex does not match at the start. *)
Lemma scan_line_miss (c0 : N) (l rest : jsstring) (i : nat) :
  matchAt R i (c0 :: l ++ rest) = None ->
  Forall (fun c => opener c = false) l ->
  scan R i ((c0 :: l) ++ rest) 0 =
  List.map Keep (c0 :: l) ++ scan R (i + List.length (c0 :: l)) rest 0.
Proof.
  intros M H. cbn [app scan]. rewrite M. rewrite (scan_keeps l rest H).
  cbn [List.map List.length app]. now rewrite Nat.add_succ_r.
Qed.

(** A line on which the regex matches at the start, within the line. *)
Lemma scan_line_hit (c0 : N) (l rest : jsstring) (i n : nat) (cp : option jsstring) :
  matchAt R i (c0 :: l ++ rest) = Some (S n, cp) ->
  n <= List.length l ->
  Forall (fun c => opener c = false) l ->
  scan R i ((c0 :: l) ++ rest) 0 =
  Hit i (firstn (S n) (c0 :: l)) cp
    :: List.map Keep (skipn n l) ++ scan R (i + List.length (c0 :: l)) rest 0.
Proof.
  intros M Hn H. cbn [app scan]. rewrite M.
  rewrite (scan_skip_some n l rest (S i) Hn).
  assert (Hs : Forall (fun c => opener c = false) (skipn n l)).
  { rewrite <- (firstn_skipn n l) in H. now apply Forall_app in H. }
  rewrite (scan_keeps (skipn n l) rest Hs).
  cbn [firstn]. rewrite firstn_app.
  replace (n - List.length l) with 0 by lia. cbn [firstn]. rewrite app_nil_r.
  rewrite length_skipn. cbn [List.length].
  do 3 f_equal. lia.
Qed.

(** The same for text in which no reference begins. *)

Lemma still_app (a b rest : jsstring) :
  still (a ++ b) rest = still a (b ++ rest) && still b rest.
Proof.
  induction a as [|c a IH]; [reflexivity|].
  cbn [app still]. rewrite IH, <- !app_assoc, !andb_assoc. reflexivity.
Qed.

Lemma still_nonopener (a rest : jsstring) :
  Forall (fun c => opener c = false) a -> still a rest = true.
Proof.
  induction 1 as [|c a Hc _ IH]; [reflexivity|].
  cbn [still]. rewrite IH. unfold opener in Hc. apply orb_false_iff in Hc as [A B].
  eval_js. cbn [app startsWith]. now rewrite (N.eqb_sym 33), A, (N.eqb_sym 60), B.
Qed.

(** A prefix that is cut short by a character that it does not hold. *)
Lemma startsWith_cut (mark t : jsstring) (c : N) (rest : jsstring) :
  startsWith mark t = false -> ~ In c mark ->
  startsWith mark (t ++ c :: rest) = false.
Proof.
  revert t; induction mark as [|x mark IH]; intros t H N; [discriminate H|].
  destruct t as [|y t]; cbn [app startsWith] in *.
  - destruct (N.eqb_spec x c) as [->|]; [|reflexivity]. elim N. now left.
  - destruct (N.eqb x y); [|reflexivity]. cbn [andb] in *.
    apply IH; [exact H|]. intros X. apply N. now right.
Qed.

Lemma still_line (t rest : jsstring) :
  markFree t = true -> still (t ++ [10%N]) rest = true.
Proof.
  unfold markFree. induction t as [|c t IH]; intros H; [reflexivity|].
  apply andb_true_iff in H as [A B].
  apply negb_true_iff in A, B. cbn [includes] in A, B.
  apply orb_false_iff in A as [A1 A2], B as [B1 B2].
  assert (E1 : startsWith (js "![") (((c :: t) ++ [10%N]) ++ rest) = false).
  { rewrite <- app_assoc. apply startsWith_cut; [exact A1|].
    vm_compute. intuition discriminate. }
  assert (E2 : startsWith (js "<img") (((c :: t) ++ [10%N]) ++ rest) = false).
  { rewrite <- app_assoc. apply startsWith_cut; [exact B1|].
    vm_compute. intuition discriminate. }
  change ((c :: t) ++ [10%N]) with (c :: (t ++ [10%N])) in *.
  cbn [still]. rewrite E1, E2, IH; [reflexivity|]. now rewrite A2, B2.
Qed.

Hypothesis HM : startsOnMark R.

Lemma scan_still (a rest : jsstring) :
  still a rest = true ->
  forall i, scan R i (a ++ rest) 0 = List.map Keep a ++ scan R (i + List.length a) rest 0.
Proof.
  induction a as [|c a IH]; intros H i.
  - simpl. now rewrite Nat.add_0_r.
  - cbn [still] in H. apply andb_true_iff in H as [H S]. apply andb_true_iff in H as [A B].
    apply negb_true_iff in A, B.
    cbn [app scan List.map List.length]. cbn [app] in A, B. rewrite (HM i _ A B).
    rewrite (IH S). now rewrite Nat.add_succ_r.
Qed.

(** A line on which the regex does not match at the start. *)
Lemma scan_line_pass (c0 : N) (l rest : jsstring) (i : nat) :
  matchAt R i (c0 :: l ++ rest) = None ->
  still l rest = true ->
  scan R i ((c0 :: l) ++ rest) 0 =
  List.map Keep (c0 :: l) ++ scan R (i + List.length (c0 :: l)) rest 0.
Proof.
  intros M H. cbn [app scan]. rewrite M. rewrite (scan_still l rest H).
  cbn [List.map List.length app]. now rewrite Nat.add_succ_r.
Qed.

(** A line on which the regex matches at the start, within the line. *)
Lemma scan_line_take (c0 : N) (l rest : jsstring) (i n : nat) (cp : option jsstring) :
  matchAt R i (c0 :: l ++ rest) = Some (S n, cp) ->
  n <= List.length l ->
  still l rest = true ->
  scan R i ((c0 :: l) ++ rest) 0 =
  Hit i (firstn (S n) (c0 :: l)) cp
    :: List.map Keep (skipn n l) ++ scan R (i + List.length (c0 :: l)) rest 0.
Proof.
  intros M Hn H. cbn [app scan]. rewrite M.
  rewrite (scan_skip_some n l rest (S i) Hn).
  assert (Hs : still (skipn n l) rest = true).
  { rewrite <- (firstn_skipn n l), still_app in H. now apply andb_true_iff in H as [_ H]. }
  rewrite (scan_still (skipn n l) rest Hs).
  cbn [firstn]. rewrite firstn_app.
  replace (n - List.length l) with 0 by lia. cbn [firstn]. rewrite app_nil_r.
  rewrite length_skipn. cbn [List.length].
  do 3 f_equal. lia.
Qed.

End Scanning.
(** ** Documents of one item per line *)

Section Characters.

Import Spec.

(** A character outside the special ones differs from each of them. *)
Lemma special_out (c : N) :
  existsb (N.eqb c) special = false ->
  (c =? 33)%N = false /\ (c =? 91)%N = false /\ (c =? 93)%N = false /\
  (c =? 40)%N = false /\ (c =? 41)%N = false /\ (c =? 60)%N = false /\
  (c =? 62)%N = false /\ (c =? 34)%N = false /\ (c =? 36)%N = false /\
  (c =? 92)%N = false.
Proof.
  intros H. change special with [33; 91; 93; 40; 41; 60; 62; 34; 36; 92]%N in H.
  cbn [existsb] in H. repeat (apply orb_false_iff in H as [? H]).
  repeat split; assumption.
Qed.

Lemma altChar_out (c : N) : altChar c = true -> existsb (N.eqb c) special = false.
Proof.
  unfold altChar. intros H. apply andb_true_iff in H as [H _].
  now apply negb_true_iff in H.
Qed.

Lemma pathChar_out (c : N) : pathChar c = true -> existsb (N.eqb c) special = false.
Proof.
  unfold pathChar. intros H. apply andb_true_iff in H as [H _].
  now apply negb_true_iff in H.
Qed.

Lemma pathChar_altChar (c : N) : pathChar c = true -> altChar c = true.
Proof.
  unfold pathChar, altChar, isSpace. intros H. apply andb_true_iff in H as [H1 H2].
  rewrite H1. apply negb_true_iff in H2. apply orb_false_iff in H2 as [_ H2].
  now rewrite H2.
Qed.

Lemma altChar_nonopener (c : N) : altChar c = true -> opener c = false.
Proof.
  intros H. destruct (special_out c (altChar_out c H)) as (A & _ & _ & _ & _ & B & _).
  unfold opener. now rewrite A, B.
Qed.

Lemma Forall_alt_nonopener (a : jsstring) :
  forallb altChar a = true -> Forall (fun c => opener c = false) a.
Proof.
  intros H. apply Forall_forall. intros c Hc.
  apply altChar_nonopener. rewrite forallb_forall in H. now apply H.
Qed.

Lemma Forall_path_nonopener (p : jsstring) :
  forallb pathChar p = true -> Forall (fun c => opener c = false) p.
Proof.
  intros H. apply Forall_forall. intros c Hc.
  apply altChar_nonopener, pathChar_altChar. rewrite forallb_forall in H. now apply H.
Qed.

Lemma wellFormedPath_chars (p : jsstring) :
  wellFormedPath p = true -> p <> [] /\ forallb pathChar p = true.
Proof.
  unfold wellFormedPath. intros H. apply andb_true_iff in H as [H1 H2].
  split; [|exact H2]. intros ->. discriminate H1.
Qed.

Lemma markFree_tail (c : N) (t : jsstring) : markFree (c :: t) = true -> markFree t = true.
Proof.
  unfold markFree. intros H. apply andb_true_iff in H as [A B].
  apply negb_true_iff in A, B. cbn [includes] in A, B.
  apply orb_false_iff in A as [_ A], B as [_ B]. now rewrite A, B.
Qed.

(** After its first character no reference begins in a line. *)
Lemma line_shape (x : item) :
  wellFormed x = true ->
  exists c0 l, render x ++ [10%N] = c0 :: l /\ forall rest, still l rest = true.
Proof.
  destruct x as [a p|p|p|t]; cbn [wellFormed render]; intros H.
  - apply andb_true_iff in H as [Ha Hp]. apply wellFormedPath_chars in Hp as [_ Hp].
    eval_js. rewrite <- !app_assoc. cbn [app].
    eexists _, _. split; [reflexivity|]. intros rest. apply still_nonopener.
    constructor; [reflexivity|].
    apply Forall_app. split; [now apply Forall_alt_nonopener|].
    constructor; [reflexivity|]. constructor; [reflexivity|].
    apply Forall_app. split; [now apply Forall_path_nonopener|].
    repeat constructor.
  - apply wellFormedPath_chars in H as [_ Hp].
    eval_js. unfold dq. rewrite <- !app_assoc. cbn [app].
    eexists _, _. split; [reflexivity|]. intros rest. apply still_nonopener.
    do 9 (constructor; [reflexivity|]).
    apply Forall_app. split; [now apply Forall_path_nonopener|].
    repeat constructor.
  - apply wellFormedPath_chars in H as [_ Hp].
    eval_js. rewrite <- !app_assoc. cbn [app].
    eexists _, _. split; [reflexivity|]. intros rest. apply still_nonopener.
    do 2 (constructor; [reflexivity|]).
    apply Forall_app. split; [now apply Forall_path_nonopener|].
    repeat constructor.
  - destruct t as [|c t]; [exists 10%N, []; split; [reflexivity|reflexivity]|].
    exists c, (t ++ [10%N]). split; [reflexivity|].
    intros rest. apply still_line. now apply (markFree_tail c).
Qed.

End Characters.

Section Documents.

Import Spec.

Variable R : regex.
Variable h : item -> option (nat * option jsstring).

Hypothesis HM : startsOnMark R.

(** [h] tells the match of the regex at the start of each line. *)
Hypothesis Hh : forall (x : item) (i : nat) (rest : jsstring),
  wellFormed x = true ->
  match h x with
  | Some (len, cp) =>
      matchAt R i (render x ++ 10%N :: rest) = Some (len, cp) /\
      1 <= len <= List.length (render x)
  | None => matchAt R i (render x ++ 10%N :: rest) = None
  end.

Lemma scan_line (x : item) (rest : jsstring) (i : nat) :
  wellFormed x = true ->
  exists keeps,
    scan R i ((render x ++ [10%N]) ++ rest) 0 =
    match h x with
    | Some (len, cp) => Hit i (firstn len (render x)) cp :: List.map Keep keeps
    | None => List.map Keep keeps
    end ++ scan R (i + List.length (render x ++ [10%N])) rest 0 /\
    keeps = match h x with
            | Some (len, _) => skipn len (render x) ++ [10%N]
            | None => render x ++ [10%N]
            end.
Proof.
  intros W. destruct (line_shape x W) as (c0 & l & L & F).
  pose proof (Hh x i rest W) as M.
  assert (LL : List.length (render x) = List.length l).
  { apply (f_equal (@List.length N)) in L. rewrite length_app in L. simpl in L. lia. }
  replace (render x ++ 10%N :: rest) with ((c0 :: l) ++ rest) in M
    by (rewrite <- L, <- app_assoc; reflexivity).
  rewrite L.
  destruct (h x) as [[len cp]|].
  - destruct M as [M [Hl1 Hl2]]. destruct len as [|n]; [lia|].
    eexists. split; [|reflexivity].
    rewrite (scan_line_take R HM c0 l rest i n cp M ltac:(lia) (F rest)).
    cbn [app]. f_equal.
    + f_equal. rewrite <- L. rewrite firstn_app.
      replace (S n - List.length (render x)) with 0 by lia.
      cbn [firstn]. now rewrite app_nil_r.
    + f_equal. f_equal.
      assert (E : skipn (S n) (render x ++ [10%N]) = skipn (S n) (render x) ++ [10%N]).
      { rewrite skipn_app. replace (S n - List.length (render x)) with 0 by lia.
        reflexivity. }
      rewrite <- E, L. reflexivity.
  - eexists. split; [|reflexivity].
    now rewrite (scan_line_pass R HM c0 l rest i M (F rest)).
Qed.

(** The matches of the regex in a document, line by line. *)
Lemma hits_document (xs : list item) :
  Forall (fun x => wellFormed x = true) xs ->
  forall i,
    hits (scan R i (document xs) 0) =
    flat_map (fun x => match h x with
                       | Some (len, cp) => [(firstn len (render x), cp)]
                       | None => []
                       end) xs.
Proof.
  induction 1 as [|x xs W _ IH]; intros i.
  - simpl. now rewrite (HM i [] eq_refl eq_refl).
  - cbn [document flat_map]. fold (document xs).
    destruct (scan_line x (document xs) i W) as (keeps & S & _).
    rewrite S, hits_app, IH.
    destruct (h x) as [[len cp]|]; cbn [hits]; now rewrite hits_Keep.
Qed.


End Documents.
(** ** The matcher on inputs that are given in parts *)

Section MatcherSteps.

Variable k : cont.

Lemma skipn_length_app {A} (l s : list A) : skipn (List.length l) (l ++ s) = s.
Proof. induction l; simpl; auto. Qed.

Lemma m_Lit_app (l s : jsstring) (i : nat) (cp : option jsstring) :
  m (Lit l) k i (l ++ s) cp = k (i + List.length l) s cp.
Proof. now rewrite m_Lit, startsWith_app, skipn_length_app. Qed.

Lemma m_Lit_miss (x : N) (l : jsstring) (c : N) (s : jsstring) (i : nat)
      (cp : option jsstring) :
  (c =? x)%N = false -> m (Lit (x :: l)) k i (c :: s) cp = None.
Proof. intros H. cbn [Lit m cmatch]. now rewrite N.eqb_sym, H. Qed.

Lemma m_Lit_end (x : N) (l : jsstring) (i : nat) (cp : option jsstring) :
  m (Lit (x :: l)) k i [] cp = None.
Proof. reflexivity. Qed.

Lemma m_One_hit (cs : cset) (c : N) (s : jsstring) (i : nat) (cp : option jsstring) :
  cmatch cs c = true -> m (One cs) k i (c :: s) cp = k (S i) s cp.
Proof. intros H. cbn [m]. now rewrite H. Qed.

Lemma m_One_miss (cs : cset) (c : N) (s : jsstring) (i : nat) (cp : option jsstring) :
  cmatch cs c = false -> m (One cs) k i (c :: s) cp = None.
Proof. intros H. cbn [m]. now rewrite H. Qed.

Lemma m_LazyStar_here (cs : cset) (i : nat) (s : jsstring) (cp : option jsstring)
      (r : result) :
  k i s cp = Some r -> m (LazyStar cs) k i s cp = Some r.
Proof. intros H. cbn [m]. destruct s; cbn [lazyStar]; now rewrite H. Qed.

Lemma m_LazyStar_stop (cs : cset) (c : N) (s : jsstring) (i : nat) (cp : option jsstring) :
  k i (c :: s) cp = None -> cmatch cs c = false ->
  m (LazyStar cs) k i (c :: s) cp = None.
Proof. intros H C. cbn [m lazyStar]. now rewrite H, C. Qed.

Lemma m_LazyStar_step (cs : cset) (c : N) (s : jsstring) (i : nat) (cp : option jsstring) :
  k i (c :: s) cp = None -> cmatch cs c = true ->
  m (LazyStar cs) k i (c :: s) cp = m (LazyStar cs) k (S i) s cp.
Proof. intros H C. cbn [m lazyStar]. now rewrite H, C. Qed.

Lemma m_LazyStar_end (cs : cset) (i : nat) (cp : option jsstring) :
  k i [] cp = None -> m (LazyStar cs) k i [] cp = None.
Proof. intros H. cbn [m lazyStar]. now rewrite H. Qed.

(** The lazy star passes over a stretch on which the continuation fails
    everywhere. *)
Lemma m_LazyStar_skip (cs : cset) (a s : jsstring) (cp : option jsstring) :
  Forall (fun c => cmatch cs c = true) a ->
  forall i,
    (forall a1 c a2, a = a1 ++ c :: a2 ->
                     k (i + List.length a1) (c :: a2 ++ s) cp = None) ->
    m (LazyStar cs) k i (a ++ s) cp = m (LazyStar cs) k (i + List.length a) s cp.
Proof.
  induction 1 as [|c a Hc _ IH]; intros i H.
  - simpl. now rewrite Nat.add_0_r.
  - pose proof (H [] c a eq_refl) as H0. simpl in H0. rewrite Nat.add_0_r in H0.
    cbn [m] in *. cbn [app lazyStar]. rewrite H0, Hc.
    rewrite IH.
    + cbn [List.length]. now rewrite Nat.add_succ_r.
    + intros a1 d a2 E. specialize (H (c :: a1) d a2). cbn [app List.length] in H.
      rewrite Nat.add_succ_r in H. apply H. now rewrite E.
Qed.

(** The greedy star runs to the end of a stretch when the match goes on
    from there. *)
Lemma m_Star_run (cs : cset) (a s : jsstring) (cp : option jsstring) (r : result) :
  Forall (fun c => cmatch cs c = true) a ->
  forall i,
    m (Star cs) k (i + List.length a) s cp = Some r ->
    m (Star cs) k i (a ++ s) cp = Some r.
Proof.
  induction 1 as [|c a Hc _ IH]; intros i H.
  - simpl in *. now rewrite Nat.add_0_r in H.
  - cbn [m] in *. cbn [app greedyStar]. rewrite Hc.
    rewrite IH; [reflexivity|]. cbn [List.length] in H. now rewrite Nat.add_succ_r in H.
Qed.

Lemma m_Star_stop (cs : cset) (c : N) (s : jsstring) (i : nat) (cp : option jsstring) :
  cmatch cs c = false -> m (Star cs) k i (c :: s) cp = k i (c :: s) cp.
Proof. intros H. cbn [m greedyStar]. now rewrite H. Qed.

Lemma m_Star_end (cs : cset) (i : nat) (cp : option jsstring) :
  m (Star cs) k i [] cp = k i [] cp.
Proof. reflexivity. Qed.

(** The greedy star gives back a stretch on which the continuation fails
    at every later position. *)
Lemma m_Star_back (cs : cset) (a : jsstring) (c : N) (s : jsstring)
      (cp : option jsstring) :
  Forall (fun c => cmatch cs c = true) a ->
  cmatch cs c = false ->
  forall i,
    (forall a1 a2, a = a1 ++ a2 -> a1 <> [] ->
                   k (i + List.length a1) (a2 ++ c :: s) cp = None) ->
    m (Star cs) k i (a ++ c :: s) cp = k i (a ++ c :: s) cp.
Proof.
  intros Ha Hc. induction Ha as [|d a Hd _ IH]; intros i H.
  - simpl. now apply m_Star_stop.
  - cbn [m] in *. cbn [app greedyStar]. rewrite Hd.
    rewrite IH.
    + pose proof (H [d] a eq_refl ltac:(discriminate)) as H1.
      cbn [List.length] in H1. rewrite Nat.add_1_r in H1. now rewrite H1.
    + intros a1 a2 E N1. specialize (H (d :: a1) a2). cbn [app List.length] in H.
      rewrite Nat.add_succ_r in H. apply H; [now rewrite E|discriminate].
Qed.

End MatcherSteps.

Lemma m_Group (a : regex) (k : cont) (i : nat) (s : jsstring) (cp : option jsstring) :
  m (Group a) k i s cp =
  m a (fun i' s' _ => k i' s' (Some (firstn (i' - i) s))) i s cp.
Proof. reflexivity. Qed.


Lemma matchAt_None (r : regex) (i : nat) (s : jsstring) :
  m r accept i s None = None -> matchAt r i s = None.
Proof. unfold matchAt. now intros ->. Qed.

(** A regex that begins with a literal opener. *)
Lemma startsOnOpener_Lit (x : N) (l : jsstring) (r : regex) :
  Spec.opener x = true -> Spec.startsOnOpener (Lit (x :: l) >> r).
Proof.
  intros Hx. split.
  - intros i c s Hc. apply matchAt_None. cbn [m Lit cmatch].
    destruct (N.eqb_spec x c) as [->|]; [congruence|reflexivity].
  - intros i. reflexivity.
Qed.

Lemma startsWith_trans (a b s : jsstring) :
  startsWith a b = true -> startsWith b s = true -> startsWith a s = true.
Proof.
  intros H1 H2. apply startsWith_split in H1 as [t ->]. apply startsWith_split in H2 as [t' ->].
  rewrite <- app_assoc. apply startsWith_app.
Qed.

(** A regex that begins with a literal that begins with a mark. *)
Lemma startsOnMark_Lit (l : jsstring) (r : regex) :
  startsWith (js "![") l = true \/ startsWith (js "<img") l = true ->
  Spec.startsOnMark (Lit l >> r).
Proof.
  intros Hl i s A B. apply matchAt_None. rewrite m_Seq, m_Lit.
  destruct (startsWith l s) eqn:S; [|reflexivity].
  destruct Hl as [H|H].
  - rewrite (startsWith_trans _ _ _ H S) in A. discriminate A.
  - rewrite (startsWith_trans _ _ _ H S) in B. discriminate B.
Qed.

(** No reference begins at the start of a line of prose. *)
Lemma prose_miss (R : regex) (t rest : jsstring) (i : nat) :
  Spec.startsOnMark R -> Spec.markFree t = true ->
  matchAt R i (t ++ 10%N :: rest) = None.
Proof.
  intros HM H. unfold Spec.markFree in H. apply andb_true_iff in H as [A B].
  apply negb_true_iff in A, B.
  assert (S : forall mark, includes mark t = false -> startsWith mark t = false).
  { intros mark I. destruct t; cbn [includes] in I; now apply orb_false_iff in I as [I _]. }
  apply HM; apply startsWith_cut; auto; vm_compute; intuition discriminate.
Qed.

(** The lengths of the source literals. *)
Ltac js_lengths :=
  repeat match goal with
         | |- context [List.length (js ?s)] =>
             let n := eval vm_compute in (List.length (js s)) in
             change (List.length (js s)) with n
         end.

(** ** The patterns of the extraction on a document *)

Section LocalExtraction.

Import Spec.


Lemma cmatch_Dot_alt (c : N) : altChar c = true -> cmatch Dot c = true.
Proof. unfold altChar. intros H. apply andb_true_iff in H as [_ H]. exact H. Qed.

Lemma Forall_forallb {A} (f : A -> bool) (l : list A) :
  forallb f l = true -> Forall (fun c => f c = true) l.
Proof. intros H. apply Forall_forall. now apply forallb_forall. Qed.


Lemma matchAt_Lit_miss (x : N) (l : jsstring) (r : regex) (c : N) (s : jsstring) (i : nat) :
  (c =? x)%N = false -> matchAt (Lit (x :: l) >> r) i (c :: s) = None.
Proof. intros H. apply matchAt_None. rewrite m_Seq. now apply m_Lit_miss. Qed.

Lemma pathChars_not (p : jsstring) (x : N) :
  forallb pathChar p = true -> In x special ->
  Forall (fun c => (c =? x)%N = false) p.
Proof.
  intros H Hx. apply Forall_forall. intros c Hc.
  rewrite forallb_forall in H. pose proof (pathChar_out c (H c Hc)) as O.
  destruct (N.eqb_spec c x) as [->|]; [|reflexivity].
  assert (existsb (N.eqb x) special = true); [|congruence].
  apply existsb_exists. exists x. split; [exact Hx|apply N.eqb_refl].
Qed.




Lemma suffix_cases {A} (p a1 a2 : list A) (x : A) :
  p ++ [x] = a1 ++ a2 ->
  (exists p2, p = a1 ++ p2 /\ a2 = p2 ++ [x]) \/ (a2 = [] /\ a1 = p ++ [x]).
Proof.
  revert a1; induction p as [|c p IH]; intros a1 H.
  - destruct a1 as [|y a1].
    + left. exists []. simpl in *. now split.
    + right. simpl in H. injection H as -> H.
      destruct a1; [|destruct a1; discriminate]. simpl in H. now subst.
  - destruct a1 as [|y a1].
    + left. exists (c :: p). simpl in *. now split.
    + simpl in H. injection H as -> H. destruct (IH a1 H) as [(p2 & -> & ->)|[-> ->]].
      * left. exists p2. now split.
      * right. now split.
Qed.





Lemma trimStart_head (c : N) (s : jsstring) : isSpace c = false -> trimStart (c :: s) = c :: s.
Proof. intros H. cbn [trimStart]. now rewrite H. Qed.

(** A path without white space is its own trimmed form. *)
Lemma trim_path (p : jsstring) : forallb pathChar p = true -> trim p = p.
Proof.
  intros H.
  assert (S : forall c, In c p -> isSpace c = false).
  { intros c Hc. rewrite forallb_forall in H. specialize (H c Hc).
    unfold pathChar in H. apply andb_true_iff in H as [_ H]. now apply negb_true_iff in H. }
  unfold trim, trimEnd.
  assert (T : forall q, (forall c, In c q -> isSpace c = false) -> trimStart q = q).
  { intros [|c q] Hq; [reflexivity|]. apply trimStart_head, Hq. now left. }
  rewrite (T p S). rewrite T; [apply rev_involutive|].
  intros c Hc. apply S. now apply in_rev.
Qed.

Lemma markdownRegex_starts : startsOnOpener markdownRegex.
Proof. apply (startsOnOpener_Lit 33%N). reflexivity. Qed.

Lemma htmlRegex_starts : startsOnOpener htmlRegex.
Proof. apply (startsOnOpener_Lit 60%N). reflexivity. Qed.

Lemma wikiRegex_starts : startsOnOpener wikiRegex.
Proof. apply (startsOnOpener_Lit 33%N). reflexivity. Qed.










Lemma fold_addLocal (hs : list (jsstring * option jsstring)) :
  Forall (fun p => forallb pathChar p = true /\ isLocalPath p = true) (List.map group1 hs) ->
  forall paths, fold_left addLocal hs paths = addAll paths (List.map group1 hs).
Proof.
  unfold addAll. induction hs as [|h hs IH]; intros H paths; [reflexivity|].
  cbn [List.map] in H. inversion H as [|? ? [Hc Hl] Hr]; subst.
  cbn [fold_left List.map]. rewrite <- IH by exact Hr. f_equal.
  unfold addLocal. now rewrite (trim_path _ Hc), Hl.
Qed.

Lemma addAll_app (l xs ys : list jsstring) : addAll (addAll l xs) ys = addAll l (xs ++ ys).
Proof. unfold addAll. now rewrite fold_left_app. Qed.







End LocalExtraction.
(** ** The three shapes of the patterns *)

Section Shapes.

Import Spec.

Variable r : regex.

Lemma matchAt_matched (x : regex) (i : nat) (s : jsstring) :
  matchAt x i s = matched i (m x accept i s None).
Proof. reflexivity. Qed.

Lemma mdShape_starts : startsOnOpener (mdShape r).
Proof. apply (startsOnOpener_Lit 33%N). reflexivity. Qed.

Lemma wikiShape_starts : startsOnOpener (wikiShape r).
Proof. apply (startsOnOpener_Lit 33%N). reflexivity. Qed.

Lemma htmlShape_starts : startsOnOpener (htmlShape r).
Proof. apply (startsOnOpener_Lit 60%N). reflexivity. Qed.

Lemma mdShape_marks : startsOnMark (mdShape r).
Proof. apply startsOnMark_Lit. now left. Qed.

Lemma wikiShape_marks : startsOnMark (wikiShape r).
Proof. apply startsOnMark_Lit. now left. Qed.

Lemma htmlShape_marks : startsOnMark (htmlShape r).
Proof. apply startsOnMark_Lit. now right. Qed.

Lemma dot_alt (a : jsstring) :
  forallb altChar a = true -> Forall (fun c => cmatch Dot c = true) a.
Proof.
  intros H. apply Forall_forall. intros d Hd. rewrite forallb_forall in H.
  apply cmatch_Dot_alt. now apply H.
Qed.

Lemma dot_path (p : jsstring) :
  forallb pathChar p = true -> Forall (fun c => cmatch Dot c = true) p.
Proof.
  intros H. apply Forall_forall. intros d Hd. rewrite forallb_forall in H.
  apply cmatch_Dot_alt, pathChar_altChar. now apply H.
Qed.

(** On a markdown image the lazy star stops at the first bracket that
    closes the alternative text. *)
Lemma mdShape_on_markdown_hit (a p rest : jsstring) (i : nat) (x : result) :
  forallb altChar a = true ->
  m r accept (i + 2 + List.length a + 2) (p ++ 41%N :: 10%N :: rest) None = Some x ->
  m (mdShape r) accept i (render (Markdown a p) ++ 10%N :: rest) None = Some x.
Proof.
  intros Ha Hr. cbn [render]. rewrite <- !app_assoc. unfold mdShape.
  rewrite m_Seq, m_Lit_app, m_Seq.
  rewrite m_LazyStar_skip.
  - apply m_LazyStar_here. rewrite m_Seq, m_Lit_app. js_lengths. exact Hr.
  - now apply dot_alt.
  - intros a1 c a2 E. rewrite m_Seq. change (js "](") with [93%N; 40%N].
    apply m_Lit_miss.
    assert (Hc : altChar c = true).
    { rewrite forallb_forall in Ha. apply Ha. rewrite E. apply in_or_app. right. now left. }
    now destruct (special_out c (altChar_out c Hc)) as (_&_&X&_).
Qed.

(** A continuation that begins with the closing bracket fails on the
    characters of a path. *)
Lemma bracket_miss_path (p s : jsstring) (k : cont) (cp : option jsstring) (x : N) :
  forallb pathChar p = true ->
  In x special ->
  forall i a1 c a2, p = a1 ++ c :: a2 ->
    m (Lit (x :: [])) k (i + List.length a1) (c :: a2 ++ s) cp = None.
Proof.
  intros Hp Hx i a1 c a2 E. apply m_Lit_miss.
  pose proof (pathChars_not p x Hp Hx) as P. rewrite Forall_forall in P.
  apply P. rewrite E. apply in_or_app. right. now left.
Qed.

(** When the pattern of the path fails there, the lazy star goes on to
    the end of the line and fails. *)
Lemma mdShape_on_markdown_miss (a p rest : jsstring) (i : nat) :
  forallb altChar a = true ->
  forallb pathChar p = true ->
  m r accept (i + 2 + List.length a + 2) (p ++ 41%N :: 10%N :: rest) None = None ->
  m (mdShape r) accept i (render (Markdown a p) ++ 10%N :: rest) None = None.
Proof.
  intros Ha Hp Hr. cbn [render]. rewrite <- !app_assoc. unfold mdShape.
  rewrite m_Seq, m_Lit_app, m_Seq. js_lengths.
  assert (Miss : forall j c s, (c =? 93)%N = false ->
                   m (Lit (js "](") >> r) accept j (c :: s) None = None).
  { intros j c s H. rewrite m_Seq. change (js "](") with [93%N; 40%N].
    now apply m_Lit_miss. }
  rewrite m_LazyStar_skip.
  - change (js "](" ++ p ++ js ")" ++ 10%N :: rest)
      with (93%N :: 40%N :: p ++ 41%N :: 10%N :: rest).
    rewrite m_LazyStar_step; [|rewrite m_Seq|reflexivity].
    + rewrite m_LazyStar_step; [|now apply Miss|reflexivity].
      rewrite m_LazyStar_skip.
      * rewrite m_LazyStar_step; [|now apply Miss|reflexivity].
        apply m_LazyStar_stop; [now apply Miss|reflexivity].
      * now apply dot_path.
      * intros a1 c a2 E. apply Miss.
        pose proof (pathChars_not p 93%N Hp ltac:(vm_compute; tauto)) as P.
        rewrite Forall_forall in P. apply P. rewrite E. apply in_or_app. right. now left.
    + change (js "](") with [93%N; 40%N].
      change (93%N :: 40%N :: p ++ 41%N :: 10%N :: rest)
        with ([93%N; 40%N] ++ p ++ 41%N :: 10%N :: rest).
      rewrite m_Lit_app. cbn [List.length].
      replace (i + 2 + List.length a + 2) with (i + 2 + List.length a + 2) in Hr by lia.
      exact Hr.
  - now apply dot_alt.
  - intros a1 c a2 E. apply Miss.
    assert (Hc : altChar c = true).
    { rewrite forallb_forall in Ha. apply Ha. rewrite E. apply in_or_app. right. now left. }
    now destruct (special_out c (altChar_out c Hc)) as (_&_&X&_).
Qed.

(** On a wiki embed the lazy star finds no bracket followed by a
    parenthesis. *)
Lemma mdShape_on_wiki (p rest : jsstring) (i : nat) :
  wellFormedPath p = true ->
  m (mdShape r) accept i (render (Wiki p) ++ 10%N :: rest) None = None.
Proof.
  intros Hp. apply wellFormedPath_chars in Hp as [Hn Hp].
  cbn [render]. rewrite <- !app_assoc. unfold mdShape.
  change (js "![[") with (js "![" ++ [91%N]). rewrite <- app_assoc.
  rewrite m_Seq, m_Lit_app, m_Seq.
  assert (Miss : forall j c s, (c =? 93)%N = false ->
                   m (Lit (js "](") >> r) accept j (c :: s) None = None).
  { intros j c s H. rewrite m_Seq. change (js "](") with [93%N; 40%N].
    now apply m_Lit_miss. }
  cbn [app]. rewrite m_LazyStar_step; [|now apply Miss|reflexivity].
  rewrite m_LazyStar_skip.
  - change (js "]]" ++ 10%N :: rest) with (93%N :: 93%N :: 10%N :: rest).
    rewrite m_LazyStar_step; [|reflexivity|reflexivity].
    rewrite m_LazyStar_step; [|reflexivity|reflexivity].
    apply m_LazyStar_stop; [now apply Miss|reflexivity].
  - now apply dot_path.
  - intros a1 c a2 E. apply Miss.
    pose proof (pathChars_not p 93%N Hp ltac:(vm_compute; tauto)) as P.
    rewrite Forall_forall in P. apply P. rewrite E. apply in_or_app. right. now left.
Qed.

(** A wiki embed: the pattern of the path decides. *)
Lemma wikiShape_on_wiki (p rest : jsstring) (i : nat) :
  m (wikiShape r) accept i (render (Wiki p) ++ 10%N :: rest) None
  = m r accept (i + 3) (p ++ 93%N :: 93%N :: 10%N :: rest) None.
Proof.
  cbn [render]. rewrite <- !app_assoc. unfold wikiShape.
  now rewrite m_Seq, m_Lit_app.
Qed.

Lemma wikiShape_on_markdown (a p rest : jsstring) (i : nat) :
  forallb altChar a = true ->
  m (wikiShape r) accept i (render (Markdown a p) ++ 10%N :: rest) None = None.
Proof.
  intros Ha. cbn [render]. rewrite <- !app_assoc. unfold wikiShape.
  rewrite m_Seq.
  change (Lit (js "![[")) with (One (Ch 33) >> One (Ch 91) >> Lit [91%N]).
  change (js "![" ++ a ++ js "](" ++ p ++ js ")" ++ 10%N :: rest)
    with (33%N :: 91%N :: (a ++ js "](" ++ p ++ js ")" ++ 10%N :: rest)).
  rewrite m_Seq, m_One_hit by reflexivity. rewrite m_Seq, m_One_hit by reflexivity.
  destruct a as [|c a].
  - reflexivity.
  - cbn [forallb] in Ha. apply andb_true_iff in Ha as [Hc _].
    destruct (special_out c (altChar_out c Hc)) as (_&X&_).
    cbn [app]. now apply m_Lit_miss.
Qed.

Hypothesis r_stops : forall j s, m r accept j (62%N :: s) None = None.

Lemma src_inside (p2 s : jsstring) (i : nat) :
  Forall (fun c => (c =? 34)%N = false) p2 ->
  m (Lit (js "src=" ++ [dq]) >> r) accept i (p2 ++ 34%N :: 62%N :: s) None = None.
Proof.
  intros H. rewrite m_Seq, m_Lit.
  change (js "src=" ++ [dq]) with [115; 114; 99; 61; 34]%N.
  destruct p2 as [|c1 [|c2 [|c3 [|c4 [|c5 p2]]]]]; cbn [app startsWith];
    repeat match goal with
           | |- context [N.eqb ?a ?b] =>
               first [ is_var b; destruct (N.eqb a b) eqn:?; cbn [andb]
                     | change (N.eqb a b) with false; cbn [andb]
                     | change (N.eqb a b) with true; cbn [andb] ]
           end; try reflexivity.
  - cbn [List.length skipn]. apply r_stops.
  - do 4 (apply Forall_inv_tail in H). apply Forall_inv in H.
    rewrite N.eqb_sym in H. congruence.
Qed.

Lemma src_later (p s : jsstring) (i : nat) (a1 a2 : jsstring) :
  forallb pathChar p = true ->
  (js "src=" ++ [dq]) ++ p ++ [34%N] = a1 ++ a2 ->
  a1 <> [] ->
  m (Lit (js "src=" ++ [dq]) >> r) accept (i + List.length a1) (a2 ++ 62%N :: s) None = None.
Proof.
  intros Hp E N1.
  pose proof (pathChars_not p 34%N Hp ltac:(vm_compute; tauto)) as P34.
  change (js "src=" ++ [dq]) with [115; 114; 99; 61; 34]%N in E. cbn [app] in E.
  assert (Miss : forall c t j, (c =? 115)%N = false ->
                   m (Lit (js "src=" ++ [dq]) >> r) accept j (c :: t) None = None).
  { intros c t j H. rewrite m_Seq.
    change (js "src=" ++ [dq]) with [115; 114; 99; 61; 34]%N. now apply m_Lit_miss. }
  destruct a1 as [|x1 a1]; [contradiction|]. injection E as _ E.
  destruct a1 as [|x2 a1]; [simpl in E; subst a2; now apply Miss|]. injection E as _ E.
  destruct a1 as [|x3 a1]; [simpl in E; subst a2; now apply Miss|]. injection E as _ E.
  destruct a1 as [|x4 a1]; [simpl in E; subst a2; now apply Miss|]. injection E as _ E.
  destruct a1 as [|x5 a1]; [simpl in E; subst a2; now apply Miss|]. injection E as _ E.
  destruct (suffix_cases p a1 a2 34%N E) as [(p2 & -> & ->)|[-> ->]].
  - rewrite <- app_assoc. cbn [app]. apply src_inside.
    now apply Forall_app in P34.
  - cbn [app]. now apply Miss.
Qed.

(** An img tag: the greedy star gives back all but the space, and the
    pattern of the path decides. *)
Lemma htmlShape_on_html (p rest : jsstring) (i : nat) :
  forallb pathChar p = true ->
  m (htmlShape r) accept i (render (Html p) ++ 10%N :: rest) None
  = m r accept (i + 10) (p ++ 34%N :: 62%N :: 10%N :: rest) None.
Proof.
  intros Hp.
  pose proof (pathChars_not p 62%N Hp ltac:(vm_compute; tauto)) as P62.
  cbn [render]. rewrite <- !app_assoc. unfold htmlShape.
  change (js "<img src=" ++ [dq] ++ p ++ [dq] ++ js ">" ++ 10%N :: rest)
    with (js "<img" ++ 32%N :: (js "src=" ++ [dq]) ++ p ++ [34%N] ++ 62%N :: 10%N :: rest).
  rewrite m_Seq, m_Lit_app. unfold Plus. rewrite !m_Seq.
  rewrite m_One_hit by reflexivity.
  rewrite !app_assoc. rewrite <- (app_assoc _ p [34%N]).
  rewrite m_Star_back.
  - rewrite <- !app_assoc.
    change (js "src=" ++ [dq] ++ p ++ [34%N] ++ 62%N :: 10%N :: rest)
      with ((js "src=" ++ [dq]) ++ p ++ 34%N :: 62%N :: 10%N :: rest).
    rewrite m_Seq, m_Lit_app. js_lengths.
    change (List.length (js "src=" ++ [dq])) with 5.
    f_equal. lia.
  - apply Forall_app. split; [repeat constructor|].
    apply Forall_app. split; [|repeat constructor].
    eapply Forall_impl; [|exact P62]. intros d Hd.
    cbn [cmatch]. change (js ">") with [62%N]. cbn [existsb]. now rewrite Hd.
  - reflexivity.
  - intros a1 a2 E N1. exact (src_later p _ _ a1 a2 Hp E N1).
Qed.

End Shapes.
(** ** The shapes on the lines of a document *)

Section ShapeLines.

Import Spec.

Variable r : regex.
Variable res : jsstring -> option (nat * option jsstring).

Lemma mdShape_lines :
  decides r (js ")") res ->
  (forall p n cp, res p = Some (n, cp) -> 1 <= n <= List.length p + 1) ->
  forall (x : item) (i : nat) (rest : jsstring),
    wellFormed x = true ->
    match hitMd res x with
    | Some (len, cp) =>
        matchAt (mdShape r) i (render x ++ 10%N :: rest) = Some (len, cp) /\
        1 <= len <= List.length (render x)
    | None => matchAt (mdShape r) i (render x ++ 10%N :: rest) = None
    end.
Proof.
  intros D B x i rest W.
  destruct x as [a p|p|p|t]; cbn [wellFormed hitMd] in *.
  - apply andb_true_iff in W as [Ha Hp].
    pose proof (D p (i + 2 + List.length a + 2) (10%N :: rest) Hp) as Dp.
    change (p ++ js ")" ++ 10%N :: rest) with (p ++ 41%N :: 10%N :: rest) in Dp.
    destruct (res p) as [[n cp]|] eqn:Rp.
    + split.
      * rewrite matchAt_matched.
        rewrite (mdShape_on_markdown_hit r a p rest i _ Ha Dp). cbn [matched].
        f_equal. f_equal. lia.
      * specialize (B p n cp Rp). cbn [render]. rewrite !length_app. js_lengths. lia.
    + rewrite matchAt_matched.
      apply wellFormedPath_chars in Hp as [_ Hp].
      now rewrite (mdShape_on_markdown_miss r a p rest i Ha Hp Dp).
  - cbn [render]. rewrite <- !app_assoc. now apply matchAt_Lit_miss.
  - rewrite matchAt_matched. now rewrite (mdShape_on_wiki r p rest i W).
  - cbn [render]. apply prose_miss; [apply mdShape_marks|exact W].
Qed.

Lemma wikiShape_lines :
  decides r (js "]]") res ->
  (forall p n cp, res p = Some (n, cp) -> 1 <= n <= List.length p + 2) ->
  forall (x : item) (i : nat) (rest : jsstring),
    wellFormed x = true ->
    match hitWk res x with
    | Some (len, cp) =>
        matchAt (wikiShape r) i (render x ++ 10%N :: rest) = Some (len, cp) /\
        1 <= len <= List.length (render x)
    | None => matchAt (wikiShape r) i (render x ++ 10%N :: rest) = None
    end.
Proof.
  intros D B x i rest W.
  destruct x as [a p|p|p|t]; cbn [wellFormed hitWk] in *.
  - apply andb_true_iff in W as [Ha Hp].
    rewrite matchAt_matched. now rewrite (wikiShape_on_markdown r a p rest i Ha).
  - cbn [render]. rewrite <- !app_assoc. now apply matchAt_Lit_miss.
  - pose proof (D p (i + 3) (10%N :: rest) W) as Dp.
    change (p ++ js "]]" ++ 10%N :: rest) with (p ++ 93%N :: 93%N :: 10%N :: rest) in Dp.
    rewrite matchAt_matched, wikiShape_on_wiki, Dp.
    destruct (res p) as [[n cp]|] eqn:Rp; [|reflexivity].
    split.
    + cbn [matched]. f_equal. f_equal. lia.
    + specialize (B p n cp Rp). cbn [render]. rewrite !length_app. js_lengths. lia.
  - cbn [render]. apply prose_miss; [apply wikiShape_marks|exact W].
Qed.

Lemma htmlShape_lines :
  decides r [dq] res ->
  (forall j s, m r accept j (62%N :: s) None = None) ->
  (forall p n cp, res p = Some (n, cp) -> 1 <= n <= List.length p + 2) ->
  forall (x : item) (i : nat) (rest : jsstring),
    wellFormed x = true ->
    match hitHt res x with
    | Some (len, cp) =>
        matchAt (htmlShape r) i (render x ++ 10%N :: rest) = Some (len, cp) /\
        1 <= len <= List.length (render x)
    | None => matchAt (htmlShape r) i (render x ++ 10%N :: rest) = None
    end.
Proof.
  intros D St B x i rest W.
  destruct x as [a p|p|p|t]; cbn [wellFormed hitHt] in *.
  - cbn [render]. rewrite <- !app_assoc. now apply matchAt_Lit_miss.
  - pose proof (D p (i + 10) (62%N :: 10%N :: rest) W) as Dp.
    change (p ++ [dq] ++ 62%N :: 10%N :: rest)
      with (p ++ 34%N :: 62%N :: 10%N :: rest) in Dp.
    pose proof W as W'. apply wellFormedPath_chars in W' as [_ Hp].
    rewrite matchAt_matched, (htmlShape_on_html r St p rest i Hp), Dp.
    destruct (res p) as [[n cp]|] eqn:Rp; [|reflexivity].
    split.
    + cbn [matched]. f_equal. f_equal. lia.
    + specialize (B p n cp Rp). cbn [render]. rewrite !length_app. js_lengths.
      cbn [List.length]. lia.
  - cbn [render]. rewrite <- !app_assoc. now apply matchAt_Lit_miss.
  - cbn [render]. apply prose_miss; [apply htmlShape_marks|exact W].
Qed.

End ShapeLines.
(** ** Escaping a path for a pattern *)

Section Escaping.

Lemma matchAt_One (cs : cset) (i : nat) (c : N) (s : jsstring) :
  matchAt (One cs) i (c :: s) = if cmatch cs c then Some (1, None) else None.
Proof.
  unfold matchAt. cbn [m]. destruct (cmatch cs c); [|reflexivity].
  unfold accept. f_equal. f_equal. lia.
Qed.

(** Replacing the characters of a class one by one. *)
Lemma replaceAll_One (cs : cset) (tmpl s : jsstring) :
  (forall c before after, getSubstitution [c] before after tmpl
                          = getSubstitution [c] [] [] tmpl) ->
  replaceAll (One cs) tmpl s =
  flat_map (fun c => if cmatch cs c then getSubstitution [c] [] [] tmpl else [c]) s.
Proof.
  intros T. unfold replaceAll. generalize 0 at 1. generalize s at 1 as str.
  induction s as [|c s IH]; intros str i; [reflexivity|].
  cbn [scan flat_map]. rewrite matchAt_One.
  destruct (cmatch cs c); cbn [rebuild firstn app]; rewrite IH; [|reflexivity].
  now rewrite T.
Qed.

Lemma escapeRegExp_chars (p : jsstring) :
  escapeRegExp p =
  flat_map (fun c => if existsb (N.eqb c) syntaxCharacters then [92%N; c] else [c]) p.
Proof.
  unfold escapeRegExp. rewrite replaceAll_One; reflexivity.
Qed.

Lemma escapedPattern_other (c : N) (t : jsstring) :
  c <> 92%N -> escapedPattern (c :: t) = One (Ch c) >> escapedPattern t.
Proof.
  intros H. destruct c as [|q]; [reflexivity|].
  do 7 (destruct q as [q|q|]; try reflexivity).
  now elim H.
Qed.

(** The pattern made from an escaped path is the path, character by
    character. *)
Lemma escapedPattern_escapeRegExp (p : jsstring) :
  escapedPattern (escapeRegExp p) = Lit p.
Proof.
  rewrite escapeRegExp_chars. induction p as [|c p IH]; [reflexivity|].
  cbn [flat_map Lit].
  destruct (existsb (N.eqb c) syntaxCharacters) eqn:S.
  - cbn [app escapedPattern]. now rewrite IH.
  - cbn [app]. rewrite escapedPattern_other; [now rewrite IH|].
    intros ->. discriminate S.
Qed.

End Escaping.
(** ** The patterns of the rewriting on a document *)

Section Rewriting.

Import Spec.



End Rewriting.

Section Rewrites.

Import Spec.





Variable p0 : jsstring.
Hypothesis Hp0 : wellFormedPath p0 = true.



Variable tmpl : jsstring.
Variable y : item.
Hypothesis Htmpl : ~ In 36%N tmpl.





End Rewrites.

Section Idem.

Import Spec.












End Idem.
(** ** C5: rewriting the links of a document *)

Import Spec.

(** ** C5 on the samples *)

Import Samples.


(** ** The pattern of a URL *)

Section Remote.

Import Spec.

Variable cs : cset.
Variable x : N.
Variable cl : jsstring.

Hypothesis cs_path : forall c, pathChar c = true -> cmatch cs c = true.
Hypothesis cs_stop : cmatch cs x = false.
Hypothesis x_special : In x special.

Lemma Plus_path (K : cont) (q s : jsstring) (j : nat) (cp : option jsstring) (r : result) :
  forallb pathChar q = true ->
  K (j + List.length q) (x :: s) cp = Some r ->
  q <> [] ->
  m (Plus cs) K j (q ++ x :: s) cp = Some r.
Proof.
  intros Hq HK Hn. destruct q as [|c q]; [congruence|].
  cbn [forallb] in Hq. apply andb_true_iff in Hq as [Hc Hq].
  unfold Plus. rewrite m_Seq. cbn [app]. rewrite m_One_hit by now apply cs_path.
  apply m_Star_run.
  - apply Forall_forall. intros d Hd. apply cs_path.
    rewrite forallb_forall in Hq. now apply Hq.
  - rewrite m_Star_stop by exact cs_stop.
    cbn [List.length] in HK. now rewrite Nat.add_succ_r in HK.
Qed.

Lemma Plus_none (K : cont) (s : jsstring) (j : nat) (cp : option jsstring) :
  m (Plus cs) K j (x :: s) cp = None.
Proof. unfold Plus. rewrite m_Seq. now apply m_One_miss. Qed.

Lemma startsWith_closed (l p t : jsstring) :
  ~ In x l -> startsWith l (p ++ x :: t) = startsWith l p.
Proof.
  revert p; induction l as [|a l IH]; intros p H; [reflexivity|].
  destruct p as [|c p]; cbn [app startsWith].
  - destruct (N.eqb_spec a x) as [->|]; [|reflexivity]. exfalso. apply H. now left.
  - rewrite IH; [reflexivity|]. intros X. apply H. now right.
Qed.

Lemma Lit_closed (l : jsstring) (K : cont) (j : nat) (p t : jsstring) (cp : option jsstring) :
  ~ In x l ->
  m (Lit l) K j (p ++ x :: t) cp =
  if startsWith l p then K (j + List.length l) (skipn (List.length l) p ++ x :: t) cp
  else None.
Proof.
  intros H. rewrite m_Lit, (startsWith_closed l p t H).
  destruct (startsWith l p) eqn:E; [|reflexivity].
  apply startsWith_split in E as [q ->].
  now rewrite <- app_assoc, !skipn_length_app.
Qed.

Lemma longer_app (l1 l2 p : jsstring) :
  longer (l1 ++ l2) p = startsWith l1 p && longer l2 (skipn (List.length l1) p).
Proof.
  revert p; induction l1 as [|a l1 IH]; intros p; [reflexivity|].
  destruct p as [|c p]; cbn [app longer startsWith List.length skipn andb].
  - reflexivity.
  - rewrite IH. now rewrite andb_assoc.
Qed.

Lemma longer_split (l p : jsstring) :
  longer l p = true -> exists c q, p = l ++ c :: q.
Proof.
  revert p; induction l as [|a l IH]; intros [|c p] H; cbn [longer] in H; try discriminate.
  - now exists c, p.
  - apply andb_true_iff in H as [E H]. apply N.eqb_eq in E as ->.
    destruct (IH p H) as (d & q & ->). now exists d, q.
Qed.

Lemma longer_length (l p : jsstring) :
  longer l p = true -> List.length l < List.length p.
Proof.
  intros H. destruct (longer_split l p H) as (c & q & ->).
  rewrite length_app. cbn [List.length]. lia.
Qed.

(** A literal, then one or more characters of the path, up to the
    delimiter. *)
Lemma Lit_Plus (l : jsstring) (K : cont) (q t : jsstring) (cp : option jsstring) (r : result) :
  ~ In x l ->
  forallb pathChar q = true ->
  forall j,
    K (j + List.length q) (x :: t) cp = Some r ->
    m (Lit l >> Plus cs) K j (q ++ x :: t) cp = if longer l q then Some r else None.
Proof.
  revert q; induction l as [|a l IH]; intros q Hx Hq j HK.
  - change (m (Lit [] >> Plus cs) K j (q ++ x :: t) cp)
      with (m (Plus cs) K j (q ++ x :: t) cp).
    destruct q as [|c q]; cbn [longer].
    + apply Plus_none.
    + apply Plus_path; [exact Hq|exact HK|discriminate].
  - change (m (Lit (a :: l) >> Plus cs) K j (q ++ x :: t) cp)
      with (m (One (Ch a)) (m (Lit l >> Plus cs) K) j (q ++ x :: t) cp).
    destruct q as [|c q]; cbn [longer app].
    + apply m_One_miss. cbn [cmatch].
      destruct (N.eqb_spec a x) as [->|]; [|reflexivity]. exfalso. apply Hx. now left.
    + cbn [m cmatch]. destruct (N.eqb a c); cbn [andb]; [|reflexivity].
      cbn [forallb] in Hq. apply andb_true_iff in Hq as [_ Hq].
      apply IH; [intros X; apply Hx; now right|exact Hq|].
      cbn [List.length] in HK. now rewrite Nat.add_succ_r in HK.
Qed.

Lemma forallb_skipn {A} (f : A -> bool) (n : nat) (l : list A) :
  forallb f l = true -> forallb f (skipn n l) = true.
Proof.
  intros H. rewrite forallb_forall in *. intros a Ha. apply H.
  rewrite <- (firstn_skipn n l). apply in_or_app. now right.
Qed.

Hypothesis x_url : ~ In x (js "https://").

(** The pattern of a URL, on a path that the delimiter follows. *)
Lemma decides_remote :
  decides (Group (httpPrefix >> Plus cs) >> Lit (x :: cl)) (x :: cl)
          (remote (List.length (x :: cl))).
Proof.
  intros p j s W. apply wellFormedPath_chars in W as [_ Hp].
  rewrite m_Seq, m_Group.
  set (K := fun (i' : nat) (s' : jsstring) (_ : option jsstring) =>
              m (Lit (x :: cl)) accept i' s'
                (Some (firstn (i' - j) (p ++ (x :: cl) ++ s)))).
  change (m (httpPrefix >> Plus cs) K j (p ++ (x :: cl) ++ s) None)
    with (m (Lit (js "http"))
            (m (Alt (Lit (js "s")) Eps) (m (Lit (js "://") >> Plus cs) K))
            j (p ++ x :: cl ++ s) None).
  assert (N1 : ~ In x (js "http")).
  { intros X. apply x_url. vm_compute in X |- *. tauto. }
  assert (N2 : ~ In x (js "://")).
  { intros X. apply x_url. vm_compute in X |- *. tauto. }
  assert (N3 : ~ In x (js "s://")).
  { intros X. apply x_url. vm_compute in X |- *. tauto. }
  rewrite (Lit_closed _ _ j p (cl ++ s) None N1).
  unfold remote, remoteUrl.
  change (js "http://") with (js "http" ++ js "://").
  change (js "https://") with (js "http" ++ js "s://").
  rewrite !longer_app.
  destruct (startsWith (js "http") p) eqn:E; cbn [andb orb]; [|reflexivity].
  apply startsWith_split in E as [q ->]. rewrite skipn_length_app.
  rewrite forallb_app in Hp. apply andb_true_iff in Hp as [_ Hq].
  assert (HK : K (j + List.length (js "http") + List.length q) (x :: cl ++ s) None
               = Some (j + (List.length (js "http" ++ q) + List.length (x :: cl)),
                       Some (js "http" ++ q))).
  { unfold K. change (x :: cl ++ s) with ((x :: cl) ++ s). rewrite m_Lit_app.
    unfold accept. f_equal. f_equal.
    - rewrite length_app. lia.
    - f_equal. replace (j + List.length (js "http") + List.length q - j)
        with (List.length (js "http" ++ q)) by (rewrite length_app; lia).
      now rewrite firstn_app, Nat.sub_diag, firstn_all, app_nil_r. }
  change (m (Alt (Lit (js "s")) Eps) (m (Lit (js "://") >> Plus cs) K)
            (j + List.length (js "http")) (q ++ x :: cl ++ s) None)
    with (match m (Lit (js "s://") >> Plus cs) K
                  (j + List.length (js "http")) (q ++ x :: cl ++ s) None with
          | Some r => Some r
          | None => m (Lit (js "://") >> Plus cs) K
                      (j + List.length (js "http")) (q ++ x :: cl ++ s) None
          end).
  rewrite (Lit_Plus (js "s://") K q (cl ++ s) None _ N3 Hq _ HK).
  rewrite (Lit_Plus (js "://") K q (cl ++ s) None _ N2 Hq _ HK).
  destruct (longer (js "s://") q), (longer (js "://") q); reflexivity.
Qed.

End Remote.
(** ** Stripping the wrapping of a matched reference *)

Section Stripping.

Import Spec.

Lemma sub_succ_self (i n : nat) : i + n - i = n.
Proof. lia. Qed.

Lemma m_Alt_miss (a b : regex) (k : cont) (i : nat) (s : jsstring) (cp : option jsstring) :
  m a k i s cp = None -> m (Alt a b) k i s cp = m b k i s cp.
Proof. intros H. cbn [m]. now rewrite H. Qed.

Lemma m_Alt_hit (a b : regex) (k : cont) (i : nat) (s : jsstring) (cp : option jsstring)
      (r : result) :
  m a k i s cp = Some r -> m (Alt a b) k i s cp = Some r.
Proof. intros H. cbn [m]. now rewrite H. Qed.

Lemma m_LitSeq_miss (x : N) (l : jsstring) (r : regex) (k : cont) (c : N) (s : jsstring)
      (i : nat) (cp : option jsstring) :
  (c =? x)%N = false -> m (Lit (x :: l) >> r) k i (c :: s) cp = None.
Proof. intros H. rewrite m_Seq. now apply m_Lit_miss. Qed.

(** No part of the wrapping begins on a character of a path. *)
Lemma wrapping_path (c : N) (s : jsstring) (i : nat) :
  pathChar c = true -> matchAt wrapping i (c :: s) = None.
Proof.
  intros H. destruct (special_out c (pathChar_out c H)) as (A&B&C&D&E&F&G&I&_).
  apply matchAt_None. unfold wrapping.
  rewrite m_Alt_miss by (now apply (m_LitSeq_miss 33%N)).
  rewrite m_Alt_miss by (now apply (m_Lit_miss accept 41%N)).
  rewrite m_Alt_miss by (now apply (m_LitSeq_miss 60%N)).
  rewrite m_Alt_miss by (now apply (m_Lit_miss accept 34%N)).
  rewrite m_Alt_miss by (now apply (m_Lit_miss accept 33%N)).
  now apply (m_Lit_miss accept 93%N).
Qed.

Lemma scan_wrapping_path (p rest : jsstring) :
  forallb pathChar p = true ->
  forall i, scan wrapping i (p ++ rest) 0
            = List.map Keep p ++ scan wrapping (i + List.length p) rest 0.
Proof.
  induction p as [|c p IH]; intros H i.
  - simpl. now rewrite Nat.add_0_r.
  - cbn [forallb] in H. apply andb_true_iff in H as [Hc Hp].
    cbn [app scan]. rewrite (wrapping_path c (p ++ rest) i Hc).
    rewrite IH by exact Hp. cbn [List.map List.length app]. now rewrite Nat.add_succ_r.
Qed.

Lemma rebuild_empty (str : jsstring) (i : nat) (mt : jsstring) (cp : option jsstring)
      (ps : list piece) :
  rebuild str [] (Hit i mt cp :: ps) = rebuild str [] ps.
Proof. reflexivity. Qed.

(** A match of the whole of [mt], which is not empty. *)
Lemma scan_hit (R : regex) (mt rest : jsstring) (i : nat) (cp : option jsstring) :
  mt <> [] ->
  matchAt R i (mt ++ rest) = Some (List.length mt, cp) ->
  scan R i (mt ++ rest) 0 = Hit i mt cp :: scan R (i + List.length mt) rest 0.
Proof.
  destruct mt as [|c l]; [congruence|]. intros _ M.
  cbn [app scan] in *. rewrite M. cbn [List.length firstn].
  rewrite firstn_app, Nat.sub_diag, firstn_all. cbn [firstn]. rewrite app_nil_r.
  rewrite (scan_skip R l rest (S i)). now rewrite Nat.add_succ_r.
Qed.

Lemma matchAt_length (R : regex) (i : nat) (s : jsstring) (n : nat) (cp : option jsstring) :
  m R accept i s None = Some (i + n, cp) -> matchAt R i s = Some (n, cp).
Proof. intros H. unfold matchAt. rewrite H. f_equal. f_equal. lia. Qed.

(** The greedy star on the rest of the input gives back all of it when
    the continuation fails at every later position. *)
Lemma m_Star_all (k : cont) (cs : cset) (a : jsstring) (cp : option jsstring) :
  Forall (fun c => cmatch cs c = true) a ->
  forall i,
    (forall a1 a2, a = a1 ++ a2 -> a1 <> [] -> k (i + List.length a1) a2 cp = None) ->
    m (Star cs) k i a cp = k i a cp.
Proof.
  induction 1 as [|d a Hd _ IH]; intros i H; [reflexivity|].
  cbn [m] in *. cbn [greedyStar]. rewrite Hd. rewrite IH.
  - pose proof (H [d] a eq_refl ltac:(discriminate)) as H1.
    cbn [List.length] in H1. rewrite Nat.add_1_r in H1. now rewrite H1.
  - intros a1 a2 E N1. specialize (H (d :: a1) a2). cbn [app List.length] in H.
    rewrite Nat.add_succ_r in H. apply H; [now rewrite E|discriminate].
Qed.

(** The opening of a markdown image. *)
Lemma wrapping_markdown (a rest : jsstring) (i : nat) :
  forallb altChar a = true ->
  matchAt wrapping i ((js "![" ++ a ++ js "](") ++ rest)
  = Some (List.length (js "![" ++ a ++ js "]("), None).
Proof.
  intros Ha. apply matchAt_length. unfold wrapping. apply m_Alt_hit.
  rewrite <- !app_assoc. rewrite m_Seq, m_Lit_app, m_Seq.
  rewrite m_LazyStar_skip.
  - apply m_LazyStar_here. rewrite m_Lit_app. unfold accept.
    rewrite !length_app. js_lengths.
    now replace (i + 2 + List.length a + 2) with (i + (2 + (List.length a + 2))) by lia.
  - now apply dot_alt.
  - intros a1 c a2 E. change (js "](") with [93%N; 40%N].
    apply m_Lit_miss.
    assert (Hc : altChar c = true).
    { rewrite forallb_forall in Ha. apply Ha. rewrite E. apply in_or_app. right. now left. }
    now destruct (special_out c (altChar_out c Hc)) as (_&_&X&_).
Qed.

(** The closing parenthesis, quote and brackets. *)
Lemma wrapping_closer (i : nat) :
  matchAt wrapping i (js ")") = Some (1, None) /\
  matchAt wrapping i [dq] = Some (1, None) /\
  matchAt wrapping i (js "]]") = Some (2, None).
Proof.
  repeat split; apply matchAt_length; cbn; rewrite ?Nat.add_1_r; try reflexivity;
    now replace (i + 2) with (S (S i)) by lia.
Qed.

(** The opening of a wiki embed, which the pattern of the markdown image
    does not take. *)
Lemma wrapping_wiki (p : jsstring) (i : nat) :
  forallb pathChar p = true ->
  matchAt wrapping i (js "![[" ++ p ++ js "]]") = Some (List.length (js "![["), None).
Proof.
  intros Hp. apply matchAt_length. unfold wrapping.
  rewrite m_Alt_miss.
  - rewrite m_Alt_miss by reflexivity. rewrite m_Alt_miss by reflexivity.
    rewrite m_Alt_miss by reflexivity. apply m_Alt_hit.
    rewrite m_Lit_app. reflexivity.
  - change (js "![[") with (js "![" ++ [91%N]). rewrite <- app_assoc.
    rewrite m_Seq, m_Lit_app, m_Seq.
    assert (Miss : forall j c s, (c =? 93)%N = false ->
                     m (Lit (js "](")) accept j (c :: s) None = None).
    { intros j c s H. change (js "](") with [93%N; 40%N]. now apply m_Lit_miss. }
    cbn [app]. rewrite m_LazyStar_step; [|now apply Miss|reflexivity].
    rewrite m_LazyStar_skip.
    + change (js "]]") with [93%N; 93%N].
      rewrite m_LazyStar_step; [|reflexivity|reflexivity].
      rewrite m_LazyStar_step; [|reflexivity|reflexivity].
      now apply m_LazyStar_end.
    + now apply dot_path.
    + intros a1 c a2 E. apply Miss.
      pose proof (pathChars_not p 93%N Hp ltac:(vm_compute; tauto)) as P.
      rewrite Forall_forall in P. apply P. rewrite E. apply in_or_app. right. now left.
Qed.

(** [src=] and the quote begin nowhere in what follows them in an img
    tag, unless the path ends in src=. *)
Lemma src_absent (p2 : jsstring) (j : nat) :
  Forall (fun c => (c =? 34)%N = false) p2 ->
  p2 <> js "src=" ->
  m (Lit (js "src=" ++ [dq])) accept j (p2 ++ [34%N]) None = None.
Proof.
  intros H Hn. rewrite m_Lit.
  change (js "src=" ++ [dq]) with [115; 114; 99; 61; 34]%N.
  destruct p2 as [|c1 [|c2 [|c3 [|c4 [|c5 p2]]]]]; cbn [app startsWith];
    repeat match goal with
           | |- context [N.eqb ?a ?b] =>
               first [ is_var b; destruct (N.eqb_spec a b); [subst b|]; cbn [andb]
                     | change (N.eqb a b) with false; cbn [andb]
                     | change (N.eqb a b) with true; cbn [andb] ]
           end; try reflexivity.
  - now elim Hn.
  - do 4 (apply Forall_inv_tail in H). apply Forall_inv in H. discriminate H.
Qed.

Lemma src_nowhere (p a1 a2 : jsstring) (i : nat) :
  forallb pathChar p = true ->
  endsWith (js "src=") p = false ->
  (js "src=" ++ [dq]) ++ p ++ [34%N] = a1 ++ a2 ->
  a1 <> [] ->
  m (Lit (js "src=" ++ [dq])) accept (i + List.length a1) a2 None = None.
Proof.
  intros Hp He E N1.
  pose proof (pathChars_not p 34%N Hp ltac:(vm_compute; tauto)) as P34.
  change (js "src=" ++ [dq]) with [115; 114; 99; 61; 34]%N in E. cbn [app] in E.
  assert (Miss : forall c t j, (c =? 115)%N = false ->
                   m (Lit (js "src=" ++ [dq])) accept j (c :: t) None = None).
  { intros c t j H. change (js "src=" ++ [dq]) with [115; 114; 99; 61; 34]%N.
    now apply m_Lit_miss. }
  destruct a1 as [|x1 a1]; [contradiction|]. injection E as _ E.
  destruct a1 as [|x2 a1]; [simpl in E; subst a2; now apply Miss|]. injection E as _ E.
  destruct a1 as [|x3 a1]; [simpl in E; subst a2; now apply Miss|]. injection E as _ E.
  destruct a1 as [|x4 a1]; [simpl in E; subst a2; now apply Miss|]. injection E as _ E.
  destruct a1 as [|x5 a1]; [simpl in E; subst a2; now apply Miss|]. injection E as _ E.
  destruct (suffix_cases p a1 a2 34%N E) as [(p2 & -> & ->)|[-> ->]].
  - apply src_absent; [now apply Forall_app in P34|].
    intros ->. now rewrite endsWith_app in He.
  - reflexivity.
Qed.

(** The opening of an img tag. *)
Lemma wrapping_html (p : jsstring) (i : nat) :
  forallb pathChar p = true ->
  endsWith (js "src=") p = false ->
  matchAt wrapping i ((js "<img src=" ++ [dq]) ++ p ++ [dq])
  = Some (List.length (js "<img src=" ++ [dq]), None).
Proof.
  intros Hp He. apply matchAt_length. unfold wrapping.
  rewrite m_Alt_miss by reflexivity. rewrite m_Alt_miss by reflexivity.
  apply m_Alt_hit.
  pose proof (pathChars_not p 62%N Hp ltac:(vm_compute; tauto)) as P62.
  change ((js "<img src=" ++ [dq]) ++ p ++ [dq])
    with (js "<img" ++ 32%N :: (js "src=" ++ [dq]) ++ p ++ [34%N]).
  rewrite m_Seq, m_Lit_app. unfold Plus. rewrite !m_Seq.
  rewrite m_One_hit by reflexivity.
  rewrite m_Star_all.
  - rewrite m_Lit_app. unfold accept. js_lengths.
    change (List.length (js "src=" ++ [dq])) with 5.
    change (List.length (js "<img src=" ++ [dq])) with 10.
    now replace (S (i + 4) + 5) with (i + 10) by lia.
  - apply Forall_app. split; [repeat constructor|].
    apply Forall_app. split; [|repeat constructor].
    eapply Forall_impl; [|exact P62]. intros d Hd.
    cbn [cmatch]. change (js ">") with [62%N]. cbn [existsb]. now rewrite Hd.
  - intros a1 a2 E N1. exact (src_nowhere p a1 a2 _ Hp He E N1).
Qed.

(** What is left of a matched reference is its path. *)
Lemma strip_markdown (a p : jsstring) :
  forallb altChar a = true -> forallb pathChar p = true ->
  replaceAll wrapping [] (render (Markdown a p)) = p.
Proof.
  intros Ha Hp. unfold replaceAll. cbn [render].
  set (str := js "![" ++ a ++ js "](" ++ p ++ js ")").
  replace str with ((js "![" ++ a ++ js "](") ++ p ++ js ")")
    by (unfold str; now rewrite <- !app_assoc).
  rewrite (scan_hit wrapping (js "![" ++ a ++ js "](") _ 0 None ltac:(discriminate)
             (wrapping_markdown a _ 0 Ha)).
  rewrite rebuild_empty, (scan_wrapping_path p _ Hp), rebuild_app, rebuild_Keep.
  rewrite (scan_hit wrapping (js ")") [] _ None ltac:(discriminate)
             (proj1 (wrapping_closer _))).
  rewrite rebuild_empty. cbn. apply app_nil_r.
Qed.

Lemma strip_wiki (p : jsstring) :
  forallb pathChar p = true ->
  replaceAll wrapping [] (render (Wiki p)) = p.
Proof.
  intros Hp. unfold replaceAll. cbn [render].
  rewrite (scan_hit wrapping (js "![[") _ 0 None ltac:(discriminate) (wrapping_wiki p 0 Hp)).
  rewrite rebuild_empty, (scan_wrapping_path p _ Hp), rebuild_app, rebuild_Keep.
  rewrite (scan_hit wrapping (js "]]") [] _ None ltac:(discriminate)
             (proj2 (proj2 (wrapping_closer _)))).
  rewrite rebuild_empty. cbn. apply app_nil_r.
Qed.

Lemma strip_html (p : jsstring) :
  forallb pathChar p = true ->
  endsWith (js "src=") p = false ->
  replaceAll wrapping [] (matchedText (Html p)) = p.
Proof.
  intros Hp He. unfold replaceAll. cbn [matchedText].
  set (str := js "<img src=" ++ [dq] ++ p ++ [dq]).
  replace str with ((js "<img src=" ++ [dq]) ++ p ++ [dq])
    by (unfold str; now rewrite <- !app_assoc).
  rewrite (scan_hit wrapping (js "<img src=" ++ [dq]) _ 0 None ltac:(discriminate)
             (wrapping_html p 0 Hp He)).
  rewrite rebuild_empty, (scan_wrapping_path p _ Hp), rebuild_app, rebuild_Keep.
  rewrite (scan_hit wrapping [dq] [] _ None ltac:(discriminate)
             (proj1 (proj2 (wrapping_closer _)))).
  rewrite rebuild_empty. cbn. apply app_nil_r.
Qed.

End Stripping.
(** ** The references to remote images of a document *)

Section RemoteExtraction.

Import Spec.

Lemma path_not_special (c x : N) :
  pathChar c = true -> In x special -> (c =? x)%N = false.
Proof.
  intros H Hx. destruct (N.eqb_spec c x) as [->|]; [|reflexivity].
  apply pathChar_out in H. unfold special in *.
  rewrite <- not_true_iff_false in H. exfalso. apply H.
  apply existsb_exists. exists x. split; [exact Hx|apply N.eqb_refl].
Qed.

Lemma path_outside (l : jsstring) (c : N) :
  incl l special -> pathChar c = true -> existsb (N.eqb c) l = false.
Proof.
  intros I H. apply not_true_iff_false. intros E.
  apply existsb_exists in E as (x & Hx & E). apply N.eqb_eq in E as <-.
  pose proof (path_not_special c c H (I c Hx)) as F.
  rewrite N.eqb_refl in F. discriminate F.
Qed.

Lemma remote_bound (k k' : nat) (p : jsstring) (n : nat) (cp : option jsstring) :
  1 <= k <= k' -> remote k p = Some (n, cp) -> 1 <= n <= List.length p + k'.
Proof.
  unfold remote. intros K H. destruct (remoteUrl p); [|discriminate].
  injection H as <- _. lia.
Qed.

Lemma remoteMarkdown_lines (x : item) (i : nat) (rest : jsstring) :
  wellFormed x = true ->
  match hitMd (remote 1) x with
  | Some (len, cp) =>
      matchAt remoteMarkdown i (render x ++ 10%N :: rest) = Some (len, cp) /\
      1 <= len <= List.length (render x)
  | None => matchAt remoteMarkdown i (render x ++ 10%N :: rest) = None
  end.
Proof.
  apply (mdShape_lines (Group (httpPrefix >> Plus (NoneOfSpace (js ")"))) >> Lit (js ")"))
           (remote 1)).
  - apply (decides_remote (NoneOfSpace (js ")")) 41%N []).
    + intros c H. cbn [cmatch].
      rewrite (path_outside (js ")") c ltac:(intros y Hy; vm_compute in Hy |- *; tauto) H).
      unfold pathChar in H. apply andb_true_iff in H as [_ H].
      apply negb_true_iff in H. now rewrite H.
    + reflexivity.
    + vm_compute. intuition discriminate.
  - intros p n cp. apply remote_bound. lia.
Qed.

Lemma remoteHtml_lines (x : item) (i : nat) (rest : jsstring) :
  wellFormed x = true ->
  match hitHt (remote 1) x with
  | Some (len, cp) =>
      matchAt remoteHtml i (render x ++ 10%N :: rest) = Some (len, cp) /\
      1 <= len <= List.length (render x)
  | None => matchAt remoteHtml i (render x ++ 10%N :: rest) = None
  end.
Proof.
  apply (htmlShape_lines (Group (httpPrefix >> Plus (NoneOf (dq :: js ">"))) >> Lit [dq])
           (remote 1)).
  - apply (decides_remote (NoneOf (dq :: js ">")) dq []).
    + intros c H. cbn [cmatch].
      now rewrite (path_outside (dq :: js ">") c
                     ltac:(intros y Hy; vm_compute in Hy |- *; tauto) H).
    + reflexivity.
    + vm_compute. intuition discriminate.
  - reflexivity.
  - intros p n cp. apply remote_bound. lia.
Qed.

Lemma remoteWiki_lines (x : item) (i : nat) (rest : jsstring) :
  wellFormed x = true ->
  match hitWk (remote 2) x with
  | Some (len, cp) =>
      matchAt remoteWiki i (render x ++ 10%N :: rest) = Some (len, cp) /\
      1 <= len <= List.length (render x)
  | None => matchAt remoteWiki i (render x ++ 10%N :: rest) = None
  end.
Proof.
  apply (wikiShape_lines (Group (httpPrefix >> Plus (NoneOf (js "]"))) >> Lit (js "]]"))
           (remote 2)).
  - apply (decides_remote (NoneOf (js "]")) 93%N [93%N]).
    + intros c H. cbn [cmatch].
      now rewrite (path_outside (js "]") c
                     ltac:(intros y Hy; vm_compute in Hy |- *; tauto) H).
    + reflexivity.
    + vm_compute. intuition discriminate.
  - intros p n cp. apply remote_bound. lia.
Qed.

Lemma firstn_all_length {A} (l : list A) (n : nat) : n = List.length l -> firstn n l = l.
Proof. intros ->. apply firstn_all. Qed.

(** The texts that the three patterns match in a document. *)
Lemma remoteMatches_document (xs : list item) :
  Forall (fun x => wellFormed x = true) xs ->
  remoteMatches (document xs)
  = flat_map (remoteBy markdownPath) xs ++ flat_map (remoteBy htmlPath) xs
      ++ flat_map (remoteBy wikiPath) xs.
Proof.
  intros W. unfold remoteMatches, matchAll.
  rewrite (hits_document remoteMarkdown (hitMd (remote 1))
             (mdShape_marks _) remoteMarkdown_lines xs W 0).
  rewrite (hits_document remoteHtml (hitHt (remote 1))
             (htmlShape_marks _) remoteHtml_lines xs W 0).
  rewrite (hits_document remoteWiki (hitWk (remote 2))
             (wikiShape_marks _) remoteWiki_lines xs W 0).
  f_equal; [|f_equal]; clear W;
    (induction xs as [|x xs IH]; [reflexivity|]; cbn [flat_map List.map];
     rewrite map_app; apply f_equal2; [clear IH|exact IH];
     destruct x as [a p|p|p|t]; try reflexivity;
     unfold remoteBy; cbn [hitMd hitHt hitWk markdownPath htmlPath wikiPath]; unfold remote;
     destruct (remoteUrl p); [|reflexivity]; cbn [List.map fst]; f_equal).
  - apply firstn_all_length. cbn [render matchedText]. rewrite !length_app. js_lengths. lia.
  - cbn [render matchedText].
    replace (js "<img src=" ++ [dq] ++ p ++ [dq] ++ js ">")
      with ((js "<img src=" ++ [dq] ++ p ++ [dq]) ++ js ">") by now rewrite <- !app_assoc.
    assert (L : List.length (js "<img src=" ++ [dq] ++ p ++ [dq])
                = 10 + (List.length p + 1))
      by (rewrite !length_app; js_lengths; cbn [List.length]; lia).
    rewrite firstn_app, <- L, Nat.sub_diag, firstn_all. cbn [firstn]. apply app_nil_r.
  - apply firstn_all_length. cbn [render matchedText]. rewrite !length_app. js_lengths. lia.
Qed.

End RemoteExtraction.
Section Folding.

Import Spec.

Lemma addAll_filter_app (f : jsstring -> bool) (l a b : list jsstring) :
  addAll (addAll l (filter f a)) (filter f b) = addAll l (filter f (a ++ b)).
Proof. now rewrite filter_app, addAll_app. Qed.




(** The callback of the extraction of URLs, on the matched texts of one
    form. *)
Lemma fold_addRemote (origin : jsstring) (F : item -> list jsstring) (xs : list item) :
  Forall (fun x => F x = [] \/
                   exists p, F x = [p] /\ p <> [] /\
                             replaceAll wrapping [] (matchedText x) = p) xs ->
  forall set,
    fold_left (addRemote origin) (flat_map (remoteBy F) xs) set
    = addAll set (filter (served origin) (flat_map F xs)).
Proof.
  unfold addAll. induction 1 as [|x xs Hx _ IH]; intros set; [reflexivity|].
  cbn [flat_map]. rewrite filter_app, !fold_left_app, IH. f_equal.
  unfold remoteBy, served. destruct Hx as [->|(p & -> & Hn & Hs)]; [reflexivity|].
  cbn [filter]. destruct (remoteUrl p); cbn [andb fold_left]; [|reflexivity].
  unfold addRemote. rewrite Hs.
  destruct p as [|c p]; [congruence|]. cbn [truthy andb].
  now destruct (startsWith origin (c :: p)).
Qed.

Lemma Forall_flat_map_inv {A B} (P : B -> Prop) (f : A -> list B) (xs : list A) (x : A) :
  Forall P (flat_map f xs) -> In x xs -> Forall P (f x).
Proof.
  intros H Hx. apply Forall_forall. intros b Hb.
  rewrite Forall_forall in H. apply H. apply in_flat_map. now exists x.
Qed.

Lemma extractRemoteImageUrls_document (xs : list item) (origin : jsstring) :
  Forall (fun x => wellFormed x = true) xs ->
  Forall (fun p => endsWith (js "src=") p = false) (flat_map htmlPath xs) ->
  extractRemoteImageUrls (document xs) origin
  = setOf (filter (served origin) (rawPathsByForm xs)).
Proof.
  intros W C. unfold extractRemoteImageUrls, setOf, rawPathsByForm.
  rewrite (remoteMatches_document xs W), !fold_left_app.
  rewrite (fold_addRemote origin markdownPath), (fold_addRemote origin htmlPath),
    (fold_addRemote origin wikiPath).
  - now rewrite !addAll_filter_app.
  - apply Forall_forall. intros x Hx. rewrite Forall_forall in W. specialize (W x Hx).
    destruct x as [a p|p|p|t]; cbn [wikiPath]; try (now left).
    right. exists p. cbn [wellFormed] in W. apply wellFormedPath_chars in W as [Hn Hp].
    repeat split; [exact Hn|now apply strip_wiki].
  - apply Forall_forall. intros x Hx.
    pose proof (Forall_flat_map_inv _ _ _ x C Hx) as Cx.
    rewrite Forall_forall in W. specialize (W x Hx).
    destruct x as [a p|p|p|t]; cbn [htmlPath]; try (now left).
    right. exists p. cbn [wellFormed] in W. apply wellFormedPath_chars in W as [Hn Hp].
    cbn [htmlPath] in Cx. apply Forall_inv in Cx.
    repeat split; [exact Hn|now apply strip_html].
  - apply Forall_forall. intros x Hx. rewrite Forall_forall in W. specialize (W x Hx).
    destruct x as [a p|p|p|t]; cbn [markdownPath]; try (now left).
    right. exists p. cbn [wellFormed] in W. apply andb_true_iff in W as [Ha W].
    apply wellFormedPath_chars in W as [Hn Hp].
    repeat split; [exact Hn|now apply strip_markdown].
Qed.



End Folding.
(** ** C2: the references of a document *)

Import Spec.

(** ** C2 on the samples *)

Import Samples.


(** ** Further properties: patterns, paths and names *)

(** X1.  A path escaped by the replacers is a literal pattern: at any
    position of any text it matches exactly when the text goes on with
    the path, character for character, and it matches the path alone. *)
Theorem escaped_path_is_literal (p s : jsstring) (i : nat) :
  matchAt (escapedPattern (escapeRegExp p)) i s
  = if startsWith p s then Some (List.length p, None) else None.
Proof.
  rewrite escapedPattern_escapeRegExp. unfold matchAt. rewrite m_Lit.
  destruct (startsWith p s); [|reflexivity].
  unfold accept. f_equal. f_equal. lia.
Qed.

Lemma fold_add_invariant {B} (P : jsstring -> Prop) (f : list jsstring -> B -> list jsstring)
      (bs : list B) :
  (forall set b, (NoDup set /\ Forall P set) -> NoDup (f set b) /\ Forall P (f set b)) ->
  forall set, NoDup set /\ Forall P set ->
              NoDup (fold_left f bs set) /\ Forall P (fold_left f bs set).
Proof.
  intros Hf. induction bs as [|b bs IH]; intros set H; [exact H|].
  cbn [fold_left]. apply IH, Hf, H.
Qed.

Lemma add_invariant (P : jsstring -> Prop) (set : list jsstring) (x : jsstring) :
  P x -> NoDup set /\ Forall P set -> NoDup (add set x) /\ Forall P (add set x).
Proof.
  intros Hx [N F]. split; [now apply add_NoDup|].
  apply Forall_forall. intros y Hy. apply add_In in Hy as [Hy| ->]; [|exact Hx].
  rewrite Forall_forall in F. now apply F.
Qed.

(** What the callbacks of the extractions keep. *)
Lemma extraction_invariants (content origin : jsstring) :
  (NoDup (extractLocalImagePaths content) /\
   forall p, In p (extractLocalImagePaths content) -> isLocalPath p = true) /\
  (NoDup (extractRemoteImageUrls content origin) /\
   forall u, In u (extractRemoteImageUrls content origin) ->
             u <> [] /\ startsWith origin u = true).
Proof.
  split.
  - assert (S : forall set h,
               NoDup set /\ Forall (fun p => isLocalPath p = true) set ->
               NoDup (addLocal set h) /\ Forall (fun p => isLocalPath p = true) (addLocal set h)).
    { intros set h H. unfold addLocal.
      destruct (isLocalPath (trim (group1 h))) eqn:L; [|exact H].
      now apply add_invariant. }
    unfold extractLocalImagePaths.
    destruct (fold_add_invariant _ addLocal (matchAll wikiRegex content) S
                (fold_left addLocal (matchAll htmlRegex content)
                   (fold_left addLocal (matchAll markdownRegex content) [])))
      as [N F].
    + apply fold_add_invariant; [exact S|].
      apply fold_add_invariant; [exact S|]. split; constructor.
    + split; [exact N|]. now apply Forall_forall.
  - set (P := fun u : jsstring => u <> [] /\ startsWith origin u = true).
    assert (S : forall set s,
               NoDup set /\ Forall P set ->
               NoDup (addRemote origin set s) /\ Forall P (addRemote origin set s)).
    { intros set s H. unfold addRemote.
      destruct (truthy (replaceAll wrapping [] s)) eqn:T; cbn [andb]; [|exact H].
      destruct (startsWith origin (replaceAll wrapping [] s)) eqn:O; [|exact H].
      apply add_invariant; [|exact H]. split; [|exact O].
      intros X. rewrite X in T. discriminate T. }
    unfold extractRemoteImageUrls.
    destruct (fold_add_invariant P (addRemote origin) (remoteMatches content) S [])
      as [N F]; [split; constructor|].
    split; [exact N|]. now apply Forall_forall.
Qed.

(** X2.  Whatever the text, the extractions return no entry twice; every
    local path is one that [isLocalPath] accepts, and every remote URL
    is not empty and starts with the origin that was asked for. *)
Theorem extractions_filtered_and_distinct (content origin : jsstring) :
  (NoDup (extractLocalImagePaths content) /\
   forall p, In p (extractLocalImagePaths content) -> isLocalPath p = true) /\
  (NoDup (extractRemoteImageUrls content origin) /\
   forall u, In u (extractRemoteImageUrls content origin) ->
             u <> [] /\ startsWith origin u = true).
Proof. exact (extraction_invariants content origin). Qed.

(** X3.  The search by basename returns a file of the vault whose name
    is the basename or its percent-decoded form; a file with the very
    name is preferred; and it returns nothing exactly when no file of
    the vault has either name. *)
Theorem findFileByBasename_by_name (v : vault) (base : jsstring) :
  (forall f c, findFileByBasename v base = Some (f, c) ->
     In (f, c) (getFiles v) /\
     (name f = base \/ decodeURIComponent base = Some (name f))) /\
  ((exists f c, In (f, c) (getFiles v) /\ name f = base) ->
   exists f c, findFileByBasename v base = Some (f, c) /\ name f = base) /\
  (findFileByBasename v base = None <->
   forall f c, In (f, c) (getFiles v) ->
     name f <> base /\ decodeURIComponent base <> Some (name f)).
Proof.
  unfold findFileByBasename.
  split; [|split].
  - intros f c H.
    destruct (find (fun fc => JsString.eqb (name (fst fc)) base) (getFiles v)) as [fc|] eqn:F1.
    + injection H as ->. apply find_some in F1 as [I E]. apply jseqb_eq in E. auto.
    + destruct (decodeURIComponent base) as [d|]; [|discriminate].
      apply find_some in H as [I E]. apply jseqb_eq in E. cbn [fst] in E. subst d. auto.
  - intros (f & c & I & E).
    destruct (find (fun fc => JsString.eqb (name (fst fc)) base) (getFiles v)) as [[g d]|] eqn:F1.
    + exists g, d. split; [reflexivity|]. apply find_some in F1 as [_ X]. now apply jseqb_eq in X.
    + pose proof (find_none _ _ F1 (f, c) I) as X. cbn [fst] in X.
      apply jseqb_neq in X. contradiction.
  - split.
    + intros H f c I.
      destruct (find (fun fc => JsString.eqb (name (fst fc)) base) (getFiles v)) eqn:F1;
        [discriminate|].
      pose proof (find_none _ _ F1 (f, c) I) as X. cbn [fst] in X. apply jseqb_neq in X.
      split; [exact X|]. intros D. rewrite D in H.
      pose proof (find_none _ _ H (f, c) I) as Y. cbn [fst] in Y.
      now rewrite jseqb_refl in Y.
    + intros H.
      destruct (find (fun fc => JsString.eqb (name (fst fc)) base) (getFiles v)) as [[g d]|] eqn:F1.
      * apply find_some in F1 as [I E]. apply jseqb_eq in E. now destruct (H g d I).
      * destruct (decodeURIComponent base) as [d|] eqn:D; [|reflexivity].
        destruct (find (fun fc => JsString.eqb (name (fst fc)) d) (getFiles v)) as [[g e]|] eqn:F2;
          [|reflexivity].
        apply find_some in F2 as [I E]. apply jseqb_eq in E. cbn [fst] in E. subst d.
        destruct (H g e I) as [_ X]. now elim X.
Qed.
Lemma existsb_eqb_In (x : N) (l : jsstring) : existsb (N.eqb x) l = true <-> In x l.
Proof.
  rewrite existsb_exists. split.
  - intros (y & Hy & E). apply N.eqb_eq in E. now subst.
  - intros H. exists x. split; [exact H|apply N.eqb_refl].
Qed.

Lemma existsb_eqb_out (x : N) (l : jsstring) : existsb (N.eqb x) l = false <-> ~ In x l.
Proof.
  rewrite <- existsb_eqb_In. destruct (existsb (N.eqb x) l); split; congruence.
Qed.

(** What follows the last separator holds no separator. *)
Lemma lastSegment_clean (sep : N) (s : jsstring) : ~ In sep (lastSegment sep s).
Proof.
  induction s as [|c s IH]; [intros []|].
  cbn [lastSegment]. destruct (existsb (N.eqb sep) s) eqn:X; [exact IH|].
  apply existsb_eqb_out in X.
  destruct (N.eqb_spec c sep) as [->|Hc]; [exact X|].
  intros [H|H]; [now elim Hc|now elim X].
Qed.

Lemma lastSegment_app (sep : N) (a b : jsstring) :
  ~ In sep b -> lastSegment sep (a ++ sep :: b) = b.
Proof.
  intros Hb. induction a as [|c a IH]; cbn [app lastSegment].
  - apply existsb_eqb_out in Hb. now rewrite Hb, N.eqb_refl.
  - assert (X : existsb (N.eqb sep) (a ++ sep :: b) = true).
    { apply existsb_eqb_In, in_or_app. right. now left. }
    now rewrite X.
Qed.

(** X4.  The name under which an image is uploaded ends with a dot and
    an extension that is never empty and holds no dot: what follows the
    last dot of the original name, or bin when nothing follows it; the
    server reads the same extension from the new name. *)
Theorem generateTimestampFilename_keeps_extension (timestamp : N) (originalName : jsstring)
        (noteFile : option TFile) :
  extOf originalName <> [] /\
  ~ In 46%N (extOf originalName) /\
  (lastSegment 46%N originalName <> [] ->
   extOf originalName = lastSegment 46%N originalName) /\
  lastSegment 46%N (generateTimestampFilename timestamp originalName noteFile)
  = extOf originalName.
Proof.
  assert (C : ~ In 46%N (extOf originalName)).
  { unfold extOf. destruct (truthy (lastSegment 46%N originalName)).
    - apply lastSegment_clean.
    - vm_compute. intuition discriminate. }
  split; [|split; [exact C|split]].
  - unfold extOf. destruct (lastSegment 46%N originalName) as [|c e] eqn:L; discriminate.
  - unfold extOf. now destruct (lastSegment 46%N originalName).
  - unfold generateTimestampFilename.
    change (js ".") with [46%N]. rewrite !app_assoc. rewrite <- app_assoc.
    now apply lastSegment_app.
Qed.

Lemma tokens_nonempty (s : jsstring) (ts : list Uri.token) :
  tokens s = Some ts -> s <> [] -> ts <> [].
Proof.
  intros H Hs. destruct s as [|c s]; [congruence|].
  cbn [tokens] in H.
  repeat match type of H with
         | context [match ?x with _ => _ end] => destruct x; try discriminate
         end; injection H as <-; discriminate.
Qed.

Lemma utf16_nonempty (v : N) : utf16 v <> [].
Proof. unfold utf16. destruct (v <? 65536)%N; discriminate. Qed.

Lemma scalar_nonempty (lo v : N) (u : jsstring) : scalar lo v = Some u -> u <> [].
Proof.
  unfold scalar. destruct (_ && _); [|discriminate]. intros [= <-]. apply utf16_nonempty.
Qed.

Lemma utf8_nonempty (ts : list Uri.token) (d : jsstring) :
  utf8 ts = Some d -> ts <> [] -> d <> [].
Proof.
  intros H Hs. destruct ts as [|t ts]; [congruence|].
  cbn [utf8] in H. destruct t as [c|b].
  - destruct (utf8 ts); [|discriminate]. injection H as <-. discriminate.
  - repeat match type of H with
           | context [match ?x with _ => _ end] =>
               let E := fresh "E" in destruct x eqn:E; try discriminate
           end;
      injection H as <-; try discriminate;
      match goal with
      | E : scalar _ _ = Some ?u |- _ =>
          pose proof (scalar_nonempty _ _ _ E); destruct u; [congruence|discriminate]
      end.
Qed.

Lemma decodeURIComponent_nonempty (s d : jsstring) :
  decodeURIComponent s = Some d -> s <> [] -> d <> [].
Proof.
  unfold decodeURIComponent. destruct (tokens s) as [ts|] eqn:T; [|discriminate].
  intros H Hs. exact (utf8_nonempty ts d H (tokens_nonempty s ts T Hs)).
Qed.

(** X5.  The file name taken from a URL is never empty: a URL that does
    not parse, a path that ends in a slash and a name that does not
    decode all give image. *)
Theorem fileNameFromUrl_never_empty (E : env) (url : jsstring) :
  fileNameFromUrl E url <> [] /\
  (parseUrl E url = None -> fileNameFromUrl E url = js "image") /\
  (forall u, parseUrl E url = Some u -> lastSegment 47%N (url_pathname u) = [] ->
             fileNameFromUrl E url = js "image").
Proof.
  unfold fileNameFromUrl. split; [|split].
  - destruct (parseUrl E url) as [u|]; [|discriminate].
    destruct (lastSegment 47%N (url_pathname u)) as [|c seg] eqn:L; cbn [truthy].
    + vm_compute. discriminate.
    + destruct (decodeURIComponent (c :: seg)) as [d|] eqn:D; [|discriminate].
      apply (decodeURIComponent_nonempty _ _ D). discriminate.
  - now intros ->.
  - intros u -> ->. reflexivity.
Qed.
(** ** Further properties: percent-encoding *)

Section RoundTrip.

Lemma hexDigit_hexChar (d : N) : (d < 16)%N -> hexDigit (hexChar d) = Some d.
Proof.
  intros H. unfold hexChar, hexDigit.
  destruct (N.ltb_spec d 10).
  - replace ((48 <=? 48 + d)%N && (48 + d <=? 57)%N) with true.
    + f_equal. lia.
    + symmetry. apply andb_true_iff. split; apply N.leb_le; lia.
  - replace ((48 <=? 55 + d)%N && (55 + d <=? 57)%N) with false.
    + replace ((65 <=? 55 + d)%N && (55 + d <=? 70)%N) with true.
      * f_equal. lia.
      * symmetry. apply andb_true_iff. split; apply N.leb_le; lia.
    + symmetry. apply andb_false_iff. right. apply N.leb_gt. lia.
Qed.

Lemma tokens_pct (b : N) (rest : jsstring) :
  (b < 256)%N ->
  tokens (pct b ++ rest) =
  match tokens rest with Some ts => Some (Octet b :: ts) | None => None end.
Proof.
  intros H. unfold pct. cbn [app tokens].
  assert (D : (b / 16 < 16)%N) by (apply N.Div0.div_lt_upper_bound; lia).
  assert (M : (b mod 16 < 16)%N) by (apply N.mod_lt; lia).
  rewrite (hexDigit_hexChar _ D), (hexDigit_hexChar _ M).
  destruct (tokens rest); [|reflexivity].
  do 3 f_equal. pose proof (N.div_mod b 16 ltac:(lia)). lia.
Qed.

Lemma tokens_plain (c : N) (rest : jsstring) :
  c <> 37%N ->
  tokens (c :: rest) =
  match tokens rest with Some ts => Some (Unit c :: ts) | None => None end.
Proof.
  intros H. cbn [tokens].
  destruct c as [|p]; [reflexivity|].
  do 6 (destruct p as [p|p|]; try reflexivity). now elim H.
Qed.

Ltac leb_true := apply N.leb_le; lia.
Ltac ltb_true := apply N.ltb_lt; lia.
Ltac ltb_false := apply N.ltb_ge; lia.

(** The quotients and remainders of a code point by 64, 4096 and
    262144. *)
Lemma sextets (v : N) :
  exists q1 q2 q3 r1 r2 r3 : N,
    (v / 64 = q1 /\ v mod 64 = r1 /\ (v / 64) mod 64 = r2 /\ v / 4096 = q2 /\
     (v / 4096) mod 64 = r3 /\ v / 262144 = q3 /\
     v = 64 * q1 + r1 /\ q1 = 64 * q2 + r2 /\ q2 = 64 * q3 + r3 /\
     r1 < 64 /\ r2 < 64 /\ r3 < 64)%N.
Proof.
  exists (v / 64)%N, (v / 64 / 64)%N, (v / 64 / 64 / 64)%N,
         (v mod 64)%N, ((v / 64) mod 64)%N, ((v / 64 / 64) mod 64)%N.
  assert (E1 : (v / 4096 = v / 64 / 64)%N) by (rewrite N.Div0.div_div; reflexivity).
  assert (E2 : (v / 262144 = v / 64 / 64 / 64)%N) by (rewrite !N.Div0.div_div; reflexivity).
  rewrite E1, E2.
  repeat split; try (apply N.div_mod; lia); try (apply N.mod_lt; lia).
Qed.

Lemma utf8Octets_bytes (v : N) :
  (v <= 1114111)%N -> Forall (fun b => (b < 256)%N) (utf8Octets v).
Proof.
  intros H. destruct (sextets v) as (q1&q2&q3&r1&r2&r3&A1&A2&A3&A4&A5&A6&B1&B2&B3&C1&C2&C3).
  unfold utf8Octets. rewrite ?A3, ?A5, ?A1, ?A2, ?A4, ?A6.
  destruct (N.ltb_spec v 128); [repeat constructor; lia|].
  destruct (N.ltb_spec v 2048); [repeat constructor; lia|].
  destruct (N.ltb_spec v 65536); repeat constructor; lia.
Qed.

Lemma tokens_escaped (v : N) (rest : jsstring) :
  (v <= 1114111)%N ->
  tokens (escaped v ++ rest) =
  match tokens rest with
  | Some ts => Some (List.map Octet (utf8Octets v) ++ ts)
  | None => None
  end.
Proof.
  intros H. pose proof (utf8Octets_bytes v H) as B. unfold escaped.
  induction B as [|b l Hb _ IH]; cbn [flat_map List.map app].
  - now destruct (tokens rest).
  - rewrite <- app_assoc, (tokens_pct b _ Hb), IH. now destruct (tokens rest).
Qed.

(** The decoder reads the octets of a code point as the code point. *)
Lemma utf8_octets (v : N) (ts : list Uri.token) :
  (v <= 1114111)%N ->
  ~ (55296 <= v <= 57343)%N ->
  utf8 (List.map Octet (utf8Octets v) ++ ts) =
  match utf8 ts with Some r => Some (utf16 v ++ r) | None => None end.
Proof.
  intros H S. destruct (sextets v) as (q1&q2&q3&r1&r2&r3&A1&A2&A3&A4&A5&A6&B1&B2&B3&C1&C2&C3).
  unfold utf8Octets. rewrite ?A3, ?A5, ?A1, ?A2, ?A4, ?A6.
  assert (NS : negb ((55296 <=? v)%N && (v <=? 57343)%N) = true).
  { apply negb_true_iff, andb_false_iff.
    destruct (N.leb_spec 55296 v); [right; apply N.leb_gt; lia|now left]. }
  destruct (N.ltb_spec v 128) as [L1|L1].
  - cbn [List.map app utf8]. replace (v <? 128)%N with true by (symmetry; ltb_true).
    unfold utf16. replace (v <? 65536)%N with true by (symmetry; ltb_true).
    now destruct (utf8 ts).
  - destruct (N.ltb_spec v 2048) as [L2|L2].
    + cbn [List.map app utf8].
      replace (192 + q1 <? 128)%N with false by (symmetry; ltb_false).
      replace ((192 <=? 192 + q1)%N && (192 + q1 <=? 223)%N) with true
        by (symmetry; apply andb_true_iff; split; leb_true).
      unfold isContinuation.
      replace ((128 <=? 128 + r1)%N && (128 + r1 <=? 191)%N) with true
        by (symmetry; apply andb_true_iff; split; leb_true).
      replace ((192 + q1 - 192) * 64 + (128 + r1 - 128))%N with v by lia.
      unfold scalar. rewrite NS.
      replace ((128 <=? v)%N && (v <=? 1114111)%N) with true
        by (symmetry; apply andb_true_iff; split; leb_true).
      cbn [andb]. unfold utf16. replace (v <? 65536)%N with true by (symmetry; ltb_true).
      now destruct (utf8 ts).
    + destruct (N.ltb_spec v 65536) as [L3|L3].
      * cbn [List.map app utf8].
        replace (224 + q2 <? 128)%N with false by (symmetry; ltb_false).
        replace ((192 <=? 224 + q2)%N && (224 + q2 <=? 223)%N) with false
          by (symmetry; apply andb_false_iff; right; apply N.leb_gt; lia).
        replace ((224 <=? 224 + q2)%N && (224 + q2 <=? 239)%N) with true
          by (symmetry; apply andb_true_iff; split; leb_true).
        unfold isContinuation.
        replace ((128 <=? 128 + r2)%N && (128 + r2 <=? 191)%N) with true
          by (symmetry; apply andb_true_iff; split; leb_true).
        replace ((128 <=? 128 + r1)%N && (128 + r1 <=? 191)%N) with true
          by (symmetry; apply andb_true_iff; split; leb_true).
        cbn [andb].
        replace ((224 + q2 - 224) * 4096 + (128 + r2 - 128) * 64 + (128 + r1 - 128))%N
          with v by lia.
        unfold scalar. rewrite NS.
        replace ((2048 <=? v)%N && (v <=? 1114111)%N) with true
          by (symmetry; apply andb_true_iff; split; leb_true).
        cbn [andb]. unfold utf16. replace (v <? 65536)%N with true by (symmetry; ltb_true).
        now destruct (utf8 ts).
      * cbn [List.map app utf8].
        replace (240 + q3 <? 128)%N with false by (symmetry; ltb_false).
        replace ((192 <=? 240 + q3)%N && (240 + q3 <=? 223)%N) with false
          by (symmetry; apply andb_false_iff; right; apply N.leb_gt; lia).
        replace ((224 <=? 240 + q3)%N && (240 + q3 <=? 239)%N) with false
          by (symmetry; apply andb_false_iff; right; apply N.leb_gt; lia).
        replace ((240 <=? 240 + q3)%N && (240 + q3 <=? 247)%N) with true
          by (symmetry; apply andb_true_iff; split; leb_true).
        unfold isContinuation.
        replace ((128 <=? 128 + r3)%N && (128 + r3 <=? 191)%N) with true
          by (symmetry; apply andb_true_iff; split; leb_true).
        replace ((128 <=? 128 + r2)%N && (128 + r2 <=? 191)%N) with true
          by (symmetry; apply andb_true_iff; split; leb_true).
        replace ((128 <=? 128 + r1)%N && (128 + r1 <=? 191)%N) with true
          by (symmetry; apply andb_true_iff; split; leb_true).
        cbn [andb].
        replace ((240 + q3 - 240) * 262144 + (128 + r3 - 128) * 4096
                 + (128 + r2 - 128) * 64 + (128 + r1 - 128))%N with v by lia.
        unfold scalar. rewrite NS.
        replace ((65536 <=? v)%N && (v <=? 1114111)%N) with true
          by (symmetry; apply andb_true_iff; split; leb_true).
        cbn [andb]. now destruct (utf8 ts).
Qed.

(** A surrogate pair and its code point. *)
Lemma utf16_pair (c d : N) :
  isLead c = true -> isTrail d = true ->
  let v := ((c - 55296) * 1024 + (d - 56320) + 65536)%N in
  utf16 v = [c; d] /\ (v <= 1114111)%N /\ ~ (55296 <= v <= 57343)%N.
Proof.
  unfold isLead, isTrail. intros Hc Hd.
  apply andb_true_iff in Hc as [C1 C2]. apply andb_true_iff in Hd as [D1 D2].
  apply N.leb_le in C1, C2, D1, D2. cbn zeta.
  set (v := ((c - 55296) * 1024 + (d - 56320) + 65536)%N).
  assert (V : (v - 65536 = (c - 55296) * 1024 + (d - 56320))%N) by (unfold v; lia).
  split; [|split; unfold v; lia].
  unfold utf16. replace (v <? 65536)%N with false by (symmetry; unfold v; ltb_false).
  rewrite V.
  assert (Q : (((c - 55296) * 1024 + (d - 56320)) / 1024 = c - 55296)%N).
  { rewrite N.div_add_l by lia. rewrite N.div_small by lia. lia. }
  assert (R : (((c - 55296) * 1024 + (d - 56320)) mod 1024 = d - 56320)%N).
  { rewrite N.add_comm, N.Div0.mod_add. apply N.mod_small. lia. }
  rewrite Q, R. f_equal; [lia|f_equal; lia].
Qed.

Lemma not_surrogate (c : N) :
  isLead c = false -> isTrail c = false -> ~ (55296 <= c <= 57343)%N.
Proof.
  unfold isLead, isTrail. intros L T [A B].
  apply andb_false_iff in L. apply andb_false_iff in T.
  destruct L as [L|L], T as [T|T];
    try apply N.leb_gt in L; try apply N.leb_gt in T; lia.
Qed.

Lemma roundtrip_by_length (n : nat) :
  forall s : jsstring,
    List.length s <= n ->
    Forall (fun c => (c < 65536)%N) s ->
    forall e, encodeURIComponent s = Some e ->
              exists ts, tokens e = Some ts /\ utf8 ts = Some s.
Proof.
  induction n as [|n IH]; intros s Hn Hs e He.
  - destruct s; [|simpl in Hn; lia]. injection He as <-. now exists [].
  - destruct s as [|c t]; [injection He as <-; now exists []|].
    cbn [List.length] in Hn. inversion Hs as [|? ? Hc Ht]; subst.
    cbn [encodeURIComponent] in He.
    destruct (unreserved c) eqn:U.
    + destruct (encodeURIComponent t) as [r|] eqn:R; [|discriminate]. injection He as <-.
      destruct (IH t ltac:(lia) Ht r R) as (ts & T1 & T2).
      exists (Unit c :: ts). split.
      * rewrite tokens_plain, T1; [reflexivity|]. intros ->. discriminate U.
      * cbn [utf8]. now rewrite T2.
    + destruct (isLead c) eqn:L.
      * destruct t as [|d t']; [discriminate|].
        destruct (isTrail d) eqn:T; [|discriminate].
        destruct (encodeURIComponent t') as [r|] eqn:R; [|discriminate]. injection He as <-.
        inversion Ht as [|? ? Hd Ht']; subst. cbn [List.length] in Hn.
        destruct (IH t' ltac:(lia) Ht' r R) as (ts & T1 & T2).
        destruct (utf16_pair c d L T) as (P1 & P2 & P3).
        eexists. split.
        -- rewrite (tokens_escaped _ r P2), T1. reflexivity.
        -- rewrite (utf8_octets _ ts P2 P3), T2, P1. reflexivity.
      * destruct (isTrail c) eqn:T; [discriminate|].
        destruct (encodeURIComponent t) as [r|] eqn:R; [|discriminate]. injection He as <-.
        destruct (IH t ltac:(lia) Ht r R) as (ts & T1 & T2).
        assert (P2 : (c <= 1114111)%N) by lia.
        eexists. split.
        -- rewrite (tokens_escaped _ r P2), T1. reflexivity.
        -- rewrite (utf8_octets _ ts P2 (not_surrogate c L T)), T2.
           unfold utf16. now replace (c <? 65536)%N with true by (symmetry; ltb_true).
Qed.

Lemma hexChar_unreserved (d : N) : (d < 16)%N -> unreserved (hexChar d) = true.
Proof.
  intros H. unfold hexChar, unreserved.
  destruct (N.ltb_spec d 10).
  - replace ((48 <=? 48 + d)%N && (48 + d <=? 57)%N) with true
      by (symmetry; apply andb_true_iff; split; leb_true).
    now rewrite !orb_true_r.
  - replace ((65 <=? 55 + d)%N && (55 + d <=? 90)%N) with true
      by (symmetry; apply andb_true_iff; split; leb_true).
    reflexivity.
Qed.

Lemma escaped_alphabet (v : N) :
  (v <= 1114111)%N ->
  Forall (fun x => unreserved x = true \/ x = 37%N) (escaped v).
Proof.
  intros H. pose proof (utf8Octets_bytes v H) as B. unfold escaped.
  induction B as [|b l Hb _ IH]; cbn [flat_map]; [constructor|].
  apply Forall_app. split; [|exact IH].
  unfold pct. constructor; [now right|].
  constructor; [left; apply hexChar_unreserved, N.Div0.div_lt_upper_bound; lia|].
  constructor; [left; apply hexChar_unreserved, N.mod_lt; lia|constructor].
Qed.

Lemma alphabet_by_length (n : nat) :
  forall s : jsstring,
    List.length s <= n ->
    Forall (fun c => (c < 65536)%N) s ->
    forall e, encodeURIComponent s = Some e ->
              Forall (fun x => unreserved x = true \/ x = 37%N) e.
Proof.
  induction n as [|n IH]; intros s Hn Hs e He.
  - destruct s; [|simpl in Hn; lia]. injection He as <-. constructor.
  - destruct s as [|c t]; [injection He as <-; constructor|].
    cbn [List.length] in Hn. inversion Hs as [|? ? Hc Ht]; subst.
    cbn [encodeURIComponent] in He.
    destruct (unreserved c) eqn:U.
    + destruct (encodeURIComponent t) as [r|] eqn:R; [|discriminate]. injection He as <-.
      constructor; [now left|]. exact (IH t ltac:(lia) Ht r R).
    + destruct (isLead c) eqn:L.
      * destruct t as [|d t']; [discriminate|].
        destruct (isTrail d) eqn:T; [|discriminate].
        destruct (encodeURIComponent t') as [r|] eqn:R; [|discriminate]. injection He as <-.
        inversion Ht as [|? ? Hd Ht']; subst. cbn [List.length] in Hn.
        destruct (utf16_pair c d L T) as (P1 & P2 & P3).
        apply Forall_app. split; [now apply escaped_alphabet|].
        exact (IH t' ltac:(lia) Ht' r R).
      * destruct (isTrail c) eqn:T; [discriminate|].
        destruct (encodeURIComponent t) as [r|] eqn:R; [|discriminate]. injection He as <-.
        apply Forall_app. split; [apply escaped_alphabet; lia|].
        exact (IH t ltac:(lia) Ht r R).
Qed.

End RoundTrip.

(** X6.  Percent-encoding and decoding are inverse on strings of 16-bit
    code units: what [encodeURIComponent] returns holds only unreserved
    characters and percent signs, so no slash, question mark or hash,
    and [decodeURIComponent] reads it back as the string. *)
Theorem encodeURIComponent_round_trip (s e : jsstring) :
  Forall (fun c => (c < 65536)%N) s ->
  encodeURIComponent s = Some e ->
  decodeURIComponent e = Some s /\
  Forall (fun x => unreserved x = true \/ x = 37%N) e /\
  ~ In 47%N e /\ ~ In 63%N e /\ ~ In 35%N e.
Proof.
  intros Hs He.
  destruct (roundtrip_by_length (List.length s) s (le_n _) Hs e He) as (ts & T1 & T2).
  pose proof (alphabet_by_length (List.length s) s (le_n _) Hs e He) as A.
  split; [unfold decodeURIComponent; now rewrite T1|].
  split; [exact A|].
  rewrite Forall_forall in A.
  repeat split; intros X; destruct (A _ X) as [U|U]; discriminate U.
Qed.
(** ** Further properties: the client *)

Section ClientOutcomes.

Variable E : env.

(** A call of [getToken] with no acquisition under way. *)
Lemma getToken_run (polls : nat) (w : world) :
  isFetchingToken w = false ->
  exists (r : outcome jsstring) (w' : world),
    getToken E polls w = (r, w') /\
    trace w' = trace w ++ [Fetch (tokenRequest w)] /\
    r_authorization (tokenRequest w) = None /\
    isFetchingToken w' = false /\
    files w' = files w /\
    match r with
    | Ok t =>
        truthy t = true /\ token (config w') = Some t /\
        serverUrl (config w') = serverUrl (config w) /\
        email (config w') = email (config w) /\
        password (config w') = password (config w)
    | Throw e => config w' = config w
    | Stuck => False
    end.
Proof.
  intros Hw. rewrite (getToken_idle E polls w Hw), acquireToken_eq. cbn zeta.
  pose proof (tokenOutcome_truthy (net E (trace w ++ [Fetch (tokenRequest w)]))) as T.
  pose proof (tokenOutcome_not_stuck (net E (trace w ++ [Fetch (tokenRequest w)]))) as NS.
  destruct (Spec.tokenOutcome (net E (trace w ++ [Fetch (tokenRequest w)]))) as [t|e|].
  - eexists _, _. split; [reflexivity|]. repeat split. now apply T.
  - eexists _, _. split; [reflexivity|]. repeat split.
  - now elim NS.
Qed.

(** X7.  A call of [getToken] with no acquisition under way sends one
    request, the credentials to {serverUrl}/tokens without a bearer
    token, and leaves the flag clear and the vault as it was.  A token
    that it returns is not empty and is the one that it has stored; when
    it throws, the stored token and the rest of the configuration are
    unchanged. *)
Theorem getToken_stores_what_it_returns (polls : nat) (w : world) :
  isFetchingToken w = false ->
  exists (r : outcome jsstring) (w' : world),
    getToken E polls w = (r, w') /\
    trace w' = trace w ++ [Fetch (tokenRequest w)] /\
    r_authorization (tokenRequest w) = None /\
    isFetchingToken w' = false /\
    files w' = files w /\
    match r with
    | Ok t =>
        truthy t = true /\ token (config w') = Some t /\
        serverUrl (config w') = serverUrl (config w) /\
        email (config w') = email (config w) /\
        password (config w') = password (config w)
    | Throw e => config w' = config w
    | Stuck => False
    end.
Proof. exact (getToken_run polls w). Qed.

(** The reply that [authorizedFetch] returns is the answer to the last
    request that it has sent, which is the request of the caller. *)
Lemma authorizedFetch_last (polls : nat) (input : jsstring) (init : RequestInit)
      (retry401 : bool) (w w' : world) (res : response) :
  authorizedFetch E polls input init retry401 w = (Ok res, w') ->
  net E (trace w') = Replied res /\
  exists evs auth, trace w' = trace w ++ evs ++ [Fetch (Spec.requestOf init input auth)].
Proof.
  unfold authorizedFetch. cbn [authorizedFetchRec]. unfold bind at 1. unfold gets at 1.
  unfold bind at 1. unfold fetch at 1.
  fold (Spec.requestOf init input (bearer w)).
  destruct (net E (trace (record (Fetch (Spec.requestOf init input (bearer w))) w)))
    as [|res1] eqn:R1; [discriminate|].
  destruct ((status res1 =? 401)%N && retry401).
  - unfold bind at 1.
    destruct (getToken E polls (record (Fetch (Spec.requestOf init input (bearer w))) w))
      as [[t|e|] w1] eqn:G; try discriminate.
    unfold bind at 1. unfold gets at 1. unfold bind at 1. unfold fetch at 1.
    fold (Spec.requestOf init input (bearer w1)).
    destruct (net E (trace (record (Fetch (Spec.requestOf init input (bearer w1))) w1)))
      as [|res2] eqn:R2; [discriminate|].
    rewrite andb_false_r. unfold ret. intros [= <- <-]. split; [exact R2|].
    destruct (Emits_getToken E (fun _ => True) (fun _ => I) (fun _ _ => I) polls _ _ _ G) as (_ & _ & evs & Tr & _).
    cbn [trace record] in *. rewrite Tr.
    exists ([Fetch (Spec.requestOf init input (bearer w))] ++ evs), (bearer w1).
    now rewrite <- !app_assoc.
  - unfold ret. intros [= <- <-]. split; [exact R1|].
    exists [], (bearer w). reflexivity.
Qed.

(** X8.  A URL that [uploadBinary] returns is not empty and is the
    [data.links.url] of the server's answer to the last request sent, a
    POST of the form data to {serverUrl}/upload that was answered with a
    success status and a true [status] field; the strategy is 1 when
    none is given. *)
Theorem uploadBinary_returns_answered_url (polls : nat) (bin : binary)
        (filename : jsstring) (mimeType : mime) (strategyId : option N) (w w' : world) (u : jsstring) :
  uploadBinary E polls bin filename mimeType strategyId w = (Ok u, w') ->
  truthy u = true /\
  exists (res : response) (j : envelope) (evs : list event) (auth : option jsstring),
    net E (trace w') = Replied res /\
    ok res = true /\ json res = Some j /\ e_status j = true /\ e_url j = Some u /\
    trace w' = trace w ++ evs ++
      [Fetch {| r_method := POST; r_url := baseUrl w ++ js "/upload";
                r_authorization := auth;
                r_body := FormData bin filename mimeType
                            (decimal (match strategyId with Some n => n | None => 1%N end)) |}].
Proof.
  unfold uploadBinary. unfold bind at 1. unfold gets at 1. unfold bind at 1.
  destruct (authorizedFetch E polls (baseUrl w ++ js "/upload") _ true w)
    as [[res|e|] w1] eqn:A; try discriminate.
  destruct (authorizedFetch_last _ _ _ _ _ _ _ A) as (L & evs & auth & Tr).
  destruct (ok res) eqn:K; cbn [negb]; [|discriminate].
  destruct (json res) as [j|] eqn:J; [|discriminate].
  destruct (e_status j) eqn:S; cbn [negb orb]; [|discriminate].
  destruct (e_url j) as [u'|] eqn:U; cbn [truthyOpt]; [|discriminate].
  destruct (truthy u') eqn:T; cbn [negb]; [|discriminate].
  unfold ret. intros [= <- <-]. split; [exact T|].
  exists res, j, evs, auth. repeat split; assumption.
Qed.

(** A deletion with no acquisition under way, case by case on what
    the server answers. *)
Lemma deleteImageByKey_run (polls : nat) (k ek : jsstring) (w : world) :
  isFetchingToken w = false ->
  encodeURIComponent k = Some ek ->
  exists (r : outcome unit) (w' : world),
    deleteImageByKey E polls k w = (r, w') /\
    (files w' = files w /\ isFetchingToken w' = false /\
     serverUrl (config w') = serverUrl (config w)) /\
    let first := Fetch (Spec.deletionRequest (baseUrl w) ek (bearer w)) in
    let refresh := Fetch (tokenRequest w) in
    match net E (trace w ++ [first]) with
    | Replied res1 =>
        if (status res1 =? 401)%N then
          match Spec.tokenOutcome (net E (trace w ++ [first; refresh])) with
          | Ok t =>
              trace w' = trace w ++ [first; refresh;
                                     Fetch (Spec.deletionRequest (baseUrl w) ek
                                              (Some (js "Bearer " ++ t)))] /\
              r = Spec.deleted (net E (trace w'))
          | Throw e => trace w' = trace w ++ [first; refresh] /\ r = Throw e
          | Stuck => False
          end
        else trace w' = trace w ++ [first] /\ r = Spec.deleted (Replied res1)
    | Rejected => trace w' = trace w ++ [first] /\ r = Throw FetchRejected
    end.
Proof.
  intros Hw Hk.
  destruct (authorizedFetch_run E polls (baseUrl w ++ js "/images/" ++ ek)
              {| i_method := DELETE; i_body := NoBody |} w Hw)
    as (r0 & w0 & Run & Fr & H).
  unfold deleteImageByKey. unfold bind at 1. unfold gets at 1. rewrite Hk.
  unfold bind at 1. rewrite Run.
  exists (match r0 with
          | Ok res => if negb (ok res) then Throw (Http (status res) []) else Ok tt
          | Throw e => Throw e
          | Stuck => Stuck
          end), w0.
  split; [destruct r0 as [res|e|]; [destruct (negb (ok res))|..]; reflexivity|].
  split; [exact Fr|]. cbn zeta in *.
  change (Spec.requestOf {| i_method := DELETE; i_body := NoBody |}
            (baseUrl w ++ js "/images/" ++ ek))
    with (Spec.deletionRequest (baseUrl w) ek) in H.
  destruct (net E (trace w ++ [Fetch (Spec.deletionRequest (baseUrl w) ek (bearer w))])) as [|res1].
  - destruct H as [T ->]. now split.
  - destruct (status res1 =? 401)%N.
    + destruct (Spec.tokenOutcome _) as [t|e|]; [| |exact H].
      * destruct H as (T & _ & ->). split; [exact T|].
        destruct (net E (trace w0)) as [|res2]; cbn [Spec.fetched Spec.deleted];
          [reflexivity|]. destruct (ok res2); reflexivity.
      * destruct H as [T ->]. now split.
    + destruct H as [T ->]. split; [exact T|].
      cbn [Spec.deleted]. destruct (ok res1); reflexivity.
Qed.

(** X9.  With no acquisition under way, [deleteImageByKey] sends a
    DELETE request to {serverUrl}/images/ followed by the
    percent-encoded key, with the bearer token when there is one, and
    this is the first thing it does.  An answer other than 401 ends the
    call: it returns when the status is a success and throws HTTP and
    the status otherwise.  On 401 it asks for a token once and, with the
    token, sends the request once more, whose answer decides in the same
    way.  A key that cannot be encoded (a lone surrogate) makes it throw
    before anything is sent. *)
Theorem deleteImageByKey_addresses_the_key (polls : nat) (k : jsstring) (w : world) :
  isFetchingToken w = false ->
  (encodeURIComponent k = None -> deleteImageByKey E polls k w = (Throw UriError, w)) /\
  (forall ek, encodeURIComponent k = Some ek ->
     exists (r : outcome unit) (w' : world),
       deleteImageByKey E polls k w = (r, w') /\
       let first := Fetch (Spec.deletionRequest (baseUrl w) ek (bearer w)) in
       let refresh := Fetch (tokenRequest w) in
       match net E (trace w ++ [first]) with
       | Replied res1 =>
           if (status res1 =? 401)%N then
             match Spec.tokenOutcome (net E (trace w ++ [first; refresh])) with
             | Ok t =>
                 trace w' = trace w ++ [first; refresh;
                                        Fetch (Spec.deletionRequest (baseUrl w) ek
                                                 (Some (js "Bearer " ++ t)))] /\
                 r = Spec.deleted (net E (trace w'))
             | Throw e => trace w' = trace w ++ [first; refresh] /\ r = Throw e
             | Stuck => False
             end
           else trace w' = trace w ++ [first] /\ r = Spec.deleted (Replied res1)
       | Rejected => trace w' = trace w ++ [first] /\ r = Throw FetchRejected
       end).
Proof.
  intros Hw. split.
  - intros H. unfold deleteImageByKey, bind, gets. now rewrite H.
  - intros ek Hk.
    destruct (deleteImageByKey_run polls k ek w Hw Hk) as (r & w' & Run & _ & H).
    now exists r, w'.
Qed.

(** X10.  When the answer to the first page has no [last_page], or has
    0 there, [listAllImages] takes the first page for the last: it
    returns the items of that answer after the one request and the
    wait that follows it, whatever the fuel. *)
Theorem listAllImages_without_last_page (fuel polls : nat) (w : world)
        (res : response) (j : envelope) :
  net E (trace w ++ [Fetch (Spec.pageRequest w 1)]) = Replied res ->
  ok res = true ->
  json res = Some j ->
  e_last_page j = None \/ e_last_page j = Some 0%N ->
  listAllImages E fuel polls w =
  (Ok (match e_items j with Some l => l | None => [] end),
   record (Sleep 80) (record (Fetch (Spec.pageRequest w 1)) w)).
Proof.
  intros R K J L. unfold listAllImages.
  rewrite (listPages_turn E fuel polls 1 1 [] w res j R K J). cbn zeta.
  destruct L as [-> | ->]; reflexivity.
Qed.

End ClientOutcomes.
(** ** Further properties: the scans and the uploads *)

Section Scans.

Import Spec.

Variable E : env.

Lemma addAll_snoc (l xs : list jsstring) (x : jsstring) :
  addAll l (xs ++ [x]) = add (addAll l xs) x.
Proof. unfold addAll. now rewrite fold_left_app. Qed.

Lemma addAll_add (s l : list jsstring) (u : jsstring) :
  addAll s (add l u) = add (addAll s l) u.
Proof.
  unfold add at 1. destruct (mem u l) eqn:M.
  - unfold add. replace (mem u (addAll s l)) with true; [reflexivity|].
    symmetry. apply mem_In, addAll_In. right. now apply mem_In.
  - apply addAll_snoc.
Qed.

(** The URLs that the callback adds for a list of matched texts. *)
Lemma fold_addRemote_from (origin : jsstring) (ms : list jsstring) (set : list jsstring) :
  fold_left (addRemote origin) ms set
  = addAll set (fold_left (addRemote origin) ms []).
Proof.
  revert set. induction ms as [|s ms IH] using rev_ind; intros set; [reflexivity|].
  rewrite !fold_left_app. cbn [fold_left]. unfold addRemote at 1 3.
  destruct (truthy (replaceAll wrapping [] s) && startsWith origin (replaceAll wrapping [] s)).
  - now rewrite (IH set), addAll_add.
  - apply IH.
Qed.

Lemma collectLoop_unites (origin : jsstring) (w : world) (fs : list TFile)
      (cs : list jsstring) :
  Forall2 (fun f c => contentOf (files w) f = Some c) fs cs ->
  forall set,
    collectLoop origin fs set w
    = (Ok (addAll set (flat_map (fun c => extractRemoteImageUrls c origin) cs)), w).
Proof.
  induction 1 as [|f c fs cs Hc _ IH]; intros set; [reflexivity|].
  cbn [collectLoop flat_map]. unfold bind, read. rewrite Hc, IH.
  f_equal. f_equal. unfold extractRemoteImageUrls.
  rewrite (fold_addRemote_from origin (remoteMatches c) set).
  now rewrite <- addAll_app.
Qed.

(** X11.  The scan of the cleanup returns the URLs that the extraction
    of the download finds in the notes, note after note, each URL once,
    and changes nothing. *)
Theorem collectUsedImageUrls_unites_the_notes (origin : jsstring) (w : world)
        (cs : list jsstring) :
  Forall2 (fun f c => contentOf (files w) f = Some c) (getMarkdownFiles (files w)) cs ->
  collectUsedImageUrls origin w
  = (Ok (setOf (flat_map (fun c => extractRemoteImageUrls c origin) cs)), w).
Proof.
  intros H. unfold collectUsedImageUrls, bind, gets.
  exact (collectLoop_unites origin w _ cs H []).
Qed.

Lemma deletions_app (a b : list event) : deletions (a ++ b) = deletions a ++ deletions b.
Proof. apply filter_app. Qed.

Lemma writes_app (a b : list event) : writes (a ++ b) = writes a ++ writes b.
Proof. apply filter_app. Qed.

(** The scan leaves the world as it is. *)
Lemma collectLoop_world (origin : jsstring) (fs : list TFile) :
  forall (set : list jsstring) (w : world), snd (collectLoop origin fs set w) = w.
Proof.
  induction fs as [|f fs IH]; intros set w; [reflexivity|].
  cbn [collectLoop]. unfold bind, read.
  destruct (contentOf (files w) f) as [c|]; [apply IH|reflexivity].
Qed.

Lemma collectUsedImageUrls_world (origin : jsstring) (w : world) :
  snd (collectUsedImageUrls origin w) = w.
Proof. unfold collectUsedImageUrls, bind, gets. apply collectLoop_world. Qed.

(** X12.  The cleanup deletes nothing unless both of its reads
    succeed.  The scan of the notes and the listing of the inventory are
    started together: when the scan fails, the requests of the listing
    are sent all the same.  When one of the two fails, the cleanup
    throws its error; when both fail, it throws the error of the one
    that fails first.  In every case no deletion request is sent and
    nothing is written. *)
Theorem cleanup_needs_the_whole_inventory (fuel polls : nat) (serverUrl origin : jsstring)
        (w w2 w3 : world) (ru : outcome (list jsstring))
        (ra : outcome (list LskyImageItem)) :
  getServerOrigin E serverUrl = Some origin ->
  collectUsedImageUrls origin (record (Show ScanStarted) w) = (ru, w2) ->
  listAllImages E fuel polls w2 = (ra, w3) ->
  (exists e, ru = Throw e) \/ (exists e, ra = Throw e) ->
  exists e : error,
    cleanupUnusedImages E fuel polls serverUrl w = (Throw e, w3) /\
    (ru = Throw e \/ ra = Throw e) /\
    (forall ea eb, ru = Throw ea -> ra = Throw eb ->
                   e = if listingFailsFirst E (trace w3) then eb else ea) /\
    w2 = record (Show ScanStarted) w /\
    deletions (trace w3) = deletions (trace w) /\
    writes (trace w3) = writes (trace w) /\
    files w3 = files w.
Proof.
  intros Ho Hu Hl Hf.
  assert (W2 : w2 = record (Show ScanStarted) w).
  { pose proof (collectUsedImageUrls_world origin (record (Show ScanStarted) w)) as X.
    rewrite Hu in X. exact X. }
  destruct (Emits_listAllImages_harmless E fuel polls _ _ _ Hl) as (F & _ & evs & T & Q).
  assert (Run : cleanupUnusedImages E fuel polls serverUrl w
                = (match ru, ra with
                   | Throw ea, Throw eb =>
                       if listingFailsFirst E (trace w3) then Throw eb else Throw ea
                   | Throw ea, _ => Throw ea
                   | _, Throw eb => Throw eb
                   | _, _ => Stuck
                   end, w3)).
  { unfold cleanupUnusedImages. rewrite Ho. unfold bind at 1. unfold show, emit, update.
    unfold bind at 1. unfold promiseAll. rewrite Hu, Hl.
    destruct ru as [used|ea|], ra as [all|eb|];
      try reflexivity;
      try (destruct Hf as [[e X]|[e X]]; discriminate X).
    destruct (listingFailsFirst E (trace w3)); reflexivity. }
  assert (Rest : w2 = record (Show ScanStarted) w /\
                 deletions (trace w3) = deletions (trace w) /\
                 writes (trace w3) = writes (trace w) /\
                 files w3 = files w).
  { split; [exact W2|]. split; [|split].
    - rewrite T, W2. cbn [trace record].
      rewrite !deletions_app, (deletions_harmless _ Q). cbn. now rewrite !app_nil_r.
    - rewrite T, W2. cbn [trace record].
      rewrite !writes_app, (writes_harmless _ Q). cbn. now rewrite !app_nil_r.
    - rewrite F, W2. reflexivity. }
  destruct ru as [used|ea|], ra as [all|eb|];
    try (destruct Hf as [[e X]|[e X]]; discriminate X).
  - exists eb. split; [exact Run|]. split; [now right|]. split; [|exact Rest].
    intros ? ? X. discriminate X.
  - exists ea. split; [exact Run|]. split; [now left|]. split; [|exact Rest].
    intros ? ? _ X. discriminate X.
  - destruct (listingFailsFirst E (trace w3)) eqn:L.
    + exists eb. split; [exact Run|]. split; [now right|]. split; [|exact Rest].
      now intros ? ? [= ->] [= ->].
    + exists ea. split; [exact Run|]. split; [now left|]. split; [|exact Rest].
      now intros ? ? [= ->] [= ->].
  - exists ea. split; [exact Run|]. split; [now left|]. split; [|exact Rest].
    intros ? ? _ X. discriminate X.
  - exists eb. split; [exact Run|]. split; [now right|]. split; [|exact Rest].
    intros ? ? X. discriminate X.
Qed.

(** X13.  The resolution of a reference stops at the first path that
    names something in the vault: when that is a folder, the upload of
    the reference throws the not-found error with the primary path and
    sends nothing, whatever lies at the paths after it. *)
Theorem uploadLocalImage_stops_at_a_folder (polls : nat) (p : jsstring) (note : TFile)
        (w : world) (pre : list jsstring) (c : jsstring) (post : list jsstring)
        (d : jsstring) :
  triedPaths (decodedOf p) note = pre ++ c :: post ->
  (forall x, In x pre -> getAbstractFileByPath (files w) x = None) ->
  getAbstractFileByPath (files w) c = Some (Folder d) ->
  uploadLocalImage E polls p note w
  = (Throw (ImageNotFound (resolveImagePath (decodedOf p) note)), w).
Proof.
  intros T Hpre Hc.
  assert (L : locate (files w) (decodedOf p) note = Some (Folder d)).
  { unfold locate. unfold triedPaths in T. destruct pre as [|x pre].
    - injection T as <- _. now rewrite Hc.
    - injection T as <- T. rewrite (Hpre _ (or_introl eq_refl)). rewrite T.
      rewrite (find_first _ pre c post).
      + exact Hc.
      + intros y Hy. now rewrite (Hpre y (or_intror Hy)).
      + now rewrite Hc. }
  unfold uploadLocalImage, bind, gets. now rewrite L.
Qed.

Lemma notesLoop_without_images (origin : jsstring) (w : world) (fs : list TFile)
      (total : nat) :
  (forall f, In f fs ->
     exists c, contentOf (files w) f = Some c /\ extractRemoteImageUrls c origin = []) ->
  notesLoop E origin fs total w = (Ok total, w).
Proof.
  induction fs as [|f fs IH]; intros H; [reflexivity|].
  cbn [notesLoop]. unfold bind at 1. unfold read.
  destruct (H f (or_introl eq_refl)) as (c & Hc & Hx). rewrite Hc, Hx.
  apply IH. intros g Hg. apply H. now right.
Qed.

(** X14.  When no note refers to an image of the server, the download
    for all notes reads the notes and writes nothing: the progress bar
    is opened with the number of notes, never advances, and is closed,
    and the final notice counts no image. *)
Theorem downloadImagesForAllNotes_without_images (serverUrl origin : jsstring) (w : world) :
  getServerOrigin E serverUrl = Some origin ->
  (forall f, In f (getMarkdownFiles (files w)) ->
     exists c, contentOf (files w) f = Some c /\ extractRemoteImageUrls c origin = []) ->
  downloadImagesForAllNotes E serverUrl w
  = (Ok tt, records [Bar POpen; Bar (PSetTotal (List.length (getMarkdownFiles (files w))));
                     Bar PClose; Show (AllDownloadFinished 0)] w).
Proof.
  intros Ho H. unfold downloadImagesForAllNotes. rewrite Ho.
  unfold bind at 1. unfold gets at 1. unfold emit, show, emit, update.
  unfold bind at 1. unfold bind at 1. unfold bind at 1.
  rewrite notesLoop_without_images; [reflexivity|exact H].
Qed.

End Scans.
(** ** Further properties: the download of a note *)

Section Downloads.

Import Spec.

Variable E : env.

(** One URL of the loop: one download, one step of the progress bar,
    no request to the image server and no write of a note, whether the
    image is saved or not. *)
Lemma currentLoop_step (folder url updated : jsstring) (w : world) :
  exists (done : bool) (w' : world) (evs : list event),
    tryCatch
      (r <- saveOne E folder url updated ;;
       emit (Bar (PIncrement (snd r))) ;;;
       ret (fst r))
      (fun _ =>
         show (DownloadFailure url) ;;;
         emit (Bar (PIncrement failedLabel)) ;;;
         ret updated) w
    = (Ok (if done then replaceUrlWithRelative updated url (fileNameFromUrl E url)
           else updated), w') /\
    trace w' = trace w ++ evs /\
    filter isDownload evs = [RequestUrl url] /\
    filter isNoteWrite evs = [] /\
    filter isFetch evs = [] /\
    List.length (filter isStep evs) = 1.
Proof.
  unfold tryCatch, saveOne. unfold bind at 1 2. unfold downloadToBinary.
  destruct (download E (trace (record (RequestUrl url) w))) as [bin|].
  - unfold bind at 1. unfold gets at 1. unfold bind at 1.
    cbn [files record].
    destruct (getAbstractFileByPath (files w) (folder ++ js "/" ++ fileNameFromUrl E url))
      as [[f c|d]|] eqn:G.
    + exists true. eexists. exists [RequestUrl url; ModifyBinary f bin;
                                    Bar (PIncrement (fileNameFromUrl E url))].
      split; [reflexivity|]. cbn [trace record setFiles]. rewrite <- !app_assoc.
      repeat split.
    + unfold createBinary. cbn [files record]. rewrite G.
      exists false. eexists. exists [RequestUrl url; Show (DownloadFailure url);
                                     Bar (PIncrement failedLabel)].
      split; [reflexivity|]. cbn [trace record]. rewrite <- !app_assoc. repeat split.
    + unfold createBinary. cbn [files record]. rewrite G.
      exists true. eexists.
      exists [RequestUrl url; CreateBinary (folder ++ js "/" ++ fileNameFromUrl E url) bin;
              Bar (PIncrement (fileNameFromUrl E url))].
      split; [reflexivity|]. cbn [trace record setFiles]. rewrite <- !app_assoc.
      repeat split.
  - exists false. eexists. exists [RequestUrl url; Show (DownloadFailure url);
                                   Bar (PIncrement failedLabel)].
    split; [reflexivity|]. cbn [trace record]. rewrite <- !app_assoc. repeat split.
Qed.

Lemma currentLoop_attempts (folder : jsstring) (urls : list jsstring) :
  forall (updated : jsstring) (w : world),
  exists (rs : list (jsstring * bool)) (w' : world) (evs : list event),
    currentLoop E folder urls updated w = (Ok (relinked E updated (saved rs)), w') /\
    List.map fst rs = urls /\
    trace w' = trace w ++ evs /\
    filter isDownload evs = List.map RequestUrl urls /\
    filter isNoteWrite evs = [] /\
    filter isFetch evs = [] /\
    List.length (filter isStep evs) = List.length urls.
Proof.
  induction urls as [|url urls IH]; intros updated w.
  - exists [], w, []. rewrite app_nil_r. repeat split.
  - cbn [currentLoop]. unfold bind at 1.
    destruct (currentLoop_step folder url updated w)
      as (done & w1 & evs1 & S1 & T1 & D1 & N1 & F1 & P1).
    rewrite S1.
    destruct (IH (if done then replaceUrlWithRelative updated url (fileNameFromUrl E url)
                  else updated) w1)
      as (rs & w2 & evs2 & S2 & M2 & T2 & D2 & N2 & F2 & P2).
    exists ((url, done) :: rs), w2, (evs1 ++ evs2). rewrite S2.
    split; [|split; [|split; [|split; [|split; [|split]]]]].
    + unfold saved, relinked. cbn [filter snd]. now destruct done.
    + cbn [List.map fst]. now rewrite M2.
    + rewrite T2, T1. now rewrite app_assoc.
    + rewrite filter_app, D1, D2. reflexivity.
    + now rewrite filter_app, N1, N2.
    + now rewrite filter_app, F1, F2.
    + rewrite filter_app, length_app, P1, P2. reflexivity.
Qed.

(** X15.  With an active note that holds URLs of the server, the
    download asks for every URL once, in the order of the extraction,
    with one step of the progress bar for each, whether it is saved or
    not, and sends no request to the image server; it writes the note
    once, after the loop, with the URLs that were saved replaced by
    embeds of the file names, also when nothing was saved; the final
    notice counts the URLs that were found. *)
Theorem downloadImagesForCurrentNote_persists_once (serverUrl origin : jsstring) (w : world)
        (f : TFile) (content u0 : jsstring) (us : list jsstring) :
  getServerOrigin E serverUrl = Some origin ->
  activeFile w = Some f ->
  contentOf (files w) f = Some content ->
  extractRemoteImageUrls content origin = u0 :: us ->
  exists (rs : list (jsstring * bool)) (w' : world) (pre : list event),
    downloadImagesForCurrentNote E serverUrl w = (Ok tt, w') /\
    List.map fst rs = u0 :: us /\
    trace w' = trace w ++ pre
                 ++ [Bar PClose; Modify f (relinked E content (saved rs));
                     Show (DownloadFinished (List.length (u0 :: us)))] /\
    filter isDownload pre = List.map RequestUrl (u0 :: us) /\
    filter isNoteWrite pre = [] /\
    filter isFetch pre = [] /\
    List.length (filter isStep pre) = List.length (u0 :: us).
Proof.
  intros Ho Ha Hc Hx. unfold downloadImagesForCurrentNote. rewrite Ho.
  unfold bind at 1. unfold gets at 1. rewrite Ha.
  unfold bind at 1. unfold read at 1. rewrite Hc, Hx.
  set (n := List.length (u0 :: us)).
  assert (EF : exists w0 evs0,
             ensureFolder (folderOf f) w = (Ok tt, w0) /\
             trace w0 = trace w ++ evs0 /\
             filter isDownload evs0 = [] /\ filter isNoteWrite evs0 = [] /\
             filter isFetch evs0 = [] /\ filter isStep evs0 = []).
  { unfold ensureFolder, bind, gets.
    destruct (getAbstractFileByPath (files w) (folderOf f)) eqn:G.
    - exists w, []. rewrite app_nil_r. repeat split.
    - unfold createFolder. rewrite G. eexists. exists [CreateFolder (folderOf f)].
      repeat split. }
  destruct EF as (w0 & evs0 & S0 & T0 & D0 & N0 & F0 & P0).
  unfold bind at 1. rewrite S0.
  unfold emit, update. unfold bind at 1 2.
  set (w1 := record (Bar (PSetTotal n)) (record (Bar POpen) w0)).
  unfold bind at 1.
  destruct (currentLoop_attempts (folderOf f) (u0 :: us) content w1)
    as (rs & w2 & evs & S2 & M2 & T2 & D2 & N2 & F2 & P2).
  rewrite S2.
  eexists rs, _, (evs0 ++ [Bar POpen; Bar (PSetTotal n)] ++ evs).
  split; [reflexivity|]. split; [exact M2|].
  split; [|split; [|split; [|split]]].
  - cbn [trace record setFiles]. rewrite T2. unfold w1. cbn [trace record].
    rewrite T0. now rewrite <- !app_assoc.
  - rewrite !filter_app, D0, D2. reflexivity.
  - rewrite !filter_app, N0, N2. reflexivity.
  - rewrite !filter_app, F0, F2. reflexivity.
  - rewrite !filter_app, !length_app, P0, P2. reflexivity.
Qed.

End Downloads.
(** ** Further properties: the confirmed cleanup *)

Section Deletions.

Import Spec.

Variable E : env.

Lemma Emits_deleteImageByKey (polls : nat) (k : jsstring) :
  Emits removal (deleteImageByKey E polls k).
Proof.
  unfold deleteImageByKey.
  apply Emits_bind; [apply Emits_gets|intros base].
  destruct (encodeURIComponent k) as [ek|]; [|apply Emits_throw].
  apply Emits_bind.
  - apply Emits_authorizedFetch.
    + intros ms. exact I.
    + intros r H. right. exact H.
    + intros r H. left. exact H.
  - intros res. destruct (negb (ok res)); [apply Emits_throw|apply Emits_ret].
Qed.

Lemma Settles_deleteImageByKey (polls : nat) (k : jsstring) :
  Settles (deleteImageByKey E polls k).
Proof.
  unfold deleteImageByKey.
  apply Settles_bind; [apply Settles_gets|intros base].
  destruct (encodeURIComponent k) as [ek|]; [|apply Settles_throw].
  apply Settles_bind; [apply Settles_authorizedFetch|intros res].
  destruct (negb (ok res)); [apply Settles_throw|apply Settles_ret].
Qed.

Lemma removed_app (a b : list turn) : removed (a ++ b) = removed a ++ removed b.
Proof. unfold removed. now rewrite filter_app, map_app. Qed.

Lemma spared_app (a b : list turn) : spared (a ++ b) = spared a ++ spared b.
Proof. unfold spared. now rewrite filter_app, map_app. Qed.

Lemma baseUrl_config (w w' : world) :
  serverUrl (config w') = serverUrl (config w) -> baseUrl w' = baseUrl w.
Proof. unfold baseUrl. now intros ->. Qed.

Lemma removal_delete (base ek : jsstring) (auth : option jsstring) :
  removal (Fetch (deletionRequest base ek auth)).
Proof. now left. Qed.

Lemma removal_refresh (w : world) : removal (Fetch (tokenRequest w)).
Proof. now right. Qed.

Lemma refresh_not_delete (w : world) (base ek : jsstring) (auth : option jsstring)
      (a b : list event) :
  a ++ [Fetch (tokenRequest w)] <> b ++ [Fetch (deletionRequest base ek auth)].
Proof.
  intros H. apply app_inj_tail in H as [_ H].
  apply (f_equal (fun e => match e with Fetch r => r_method r | _ => GET end)) in H.
  discriminate H.
Qed.

(** The deletion of one image: what it sends and when it succeeds. *)
Lemma deletion_turn (polls : nat) (img : LskyImageItem) (w : world) :
  isFetchingToken w = false ->
  exists (r : outcome unit) (w1 : world) (evs : list event),
    deleteImageByKey E polls (key img) w = (r, w1) /\
    r <> Stuck /\
    files w1 = files w /\ isFetchingToken w1 = false /\
    serverUrl (config w1) = serverUrl (config w) /\
    trace w1 = trace w ++ evs /\
    turnDone E (baseUrl w) (trace w)
             (img, match r with Ok _ => true | _ => false end, evs).
Proof.
  intros Hw. unfold turnDone. cbn [fst snd].
  destruct (encodeURIComponent (key img)) as [ek|] eqn:K.
  - destruct (deleteImageByKey_run E polls (key img) ek w Hw K)
      as (r & w1 & Run & (F1 & F2 & F3) & H). cbn zeta in H.
    set (first := Fetch (deletionRequest (baseUrl w) ek (bearer w))) in *.
    destruct (net E (trace w ++ [first])) as [|res1] eqn:N1.
    + destruct H as [T ->]. exists (Throw FetchRejected), w1, [first].
      repeat split; try assumption; try discriminate.
      * now exists (bearer w), [].
      * repeat constructor.
      * intros (pre & auth & res & _ & N & _). rewrite N1 in N. discriminate N.
    + destruct (status res1 =? 401)%N.
      * destruct (Spec.tokenOutcome _) as [t|e|]; [| |contradiction].
        -- destruct H as [T R].
           exists r, w1, [first; Fetch (tokenRequest w);
                          Fetch (deletionRequest (baseUrl w) ek (Some (js "Bearer " ++ t)))].
           rewrite <- T.
           split; [exact Run|]. split.
           { rewrite R. destruct (net E (trace w1)) as [|res2]; cbn [deleted];
               [discriminate|]. destruct (ok res2); discriminate. }
           repeat split; try assumption.
           ++ now exists (bearer w), [Fetch (tokenRequest w);
                Fetch (deletionRequest (baseUrl w) ek (Some (js "Bearer " ++ t)))].
           ++ repeat (apply Forall_cons || apply Forall_nil);
                first [apply removal_delete|apply removal_refresh].
           ++ intros S. rewrite R in S.
              destruct (net E (trace w1)) as [|res2]; cbn [deleted] in S; [discriminate|].
              destruct (ok res2) eqn:K2; [|discriminate].
              now exists [first; Fetch (tokenRequest w)], (Some (js "Bearer " ++ t)), res2.
           ++ intros (pre & auth & res & _ & N & K2). rewrite R, N. cbn [deleted].
              now rewrite K2.
        -- destruct H as [T ->].
           exists (Throw e), w1, [first; Fetch (tokenRequest w)].
           repeat split; try assumption; try discriminate.
           ++ now exists (bearer w), [Fetch (tokenRequest w)].
           ++ repeat (apply Forall_cons || apply Forall_nil);
                first [apply removal_delete|apply removal_refresh].
           ++ intros (pre & auth & res & X & _).
              elim (refresh_not_delete w (baseUrl w) ek auth [first] pre X).
      * destruct H as [T ->]. exists (deleted (Replied res1)), w1, [first].
        cbn [deleted].
        split; [exact Run|]. split; [destruct (ok res1); discriminate|].
        repeat split; try assumption.
        -- now exists (bearer w), [].
        -- repeat constructor.
        -- intros S. destruct (ok res1) eqn:K1; [|discriminate].
           now exists [], (bearer w), res1.
        -- intros (pre & auth & res & _ & N & K1). rewrite N1 in N.
           injection N as <-. now rewrite K1.
  - exists (Throw UriError), w, [].
    repeat split; try discriminate; try (now rewrite app_nil_r); try assumption.
    unfold deleteImageByKey, bind, gets. now rewrite K.
Qed.

Lemma turnsDone_base (base base' : jsstring) (before : list event) (ts : list turn) :
  base' = base -> turnsDone E base' before ts -> turnsDone E base before ts.
Proof. now intros ->. Qed.

(** The loop takes every image in turn; a failed deletion is noted and
    the loop goes on. *)
Lemma deleteLoop_turns (polls : nat) (imgs : list LskyImageItem) :
  forall (acc : list jsstring * list jsstring) (w : world),
    isFetchingToken w = false ->
    exists (ts : list turn) (w' : world),
      deleteLoop E polls imgs acc w
        = (Ok (fst acc ++ removed ts, snd acc ++ spared ts), w') /\
      List.map (fun t => fst (fst t)) ts = imgs /\
      turnsDone E (baseUrl w) (trace w) ts /\
      isFetchingToken w' = false /\
      files w' = files w /\
      trace w' = trace w ++ flat_map turnEvents ts.
Proof.
  induction imgs as [|img imgs IH]; intros acc w Hw.
  - exists [], w. cbn [deleteLoop removed spared filter List.map flat_map turnsDone].
    rewrite !app_nil_r. destruct acc. repeat split; auto.
  - cbn [deleteLoop]. unfold bind at 1. unfold tryCatch. unfold bind at 1.
    destruct (deletion_turn polls img w Hw)
      as (r & w1 & evs & D & NS & F1 & FL & C1 & T1 & TD).
    rewrite D.
    set (w2 := record (Sleep 150) (record (Bar (PIncrement (labelOf img))) w1)).
    assert (B2 : baseUrl w2 = baseUrl w) by (now apply baseUrl_config).
    assert (T2 : trace w2 = trace w ++ turnEvents (img, match r with Ok _ => true | _ => false end, evs)).
    { unfold w2, turnEvents. cbn [trace record fst snd]. rewrite T1.
      now rewrite <- !app_assoc. }
    destruct r as [[]|e|]; [| |now elim NS];
      unfold ret, emit, sleep, emit, update; unfold bind at 1 2;
      fold (labelOf img); fold w2;
      match goal with
      | |- context [deleteLoop E polls imgs ?a w2] =>
          destruct (IH a w2 FL) as (ts & w3 & S3 & M3 & Q3 & F3 & V3 & T3)
      end; rewrite S3; rewrite B2, T2 in Q3.
    + exists ((img, true, evs) :: ts), w3. cbn [fst snd].
      split; [|split; [|split; [|split; [|split]]]].
      * change ((img, true, evs) :: ts) with ([(img, true, evs)] ++ ts).
        rewrite removed_app, spared_app. cbn. now rewrite <- !app_assoc.
      * cbn [List.map fst]. now rewrite M3.
      * split; [exact TD|exact Q3].
      * exact F3.
      * rewrite V3. unfold w2. cbn [files record]. exact F1.
      * rewrite T3, T2. cbn [flat_map]. now rewrite <- !app_assoc.
    + exists ((img, false, evs) :: ts), w3. cbn [fst snd].
      split; [|split; [|split; [|split; [|split]]]].
      * change ((img, false, evs) :: ts) with ([(img, false, evs)] ++ ts).
        rewrite removed_app, spared_app. cbn. now rewrite <- !app_assoc.
      * cbn [List.map fst]. now rewrite M3.
      * split; [exact TD|exact Q3].
      * exact F3.
      * rewrite V3. unfold w2. cbn [files record]. exact F1.
      * rewrite T3, T2. cbn [flat_map]. now rewrite <- !app_assoc.
Qed.

(** X16.  When the user confirms, the cleanup takes the orphans one by
    one in the order of the inventory.  For each orphan whose key can be
    encoded it first sends the deletion request for the key, then what a
    refreshed token needs, if the answer is 401; it advances the
    progress bar and waits 150 ms; the orphan counts as deleted exactly
    when the last request of its turn is the deletion request and its
    answer has a success status; a failed deletion does not stop the
    loop.  The result dialog lists the URLs that were deleted and those
    that were not, which together are the URLs of the orphans; nothing
    is written to the vault. *)
Theorem cleanup_confirmed_takes_every_orphan (fuel polls : nat) (serverUrl origin : jsstring)
        (w w2 w3 : world) (used : list jsstring) (all : list LskyImageItem) :
  getServerOrigin E serverUrl = Some origin ->
  collectUsedImageUrls origin (record (Show ScanStarted) w) = (Ok used, w2) ->
  listAllImages E fuel polls w2 = (Ok all, w3) ->
  isFetchingToken w3 = false ->
  unusedOf used all <> [] ->
  confirms E (trace w3 ++ [Confirm (unusedOf used all) (List.length all)]) = true ->
  let opening := [Confirm (unusedOf used all) (List.length all); Bar POpen;
                  Bar (PSetTotal (List.length (unusedOf used all)))] in
  exists (ts : list turn) (w' : world),
    cleanupUnusedImages E fuel polls serverUrl w = (Ok tt, w') /\
    List.map (fun t => fst (fst t)) ts = unusedOf used all /\
    turnsDone E (baseUrl w3) (trace w3 ++ opening) ts /\
    trace w' = trace w3 ++ opening ++ flat_map turnEvents ts
                 ++ [Bar PClose; CleanupResult (removed ts) (spared ts)] /\
    Permutation (removed ts ++ spared ts) (List.map links_url (unusedOf used all)) /\
    files w' = files w.
Proof.
  intros Ho Hu Hl Hw Hne Hyes opening.
  set (orphans := unusedOf used all) in *.
  assert (Run : cleanupUnusedImages E fuel polls serverUrl w =
                (confirmed <- confirmCleanup E orphans (List.length all) ;;
                 if negb confirmed then show CleanupCancelled
                 else
                   emit (Bar POpen) ;;;
                   emit (Bar (PSetTotal (List.length orphans))) ;;;
                   acc <- deleteLoop E polls orphans ([], []) ;;
                   emit (Bar PClose) ;;;
                   showCleanupResult (fst acc) (snd acc)) w3).
  { rewrite (cleanupUnusedImages_read E fuel polls serverUrl origin w w2 w3 used all
               Ho Hu Hl).
    fold orphans. destruct orphans; [contradiction|reflexivity]. }
  rewrite Run. unfold bind at 1. unfold confirmCleanup.
  unfold bind at 1. unfold emit at 1, update at 1. unfold gets at 1.
  cbn [trace record]. rewrite Hyes. cbn [negb].
  unfold emit, update. unfold bind at 1 2.
  set (w4 := record (Bar (PSetTotal (List.length orphans)))
               (record (Bar POpen) (record (Confirm orphans (List.length all)) w3))).
  unfold bind at 1.
  destruct (deleteLoop_turns polls orphans ([], []) w4 Hw)
    as (ts & w5 & S5 & M5 & Q5 & F5 & V5 & T5).
  rewrite S5. cbn [fst snd app].
  assert (T4 : trace w4 = trace w3 ++ opening).
  { unfold w4, opening. cbn [trace record]. now rewrite <- !app_assoc. }
  exists ts. eexists. split; [reflexivity|].
  split; [exact M5|]. split; [|split; [|split]].
  - rewrite <- T4. exact Q5.
  - unfold showCleanupResult, emit, update, bind. cbn [trace record].
    rewrite T5, T4. now rewrite <- !app_assoc.
  - rewrite <- M5. unfold removed, spared. clear.
    induction ts as [|[[img b] evs] ts IH]; [constructor|].
    cbn [filter List.map fst snd]. destruct b; cbn [negb List.map fst snd app].
    + now constructor.
    + apply Permutation_sym, Permutation_cons_app, Permutation_sym, IH.
  - unfold showCleanupResult, emit, update, bind. cbn [files record].
    rewrite V5. unfold w4. cbn [files record].
    destruct (Emits_collectUsedImageUrls origin _ _ _ Hu) as (F2 & _).
    destruct (Emits_listAllImages_harmless E fuel polls _ _ _ Hl) as (F3 & _).
    rewrite F3, F2. reflexivity.
Qed.

End Deletions.
(** ** Further properties: two images on a line *)

Section TwoOnALine.

Import Spec.

Lemma alt_not_special (c x : N) :
  altChar c = true -> In x special -> (c =? x)%N = false.
Proof.
  intros H Hx. destruct (N.eqb_spec c x) as [->|]; [|reflexivity].
  apply altChar_out in H. rewrite <- not_true_iff_false in H. exfalso. apply H.
  apply existsb_exists. exists x. split; [exact Hx|apply N.eqb_refl].
Qed.

(** The lazy star passes over characters that are no closing bracket
    and no line terminator when a closing bracket must follow. *)
Lemma lazy_over (r : regex) (k : cont) (A s : jsstring) (cp : option jsstring) :
  Forall (fun c => cmatch Dot c = true /\ (c =? 93)%N = false) A ->
  forall i,
    m (LazyStar Dot) (m (Lit (js "](") >> r) k) i (A ++ s) cp
    = m (LazyStar Dot) (m (Lit (js "](") >> r) k) (i + List.length A) s cp.
Proof.
  intros H i. apply m_LazyStar_skip.
  - eapply Forall_impl; [|exact H]. now intros c [X _].
  - intros a1 c a2 E. rewrite m_Seq. change (js "](") with [93%N; 40%N].
    apply m_Lit_miss. rewrite Forall_forall in H.
    apply (H c). rewrite E. apply in_or_app. right. now left.
Qed.

Lemma plain_alt (a : jsstring) :
  forallb altChar a = true ->
  Forall (fun c => cmatch Dot c = true /\ (c =? 93)%N = false) a.
Proof.
  intros H. apply Forall_forall. intros c Hc. rewrite forallb_forall in H.
  split; [apply cmatch_Dot_alt, H, Hc|].
  apply alt_not_special; [apply H, Hc|vm_compute; tauto].
Qed.

Lemma plain_path (p : jsstring) :
  forallb pathChar p = true ->
  Forall (fun c => cmatch Dot c = true /\ (c =? 93)%N = false) p.
Proof.
  intros H. apply plain_alt. apply forallb_forall. intros c Hc.
  rewrite forallb_forall in H. apply pathChar_altChar, H, Hc.
Qed.

Lemma decides_remoteMarkdown :
  decides (Group (httpPrefix >> Plus (NoneOfSpace (js ")"))) >> Lit (js ")")) (js ")")
          (remote 1).
Proof.
  apply (decides_remote (NoneOfSpace (js ")")) 41%N []).
  - intros c H. cbn [cmatch].
    rewrite (path_outside (js ")") c ltac:(intros y Hy; vm_compute in Hy |- *; tauto) H).
    unfold pathChar in H. apply andb_true_iff in H as [_ H].
    apply negb_true_iff in H. now rewrite H.
  - reflexivity.
  - vm_compute. intuition discriminate.
Qed.

Lemma remoteWiki_miss (t s : jsstring) (i : nat) :
  forallb altChar t = true ->
  matchAt remoteWiki i (js "![" ++ t ++ js "](" ++ s) = None.
Proof.
  intros H. apply matchAt_None. unfold remoteWiki. rewrite m_Seq, m_Lit.
  change (js "![[") with [33%N; 91%N; 91%N]. change (js "![") with [33%N; 91%N].
  destruct t as [|c t]; [reflexivity|].
  cbn [forallb] in H. apply andb_true_iff in H as [H _].
  cbn [app startsWith]. rewrite (N.eqb_sym 91 c).
  rewrite (alt_not_special c 91%N H ltac:(vm_compute; tauto)). reflexivity.
Qed.

Lemma remoteHtml_miss (s : jsstring) (i : nat) :
  matchAt remoteHtml i (js "![" ++ s) = None.
Proof. now apply (matchAt_Lit_miss 60%N). Qed.

(** No part of the wrapping begins on a character of an alternative
    text. *)
Lemma wrapping_alt (c : N) (s : jsstring) (i : nat) :
  altChar c = true -> matchAt wrapping i (c :: s) = None.
Proof.
  intros H. destruct (special_out c (altChar_out c H)) as (A&B&C&D&F&G&_&I&_).
  apply matchAt_None. unfold wrapping.
  rewrite m_Alt_miss by (now apply (m_LitSeq_miss 33%N)).
  rewrite m_Alt_miss by (now apply (m_Lit_miss accept 41%N)).
  rewrite m_Alt_miss by (now apply (m_LitSeq_miss 60%N)).
  rewrite m_Alt_miss by (now apply (m_Lit_miss accept 34%N)).
  rewrite m_Alt_miss by (now apply (m_Lit_miss accept 33%N)).
  now apply (m_Lit_miss accept 93%N).
Qed.

Lemma scan_wrapping_alt (t rest : jsstring) :
  forallb altChar t = true ->
  forall i, scan wrapping i (t ++ rest) 0
            = List.map Keep t ++ scan wrapping (i + List.length t) rest 0.
Proof.
  induction t as [|c t IH]; intros H i.
  - simpl. now rewrite Nat.add_0_r.
  - cbn [forallb] in H. apply andb_true_iff in H as [Hc Ht].
    cbn [app scan]. rewrite (wrapping_alt c (t ++ rest) i Hc).
    rewrite IH by exact Ht. cbn [List.map List.length app]. now rewrite Nat.add_succ_r.
Qed.

(** A closing parenthesis is a part of the wrapping wherever it is. *)
Lemma scan_wrapping_paren (rest : jsstring) (i : nat) :
  scan wrapping i (41%N :: rest) 0 = Hit i [41%N] None :: scan wrapping (S i) rest 0.
Proof.
  assert (M : matchAt wrapping i (41%N :: rest) = Some (1, None)).
  { apply matchAt_length. cbn. now rewrite Nat.add_1_r. }
  cbn [scan]. rewrite M. reflexivity.
Qed.

Variables a p sep b u : jsstring.
Hypothesis Ha : forallb altChar a = true.
Hypothesis Hsep : forallb altChar sep = true.
Hypothesis Hb : forallb altChar b = true.
Hypothesis Hp : wellFormedPath p = true.
Hypothesis Hu : wellFormedPath u = true.
Hypothesis local_p : remoteUrl p = false.
Hypothesis remote_u : remoteUrl u = true.

Let line : jsstring := render (Markdown a p) ++ sep ++ render (Markdown b u).

(** The pattern of the markdown image, started on the first image,
    reads on to the end of the second one. *)
Lemma remoteMarkdown_spans (rest : jsstring) (i : nat) :
  matchAt remoteMarkdown i (line ++ 10%N :: rest) = Some (List.length line, Some u).
Proof.
  pose proof (proj2 (wellFormedPath_chars p Hp)) as Pc.
  apply matchAt_length. unfold remoteMarkdown, line. cbn [render].
  set (r := Group (httpPrefix >> Plus (NoneOfSpace (js ")"))) >> Lit (js ")")).
  set (tail := js ")" ++ 10%N :: rest).
  replace ((((js "![" ++ a ++ js "](" ++ p ++ js ")") ++ sep
             ++ js "![" ++ b ++ js "](" ++ u ++ js ")") ++ 10%N :: rest))
    with (js "![" ++ a ++ [93%N] ++ ([40%N] ++ p ++ [41%N] ++ sep ++ js "![" ++ b)
            ++ js "](" ++ u ++ tail)
    by (unfold tail; rewrite <- !app_assoc; reflexivity).
  rewrite m_Seq, m_Lit_app, m_Seq.
  change (m (Lit (js "](") >> r) accept) with (m (Lit (js "](") >> r) accept).
  rewrite (lazy_over r accept a _ None (plain_alt a Ha)).
  cbn [app].
  rewrite m_LazyStar_step; [| |reflexivity].
  - assert (HA : Forall (fun c => cmatch Dot c = true /\ (c =? 93)%N = false)
                        ([40%N] ++ p ++ [41%N] ++ sep ++ js "![" ++ b)).
    { apply Forall_app. split; [repeat constructor|].
      apply Forall_app. split; [now apply plain_path|].
      apply Forall_app. split; [repeat constructor|].
      apply Forall_app. split; [now apply plain_alt|].
      apply Forall_app. split; [repeat constructor|now apply plain_alt]. }
    etransitivity;
      [exact (lazy_over r accept _ (js "](" ++ u ++ tail) None HA _)|].
    apply m_LazyStar_here. rewrite m_Seq, m_Lit_app. unfold r, tail.
    rewrite (decides_remoteMarkdown u _ (10%N :: rest) Hu).
    unfold remote. rewrite remote_u.
    apply f_equal, (f_equal2 pair); [|reflexivity].
    rewrite !length_app. js_lengths. cbn [List.length]. lia.
  - replace (93%N :: 40%N :: (p ++ 41%N :: sep ++ js "![" ++ b) ++ js "](" ++ u ++ tail)
      with (js "](" ++ p ++ js ")" ++ (sep ++ js "![" ++ b) ++ js "](" ++ u ++ tail)
      by (unfold tail; eval_js; repeat (progress (cbn [app]; rewrite <- ?app_assoc));
          reflexivity).
    rewrite m_Seq, m_Lit_app. unfold r.
    rewrite (decides_remoteMarkdown p _ _ Hp). unfold remote. now rewrite local_p.
Qed.

Lemma line_not_empty : line <> [].
Proof. unfold line. cbn [render]. discriminate. Qed.

Lemma matchAll_remoteMarkdown_line :
  matchAll remoteMarkdown (line ++ [10%N]) = [(line, Some u)].
Proof.
  unfold matchAll.
  rewrite (scan_hit remoteMarkdown line [10%N] 0 (Some u) line_not_empty
             (remoteMarkdown_spans [] 0)).
  cbn [scan hits].
  pose proof (mdShape_starts
                (Group (httpPrefix >> Plus (NoneOfSpace (js ")"))) >> Lit (js ")"))) as [S1 S2].
  fold remoteMarkdown in S1, S2.
  rewrite (S1 _ 10%N [] eq_refl). cbn [hits]. now rewrite S2.
Qed.

(** A pattern that begins on an opener and matches on neither of the
    two exclamation marks of the line matches nowhere. *)
Lemma no_match_on_line (R : regex) :
  startsOnOpener R ->
  (forall i s, matchAt R i (js "![" ++ a ++ js "](" ++ s) = None) ->
  (forall i s, matchAt R i (js "![" ++ b ++ js "](" ++ s) = None) ->
  matchAll R (line ++ [10%N]) = [].
Proof.
  intros HR M1 M2. unfold matchAll, line. cbn [render].
  pose proof (proj2 (wellFormedPath_chars p Hp)) as Pc.
  pose proof (proj2 (wellFormedPath_chars u Hu)) as Uc.
  set (rest2 := [91%N] ++ b ++ js "](" ++ u ++ js ")" ++ [10%N]).
  set (rest1 := [91%N] ++ a ++ js "](" ++ p ++ js ")" ++ sep).
  replace (((js "![" ++ a ++ js "](" ++ p ++ js ")") ++ sep
            ++ js "![" ++ b ++ js "](" ++ u ++ js ")") ++ [10%N])
    with (33%N :: rest1 ++ 33%N :: rest2)
    by (unfold rest1, rest2; eval_js;
        repeat (progress (cbn [app]; rewrite <- ?app_assoc)); reflexivity).
  assert (N1 : Forall (fun c => opener c = false) rest1).
  { unfold rest1. apply Forall_app. split; [repeat constructor|].
    apply Forall_app. split; [now apply Forall_alt_nonopener|].
    apply Forall_app. split; [repeat constructor|].
    apply Forall_app. split; [now apply Forall_path_nonopener|].
    apply Forall_app. split; [repeat constructor|now apply Forall_alt_nonopener]. }
  assert (N2 : Forall (fun c => opener c = false) rest2).
  { unfold rest2. apply Forall_app. split; [repeat constructor|].
    apply Forall_app. split; [now apply Forall_alt_nonopener|].
    apply Forall_app. split; [repeat constructor|].
    apply Forall_app. split; [now apply Forall_path_nonopener|].
    repeat constructor. }
  cbn [scan].
  replace (matchAt R 0 (33%N :: rest1 ++ 33%N :: rest2)) with (@None result).
  - rewrite (scan_keeps R HR rest1 _ N1). cbn [scan].
    replace (matchAt R (1 + List.length rest1) (33%N :: rest2)) with (@None result).
    + pose proof (scan_keeps R HR rest2 [] N2 (S (1 + List.length rest1))) as K.
      rewrite app_nil_r in K. rewrite K. cbn [scan].
      rewrite (proj2 HR). cbn [hits]. rewrite hits_app, !hits_Keep. cbn [hits].
      rewrite hits_app, hits_Keep. reflexivity.
    + symmetry. unfold rest2. exact (M2 _ (u ++ js ")" ++ [10%N])).
  - symmetry. unfold rest1.
    replace (33%N :: ([91%N] ++ a ++ js "](" ++ p ++ js ")" ++ sep) ++ 33%N :: rest2)
      with (js "![" ++ a ++ js "](" ++ p ++ js ")" ++ sep ++ 33%N :: rest2)
      by (eval_js; repeat (progress (cbn [app]; rewrite <- ?app_assoc)); reflexivity).
    apply M1.
Qed.

(** What is left of the text that the pattern matched on the line. *)
Lemma strip_line : replaceAll wrapping [] line = p ++ sep ++ u.
Proof.
  pose proof (proj2 (wellFormedPath_chars p Hp)) as Pc.
  pose proof (proj2 (wellFormedPath_chars u Hu)) as Uc.
  unfold replaceAll. set (str := line) at 1. unfold line. cbn [render].
  replace ((js "![" ++ a ++ js "](" ++ p ++ js ")") ++ sep
             ++ js "![" ++ b ++ js "](" ++ u ++ js ")")
    with ((js "![" ++ a ++ js "](") ++ p ++ 41%N :: sep
            ++ (js "![" ++ b ++ js "](") ++ u ++ 41%N :: [])
    by (eval_js; repeat (progress (cbn [app]; rewrite <- ?app_assoc)); reflexivity).
  rewrite (scan_hit wrapping (js "![" ++ a ++ js "](") _ 0 None ltac:(discriminate)
             (wrapping_markdown a _ 0 Ha)).
  rewrite rebuild_empty, (scan_wrapping_path p _ Pc), rebuild_app, rebuild_Keep.
  rewrite scan_wrapping_paren, rebuild_empty.
  rewrite (scan_wrapping_alt sep _ Hsep), rebuild_app, rebuild_Keep.
  rewrite (scan_hit wrapping (js "![" ++ b ++ js "](") _ _ None ltac:(discriminate)
             (wrapping_markdown b _ _ Hb)).
  rewrite rebuild_empty, (scan_wrapping_path u _ Uc), rebuild_app, rebuild_Keep.
  rewrite scan_wrapping_paren, rebuild_empty. cbn. now rewrite app_nil_r.
Qed.

Lemma extract_line (origin : jsstring) :
  extractRemoteImageUrls (line ++ [10%N]) origin
  = if startsWith origin (p ++ sep ++ u) then [p ++ sep ++ u] else [].
Proof.
  unfold extractRemoteImageUrls, remoteMatches.
  rewrite matchAll_remoteMarkdown_line.
  rewrite (no_match_on_line remoteHtml (htmlShape_starts _)
             (fun i s => remoteHtml_miss _ i) (fun i s => remoteHtml_miss _ i)).
  rewrite (no_match_on_line remoteWiki (wikiShape_starts _)
             (fun i s => remoteWiki_miss a s i Ha) (fun i s => remoteWiki_miss b s i Hb)).
  cbn [List.map fst app fold_left]. unfold addRemote. rewrite strip_line.
  destruct p as [|c q] eqn:E; [discriminate Hp|].
  cbn [app truthy andb]. now destruct (startsWith origin (c :: q ++ sep ++ u)).
Qed.

End TwoOnALine.

(** X17.  When a markdown image of a local path and a markdown image of
    a URL of the server share a line, the pattern of the extraction
    reads from the first image to the end of the second, and the text
    left after stripping is the two paths with what lies between them:
    the URL is not among the URLs found, though it is found when its
    image has a line of its own. *)
Theorem remote_image_after_local_on_a_line (a p sep b u origin : jsstring) :
  forallb Spec.altChar a = true ->
  forallb Spec.altChar sep = true ->
  forallb Spec.altChar b = true ->
  Spec.wellFormedPath p = true ->
  Spec.wellFormedPath u = true ->
  Spec.remoteUrl p = false ->
  Spec.served origin u = true ->
  extractRemoteImageUrls (Spec.twoOnALine a p sep b u) origin
  = (if startsWith origin (p ++ sep ++ u) then [p ++ sep ++ u] else []) /\
  ~ In u (extractRemoteImageUrls (Spec.twoOnALine a p sep b u) origin) /\
  extractRemoteImageUrls (Spec.document [Spec.Markdown b u]) origin = [u].
Proof.
  intros Ha Hsep Hb Hp Hu Lp Su.
  pose proof Su as Su'. unfold Spec.served in Su'. apply andb_true_iff in Su' as [Ru Ou].
  assert (X : extractRemoteImageUrls (Spec.twoOnALine a p sep b u) origin
              = if startsWith origin (p ++ sep ++ u) then [p ++ sep ++ u] else []).
  { rewrite <- (extract_line a p sep b u Ha Hsep Hb Hp Hu Lp Ru origin).
    unfold Spec.twoOnALine. now rewrite <- !app_assoc. }
  split; [exact X|split].
  - rewrite X. destruct (startsWith origin (p ++ sep ++ u)); [|intros []].
    intros [E|[]]. apply (f_equal (@List.length N)) in E. rewrite !length_app in E.
    destruct p; [discriminate Hp|]. cbn [List.length] in E. lia.
  - rewrite (extractRemoteImageUrls_document [Spec.Markdown b u] origin).
    + unfold Spec.rawPathsByForm. cbn [flat_map Spec.markdownPath Spec.htmlPath Spec.wikiPath app filter].
      rewrite Su. reflexivity.
    + repeat constructor. cbn [Spec.wellFormed]. now rewrite Hb, Hu.
    + constructor.
Qed.
(** ** Further properties: the plugin *)

(** ** The further properties on the samples *)

Import Samples.

(** A name is encoded and read back. *)
Lemma encodeURIComponent_round_trip_witness :
  Forall (fun c => (c < 65536)%N) caption /\
  encodeURIComponent caption = Some (js "a%20b%2F%C3%BC%F0%9F%98%80.png") /\
  decodeURIComponent (js "a%20b%2F%C3%BC%F0%9F%98%80.png") = Some caption.
Proof.
  assert (H : Forall (fun c => (c < 65536)%N) caption)
    by (vm_compute; repeat constructor).
  assert (R : encodeURIComponent caption = Some (js "a%20b%2F%C3%BC%F0%9F%98%80.png"))
    by (vm_compute; reflexivity).
  split; [exact H|]. split; [exact R|].
  exact (proj1 (encodeURIComponent_round_trip caption _ H R)).
Defined.

(** The first token of the sample installation. *)
Lemma getToken_stores_what_it_returns_witness :
  isFetchingToken (installed None) = false /\
  exists w',
    getToken (surroundings true) 0 (installed None) = (Ok (js "new"), w') /\
    token (config w') = Some (js "new") /\
    trace w' = [Fetch (tokenRequest (installed None))].
Proof.
  split; [reflexivity|].
  destruct (getToken_stores_what_it_returns (surroundings true) 0 (installed None) eq_refl)
    as (r & w' & G & T & _).
  exists w'. vm_compute in G. injection G as <- <-.
  repeat split.
Defined.

(** An upload with the current token. *)
Lemma uploadBinary_returns_answered_url_witness :
  exists w',
    uploadBinary (surroundings true) 0 [137%N; 80%N] (js "a.png") (MimeString (js "image/png")) None fresh
      = (Ok (origin ++ js "/i/D.png"), w') /\
    truthy (origin ++ js "/i/D.png") = true.
Proof.
  eexists. split; [vm_compute; reflexivity|].
  exact (proj1 (uploadBinary_returns_answered_url (surroundings true) 0 [137%N; 80%N]
                  (js "a.png") (MimeString (js "image/png")) None fresh _ (origin ++ js "/i/D.png")
                  ltac:(vm_compute; reflexivity))).
Defined.

(** A deletion with a stale token: the request, the refresh, and the
    request again with the new token, which is answered 204.  A key
    with a lone surrogate is refused before anything is sent. *)
Lemma deleteImageByKey_addresses_the_key_witness :
  isFetchingToken stale = false /\
  encodeURIComponent (js "A") = Some (js "A") /\
  (exists w',
     deleteImageByKey (surroundings true) 0 (js "A") stale = (Ok tt, w') /\
     trace w' =
       [Fetch (Spec.deletionRequest address (js "A") (Some (js "Bearer old")));
        Fetch (tokenRequest stale);
        Fetch (Spec.deletionRequest address (js "A") (Some (js "Bearer new")))]) /\
  deleteImageByKey (surroundings true) 0 [55357%N] stale = (Throw UriError, stale).
Proof.
  split; [reflexivity|]. split; [reflexivity|]. split.
  - destruct (deleteImageByKey_addresses_the_key (surroundings true) 0 (js "A") stale eq_refl)
      as [_ H].
    destruct (H (js "A") eq_refl) as (r & w' & R & _).
    exists w'. vm_compute in R. injection R as <- <-. split; reflexivity.
  - destruct (deleteImageByKey_addresses_the_key (surroundings true) 0 [55357%N] stale
                eq_refl) as [H _].
    apply H. reflexivity.
Defined.

(** A listing without a last page. *)
Lemma listAllImages_without_last_page_witness :
  exists w', listAllImages lonely 0 0 fresh = (Ok [itemA], w') /\
             trace w' = [Fetch (Spec.pageRequest fresh 1); Sleep 80].
Proof.
  eexists. split.
  - exact (listAllImages_without_last_page lonely 0 0 fresh _ _
             ltac:(vm_compute; reflexivity) eq_refl eq_refl (or_introl eq_refl)).
  - reflexivity.
Defined.

(** The scan of the sample vault finds the image of the note. *)
Lemma collectUsedImageUrls_unites_the_notes_witness :
  collectUsedImageUrls origin fresh = (Ok [links_url itemB], fresh).
Proof.
  assert (H : Forall2 (fun f c => contentOf (files fresh) f = Some c)
                      (getMarkdownFiles (files fresh)) [noteText]).
  { vm_compute. constructor; [reflexivity|constructor]. }
  rewrite (collectUsedImageUrls_unites_the_notes origin fresh [noteText] H).
  vm_compute. reflexivity.
Defined.

(** A listing that fails on its first page, the token being refused;
    a note that cannot be read, with the three pages of the inventory
    requested all the same; and both at once, the listing being the
    first to fail. *)
Lemma cleanup_needs_the_whole_inventory_witness :
  (exists w',
     cleanupUnusedImages (surroundings false) 2 0 address stale = (Throw (Http 500 []), w') /\
     Spec.deletions (trace w') = [] /\
     files w' = files stale) /\
  (exists w',
     cleanupUnusedImages (surroundings true) 2 0 address shadowed = (Throw VaultRejected, w') /\
     List.length (filter Spec.isFetch (trace w')) = 3 /\
     Spec.deletions (trace w') = [] /\
     files w' = files shadowed) /\
  (exists w',
     cleanupUnusedImages hasty 2 0 address shadowed = (Throw (Http 401 []), w') /\
     List.length (filter Spec.isFetch (trace w')) = 3 /\
     Spec.deletions (trace w') = [] /\
     files w' = files shadowed).
Proof.
  split; [|split].
  - pose (w1 := record (Show ScanStarted) stale).
    pose (w3 := snd (listAllImages (surroundings false) 2 0 w1)).
    assert (H2 : collectUsedImageUrls origin w1 = (Ok [links_url itemB], w1))
      by (vm_compute; reflexivity).
    assert (H3 : listAllImages (surroundings false) 2 0 w1 = (Throw (Http 500 []), w3))
      by (vm_compute; reflexivity).
    destruct (cleanup_needs_the_whole_inventory (surroundings false) 2 0 address origin
                stale w1 w3 _ _ eq_refl H2 H3
                (or_intror (ex_intro _ _ eq_refl)))
      as (e & R & [X|X] & _ & _ & D & _ & F); [discriminate X|].
    injection X as <-.
    exists w3. split; [exact R|]. split; [exact D|exact F].
  - pose (w1 := record (Show ScanStarted) shadowed).
    pose (w3 := snd (listAllImages (surroundings true) 2 0 w1)).
    assert (H2 : collectUsedImageUrls origin w1 = (Throw VaultRejected, w1))
      by (vm_compute; reflexivity).
    assert (H3 : listAllImages (surroundings true) 2 0 w1
                 = (Ok [itemA; itemB; itemC], w3))
      by (vm_compute; reflexivity).
    destruct (cleanup_needs_the_whole_inventory (surroundings true) 2 0 address origin
                shadowed w1 w3 _ _ eq_refl H2 H3 (or_introl (ex_intro _ _ eq_refl)))
      as (e & R & [X|X] & _ & _ & D & _ & F); [|discriminate X].
    injection X as <-.
    exists w3. split; [exact R|]. split; [vm_compute; reflexivity|].
    split; [exact D|exact F].
  - pose (w1 := record (Show ScanStarted) shadowed).
    pose (w3 := snd (listAllImages hasty 2 0 w1)).
    assert (H2 : collectUsedImageUrls origin w1 = (Throw VaultRejected, w1))
      by (vm_compute; reflexivity).
    assert (H3 : listAllImages hasty 2 0 w1 = (Throw (Http 401 []), w3))
      by (vm_compute; reflexivity).
    destruct (cleanup_needs_the_whole_inventory hasty 2 0 address origin
                shadowed w1 w3 _ _ eq_refl H2 H3 (or_introl (ex_intro _ _ eq_refl)))
      as (e & R & _ & B & _ & D & _ & F).
    rewrite (B _ _ eq_refl eq_refl) in R.
    exists w3. split; [exact R|]. split; [vm_compute; reflexivity|].
    split; [exact D|exact F].
Defined.

(** The reference img from the sample note resolves to the folder
    notes/img. *)
Lemma uploadLocalImage_stops_at_a_folder_witness :
  getAbstractFileByPath (files fresh) (js "notes/img") = Some (Folder (js "notes/img")) /\
  uploadLocalImage (surroundings true) 0 (js "img") note fresh
  = (Throw (ImageNotFound (js "notes/img")), fresh).
Proof.
  split; [reflexivity|].
  exact (uploadLocalImage_stops_at_a_folder (surroundings true) 0 (js "img") note fresh
           [] (js "notes/img") (getAlternativePaths (decodedOf (js "img")) note)
           (js "notes/img")
           ltac:(vm_compute; reflexivity) ltac:(intros x []) ltac:(vm_compute; reflexivity)).
Defined.

(** A vault whose note holds no image of the server. *)
Lemma downloadImagesForAllNotes_without_images_witness :
  getServerOrigin eager address = Some origin /\
  downloadImagesForAllNotes eager address emptyHanded
  = (Ok tt, Spec.records [Bar POpen; Bar (PSetTotal 1); Bar PClose;
                          Show (AllDownloadFinished 0)] emptyHanded).
Proof.
  split; [reflexivity|].
  apply (downloadImagesForAllNotes_without_images eager address origin emptyHanded eq_refl).
  intros f Hf. vm_compute in Hf. destruct Hf as [<-|[]].
  exists (js "Nothing here."). split; vm_compute; reflexivity.
Defined.

(** The sample note: its one image of the server is saved and the note
    is written once. *)
Lemma downloadImagesForCurrentNote_persists_once_witness :
  extractRemoteImageUrls noteText origin = [links_url itemB] /\
  exists w',
    downloadImagesForCurrentNote eager address fresh = (Ok tt, w') /\
    filter Spec.isNoteWrite (trace w') =
      [Modify note
         (js "![a](img/a.png)" ++ [10%N] ++ js "![[img/gone.png]]" ++ [10%N]
            ++ js "![[image]]")] /\
    filter Spec.isDownload (trace w') = [RequestUrl (links_url itemB)].
Proof.
  split; [vm_compute; reflexivity|].
  destruct (downloadImagesForCurrentNote_persists_once eager address origin fresh note
              noteText (links_url itemB) []
              eq_refl eq_refl eq_refl ltac:(vm_compute; reflexivity))
    as (rs & w' & pre & R & _).
  exists w'. split; [exact R|].
  vm_compute in R. injection R as <-. split; vm_compute; reflexivity.
Defined.

(** The inventory A, B, C with B used in a note, and a user who
    confirms: the deletion requests for A and C are sent and both are
    deleted. *)
Lemma cleanup_confirmed_takes_every_orphan_witness :
  getServerOrigin eager address = Some origin /\
  unusedOf [links_url itemB] [itemA; itemB; itemC] = [itemA; itemC] /\
  exists w',
    cleanupUnusedImages eager 2 0 address fresh = (Ok tt, w') /\
    Spec.deletions (trace w') =
      [Fetch (Spec.deletionRequest address (js "A") (Some (js "Bearer new")));
       Fetch (Spec.deletionRequest address (js "C") (Some (js "Bearer new")))] /\
    last (trace w') (Sleep 0) = CleanupResult [links_url itemA; links_url itemC] [] /\
    files w' = files fresh.
Proof.
  split; [reflexivity|]. split; [reflexivity|].
  pose (w1 := record (Show ScanStarted) fresh).
  pose (w2 := snd (collectUsedImageUrls origin w1)).
  pose (w3 := snd (listAllImages eager 2 0 w2)).
  assert (H2 : collectUsedImageUrls origin w1 = (Ok [links_url itemB], w2))
    by (vm_compute; reflexivity).
  assert (H3 : listAllImages eager 2 0 w2 = (Ok [itemA; itemB; itemC], w3))
    by (vm_compute; reflexivity).
  pose proof (cleanup_confirmed_takes_every_orphan eager 2 0 address origin
                fresh w2 w3 [links_url itemB] [itemA; itemB; itemC] eq_refl H2 H3
                eq_refl ltac:(discriminate) eq_refl) as H.
  cbn zeta in H. destruct H as (ts & w' & R & _ & _ & _ & _ & F).
  exists w'. split; [exact R|].
  vm_compute in R. injection R as <-.
  split; [vm_compute; reflexivity|]. split; [vm_compute; reflexivity|exact F].
Defined.

(** A local image and an image of the server on one line. *)
Lemma remote_image_after_local_on_a_line_witness :
  extractRemoteImageUrls
    (js "![a](img/a.png) ![b](https://lsky.example.com/i/B.png)" ++ [10%N]) origin = [] /\
  extractRemoteImageUrls
    (js "![b](https://lsky.example.com/i/B.png)" ++ [10%N]) origin = [links_url itemB].
Proof.
  destruct (remote_image_after_local_on_a_line (js "a") (js "img/a.png") (js " ") (js "b")
              (links_url itemB) origin
              eq_refl eq_refl eq_refl eq_refl
              ltac:(vm_compute; reflexivity) eq_refl ltac:(vm_compute; reflexivity))
    as (H1 & _ & H2).
  split; [exact H1|exact H2].
Defined.

(** ** Further properties: what the patterns need *)

Lemma isLocalPath_http (u : jsstring) :
  startsWith (js "http://") u = true \/ startsWith (js "https://") u = true ->
  isLocalPath u = false.
Proof.
  intros [H|H]; apply startsWith_split in H as [t ->]; vm_compute; reflexivity.
Qed.

(** X19.  For a server whose origin begins with http:// or https://, no
    reference is both a local path for the upload and a URL for the
    download, whatever the text. *)
Theorem local_and_remote_references_are_apart (content origin : jsstring) :
  startsWith (js "http://") origin = true \/ startsWith (js "https://") origin = true ->
  forall p, In p (extractLocalImagePaths content) ->
            ~ In p (extractRemoteImageUrls content origin).
Proof.
  intros Ho p Hl Hr.
  destruct (extraction_invariants content origin) as [[_ L] [_ R]].
  specialize (L p Hl). destruct (R p Hr) as [_ O].
  rewrite isLocalPath_http in L; [discriminate L|].
  destruct Ho as [H|H]; [left|right]; exact (startsWith_trans _ _ _ H O).
Qed.

Section Needs.

Import Spec.

(** A text without an exclamation mark and without an opening angle
    bracket: no pattern that begins on one of them matches in it. *)
Lemma matchAll_no_opener (R : regex) (s : jsstring) :
  startsOnOpener R -> Forall (fun c => opener c = false) s -> matchAll R s = [].
Proof.
  intros HR H. unfold matchAll.
  pose proof (scan_keeps R HR s [] H 0) as K. rewrite app_nil_r in K. rewrite K.
  cbn [scan]. rewrite (proj2 HR). rewrite hits_app, hits_Keep. reflexivity.
Qed.

Lemma replaceAll_no_opener (R : regex) (tmpl s : jsstring) :
  startsOnOpener R -> Forall (fun c => opener c = false) s -> replaceAll R tmpl s = s.
Proof.
  intros HR H. unfold replaceAll.
  pose proof (scan_keeps R HR s [] H 0) as K. rewrite app_nil_r in K. rewrite K.
  cbn [scan]. rewrite (proj2 HR). rewrite app_nil_r. apply rebuild_Keep.
Qed.

End Needs.

(** X20.  A text that holds no exclamation mark and no opening angle
    bracket holds no reference: both extractions return nothing and both
    replacements leave the text as it is, whatever the path. *)
Theorem text_without_openers_has_no_reference (content : jsstring) :
  Forall (fun c => Spec.opener c = false) content ->
  extractLocalImagePaths content = [] /\
  (forall origin, extractRemoteImageUrls content origin = []) /\
  (forall p r, replaceImageLink content p r = content) /\
  (forall p r, replaceUrlWithRelative content p r = content).
Proof.
  intros H. split; [|split; [|split]].
  - unfold extractLocalImagePaths.
    rewrite (matchAll_no_opener markdownRegex content markdownRegex_starts H).
    rewrite (matchAll_no_opener htmlRegex content htmlRegex_starts H).
    rewrite (matchAll_no_opener wikiRegex content wikiRegex_starts H). reflexivity.
  - intros origin. unfold extractRemoteImageUrls, remoteMatches.
    rewrite (matchAll_no_opener remoteMarkdown content (mdShape_starts _) H).
    rewrite (matchAll_no_opener remoteHtml content (htmlShape_starts _) H).
    rewrite (matchAll_no_opener remoteWiki content (wikiShape_starts _) H). reflexivity.
  - intros p r. unfold replaceImageLink.
    set (e := escapedPattern (escapeRegExp p)).
    change (Lit (js "![") >> LazyStar Dot >> Lit (js "](") >> e >> Lit (js ")"))
      with (Spec.mdShape (e >> Lit (js ")"))).
    change (Lit (js "<img") >> Plus (NoneOf (js ">")) >> Lit (js "src=" ++ [dq]) >> e >> Lit [dq])
      with (Spec.htmlShape (e >> Lit [dq])).
    change (Lit (js "![[") >> e >> Lit (js "]]")) with (Spec.wikiShape (e >> Lit (js "]]"))).
    rewrite (replaceAll_no_opener _ _ content (mdShape_starts _) H).
    rewrite (replaceAll_no_opener _ _ content (htmlShape_starts _) H).
    exact (replaceAll_no_opener _ _ content (wikiShape_starts _) H).
  - intros p r. unfold replaceUrlWithRelative.
    set (e := escapedPattern (escapeRegExp p)).
    change (Lit (js "![") >> LazyStar Dot >> Lit (js "](") >> e >> Lit (js ")"))
      with (Spec.mdShape (e >> Lit (js ")"))).
    change (Lit (js "<img") >> Plus (NoneOf (js ">")) >> Lit (js "src=" ++ [dq]) >> e
              >> Lit [dq] >> Star (NoneOf (js ">")) >> Lit (js ">"))
      with (Spec.htmlShape (e >> Lit [dq] >> Star (NoneOf (js ">")) >> Lit (js ">"))).
    change (Lit (js "![[") >> e >> Lit (js "]]")) with (Spec.wikiShape (e >> Lit (js "]]"))).
    rewrite (replaceAll_no_opener _ _ content (mdShape_starts _) H).
    rewrite (replaceAll_no_opener _ _ content (htmlShape_starts _) H).
    exact (replaceAll_no_opener _ _ content (wikiShape_starts _) H).
Qed.
(** ** Further properties: a path that does not occur *)

Section Absent.

Lemma greedyStar_calls (pr : N -> bool) (k : nat -> jsstring -> option result) (s : jsstring) :
  forall i res,
    greedyStar pr k i s = Some res ->
    exists j pre s', s = pre ++ s' /\ k j s' = Some res.
Proof.
  induction s as [|c s IH]; intros i res H; cbn [greedyStar] in H.
  - now exists i, [], [].
  - destruct (pr c).
    + destruct (greedyStar pr k (S i) s) as [x|] eqn:G.
      * injection H as <-. destruct (IH _ _ G) as (j & pre & s' & -> & K).
        now exists j, (c :: pre), s'.
      * now exists i, [], (c :: s).
    + now exists i, [], (c :: s).
Qed.

Lemma lazyStar_calls (pr : N -> bool) (k : nat -> jsstring -> option result) (s : jsstring) :
  forall i res,
    lazyStar pr k i s = Some res ->
    exists j pre s', s = pre ++ s' /\ k j s' = Some res.
Proof.
  induction s as [|c s IH]; intros i res H; cbn [lazyStar] in H.
  - destruct (k i []) eqn:K; [|discriminate]. injection H as <-. now exists i, [], [].
  - destruct (k i (c :: s)) eqn:K.
    + injection H as <-. now exists i, [], (c :: s).
    + destruct (pr c); [|discriminate].
      destruct (IH _ _ H) as (j & pre & s' & -> & K').
      now exists j, (c :: pre), s'.
Qed.

(** A match runs its continuation on what is left of the input. *)
Lemma m_calls (r : regex) :
  forall (k : cont) (i : nat) (s : jsstring) (cp : option jsstring) (res : result),
    m r k i s cp = Some res ->
    exists j pre s' cp', s = pre ++ s' /\ k j s' cp' = Some res.
Proof.
  induction r as [|cs|a IHa b IHb|a IHa b IHb|cs|cs|a IHa| |]; intros k i s cp res H;
    cbn [m] in H.
  - now exists i, [], s, cp.
  - destruct s as [|c s]; [discriminate|]. destruct (cmatch cs c); [|discriminate].
    now exists (S i), [c], s, cp.
  - destruct (IHa _ _ _ _ _ H) as (j & pre & s1 & cp1 & -> & H1).
    destruct (IHb _ _ _ _ _ H1) as (j2 & pre2 & s2 & cp2 & -> & H2).
    exists j2, (pre ++ pre2), s2, cp2. now rewrite <- app_assoc.
  - destruct (m a k i s cp) as [x|] eqn:A.
    + injection H as <-. now apply IHa in A.
    + now apply IHb in H.
  - destruct (greedyStar_calls _ _ _ _ _ H) as (j & pre & s' & -> & K).
    now exists j, pre, s', cp.
  - destruct (lazyStar_calls _ _ _ _ _ H) as (j & pre & s' & -> & K).
    now exists j, pre, s', cp.
  - destruct (IHa _ _ _ _ _ H) as (j & pre & s' & cp' & -> & K).
    now exists j, pre, s', (Some (firstn (j - i) (pre ++ s'))).
  - destruct i; [|discriminate]. now exists 0, [], s, cp.
  - destruct s; [|discriminate]. now exists i, [], [], cp.
Qed.

Lemma includes_suffix (p pre s : jsstring) :
  includes p s = true -> includes p (pre ++ s) = true.
Proof.
  intros H. induction pre as [|c pre IH]; [exact H|].
  cbn [app includes]. rewrite IH. apply orb_true_r.
Qed.

Lemma includes_here (p s : jsstring) : startsWith p s = true -> includes p s = true.
Proof. intros H. destruct s; cbn [includes]; now rewrite H. Qed.

(** A pattern that holds a literal matches only where the literal
    occurs further on. *)
Lemma match_needs_literal (A B : regex) (p : jsstring) (i : nat) (s : jsstring) :
  includes p s = false -> matchAt (A >> Lit p >> B) i s = None.
Proof.
  intros H. apply matchAt_None.
  destruct (m (A >> Lit p >> B) accept i s None) as [res|] eqn:M; [|reflexivity].
  rewrite m_Seq in M. destruct (m_calls A _ _ _ _ _ M) as (j & pre & s' & cp' & -> & K).
  rewrite m_Seq, m_Lit in K. destruct (startsWith p s') eqn:S; [|discriminate].
  rewrite (includes_suffix p pre s' (includes_here p s' S)) in H. discriminate H.
Qed.

Lemma scan_unmatched (R : regex) (s : jsstring) :
  (forall pre s2 j, s = pre ++ s2 -> matchAt R j s2 = None) ->
  forall i, scan R i s 0 = List.map Keep s.
Proof.
  induction s as [|c s IH]; intros H i; cbn [scan].
  - now rewrite (H [] [] i eq_refl).
  - rewrite (H [] (c :: s) i eq_refl). cbn [List.map]. f_equal.
    apply IH. intros pre s2 j ->. apply (H (c :: pre) s2 j). reflexivity.
Qed.

Lemma replaceAll_absent (R A B : regex) (p tmpl s : jsstring) :
  (forall i t, matchAt R i t = matchAt (A >> Lit p >> B) i t) ->
  includes p s = false ->
  replaceAll R tmpl s = s.
Proof.
  intros HR H. unfold replaceAll. rewrite scan_unmatched; [apply rebuild_Keep|].
  intros pre s2 j ->. rewrite HR. apply match_needs_literal.
  destruct (includes p s2) eqn:I; [|reflexivity].
  now rewrite (includes_suffix p pre s2 I) in H.
Qed.

End Absent.

(** X21.  A text in which the path does not occur is left as it is by
    both replacements, whatever else it holds. *)
Theorem rewriting_without_the_path_changes_nothing (content p r : jsstring) :
  includes p content = false ->
  replaceImageLink content p r = content /\
  replaceUrlWithRelative content p r = content.
Proof.
  intros H. split.
  - unfold replaceImageLink. rewrite escapedPattern_escapeRegExp.
    match goal with |- context [replaceAll ?R ?tm content] =>
      rewrite (replaceAll_absent R (Lit (js "![") >> LazyStar Dot >> Lit (js "]("))
                 (Lit (js ")")) p tm content (fun _ _ => eq_refl) H) end.
    match goal with |- context [replaceAll ?R ?tm content] =>
      rewrite (replaceAll_absent R
                 (Lit (js "<img") >> Plus (NoneOf (js ">")) >> Lit (js "src=" ++ [dq]))
                 (Lit [dq]) p tm content (fun _ _ => eq_refl) H) end.
    match goal with |- context [replaceAll ?R ?tm content] =>
      exact (replaceAll_absent R (Lit (js "![[")) (Lit (js "]]")) p tm content
               (fun _ _ => eq_refl) H) end.
  - unfold replaceUrlWithRelative. rewrite escapedPattern_escapeRegExp.
    match goal with |- context [replaceAll ?R ?tm content] =>
      rewrite (replaceAll_absent R (Lit (js "![") >> LazyStar Dot >> Lit (js "]("))
                 (Lit (js ")")) p tm content (fun _ _ => eq_refl) H) end.
    match goal with |- context [replaceAll ?R ?tm content] =>
      rewrite (replaceAll_absent R
                 (Lit (js "<img") >> Plus (NoneOf (js ">")) >> Lit (js "src=" ++ [dq]))
                 (Lit [dq] >> Star (NoneOf (js ">")) >> Lit (js ">")) p tm content
                 (fun _ _ => eq_refl) H) end.
    match goal with |- context [replaceAll ?R ?tm content] =>
      exact (replaceAll_absent R (Lit (js "![[")) (Lit (js "]]")) p tm content
               (fun _ _ => eq_refl) H) end.
Qed.

(** The note of the samples against the server of the samples. *)
Lemma local_and_remote_references_are_apart_witness :
  In (js "img/a.png") (extractLocalImagePaths noteText) /\
  ~ In (js "img/a.png") (extractRemoteImageUrls noteText origin).
Proof.
  assert (L : In (js "img/a.png") (extractLocalImagePaths noteText))
    by (vm_compute; auto 10).
  split; [exact L|].
  exact (local_and_remote_references_are_apart noteText origin (or_intror eq_refl) _ L).
Defined.

(** A text with no exclamation mark and no angle bracket. *)
Lemma text_without_openers_has_no_reference_witness :
  extractLocalImagePaths (js "Nothing here.") = [] /\
  extractRemoteImageUrls (js "Nothing here.") origin = [] /\
  replaceImageLink (js "Nothing here.") (js "here") (js "there") = js "Nothing here.".
Proof.
  destruct (text_without_openers_has_no_reference (js "Nothing here.")
              ltac:(vm_compute; repeat constructor)) as (H1 & H2 & H3 & _).
  split; [exact H1|]. split; [exact (H2 origin)|exact (H3 (js "here") (js "there"))].
Defined.

(** The note of the samples and a path it does not mention. *)
Lemma rewriting_without_the_path_changes_nothing_witness :
  replaceImageLink noteText (js "img/none.png") (links_url itemA) = noteText /\
  replaceUrlWithRelative noteText (js "img/none.png") (js "a.png") = noteText.
Proof.
  split.
  - exact (proj1 (rewriting_without_the_path_changes_nothing noteText (js "img/none.png")
                    (links_url itemA) ltac:(vm_compute; reflexivity))).
  - exact (proj2 (rewriting_without_the_path_changes_nothing noteText (js "img/none.png")
                    (js "a.png") ltac:(vm_compute; reflexivity))).
Defined.
